(** * The route trie, the function chain and the server of simple-anyserver

    A shallow embedding of [src/trie.ts], [src/chain.ts] and
    [src/index.ts].  Of the [RouteTrie] class: the segment classifier
    [parseSegment], the registrar [addRoute] / [_addRoute], the path
    normaliser [_matchPath] and the matcher [match] / [_match].  Of the
    chain: both versions of [createChain].  Of the server: the class
    [HttpRouteConstructor], and [http] and the listener of [listen] of
    the class [AnyServer].  The properties follow the definitions.

    Conventions.
    - A JavaScript string is a [string]; its characters stand for the code
      units U+0000 to U+00FF.
    - The regular-expression literals that appear in the source are
      translated to the abstract syntax [regex] and run by a backtracking
      matcher that follows the continuation semantics of ECMAScript.
    - The patterns a caller writes inside a route, [/:id(\d+)], reach the
      [RegExp] constructor of the host.  The host is a parameter, the class
      [RegExpHost]; [MiniRegExp] is an instance for a fragment of the
      pattern language.
    - A [TrieNode] is mutated in place by the source; here a method returns
      the node it leaves behind.  [RouteTrie] methods run in the monad [M],
      which threads the object's fields and records a thrown error.
    - An [async] function is a function of the state it works on, which
      returns how its promise settles and the state it leaves.  The
      objects of the class [HttpRouteConstructor] refer to each other and
      are changed in place; they are kept in a store and referred to by
      their index. *)

From Stdlib Require Import String Ascii List ZArith Lia Bool Arith.
From stdpp Require Import gmap strings list fin_maps.
From Equations Require Import Equations.

Local Open Scope string_scope.
Local Open Scope list_scope.
Set Warnings "-register-all".

(** ** JavaScript strings *)

Module JsString.

Definition code (c : ascii) : nat := nat_of_ascii c.

Definition in_range (lo hi : nat) (c : ascii) : bool :=
  (lo <=? code c)%nat && (code c <=? hi)%nat.

(** [String.prototype.toLowerCase] on one code unit below U+0100: the
    letters A-Z, and the Latin-1 capitals U+00C0-U+00DE but the
    multiplication sign U+00D7, move 32 places up. *)
Definition lower_char (c : ascii) : ascii :=
  if in_range 65 90 c
     || (in_range 192 222 c && negb (code c =? 215)%nat)
  then ascii_of_nat (code c + 32)
  else c.

(** The inverse move, used by case-insensitive regular expressions. *)
Definition upper_char (c : ascii) : ascii :=
  if in_range 97 122 c
     || (in_range 224 254 c && negb (code c =? 247)%nat)
  then ascii_of_nat (code c - 32)
  else c.

Fixpoint toLowerCase (s : string) : string :=
  match s with
  | EmptyString => EmptyString
  | String c t => String (lower_char c) (toLowerCase t)
  end.

(** [s.startsWith(p)] *)
Definition startsWith (s p : string) : bool := String.prefix p s.

(** [s.endsWith(p)] *)
Definition endsWith (s p : string) : bool :=
  (String.length p <=? String.length s)%nat
  && String.eqb (substring (String.length s - String.length p)
                           (String.length p) s) p.

(** The clamping of a relative index done by [slice]: a negative index
    counts from the end. *)
Definition clamp (len : nat) (i : Z) : nat :=
  if (i <? 0)%Z then Z.to_nat (Z.max 0 (Z.of_nat len + i))
  else Nat.min (Z.to_nat i) len.

(** [s.slice(from, to)] *)
Definition slice (s : string) (from to : Z) : string :=
  let len := String.length s in
  let a := clamp len from in
  let b := clamp len to in
  substring a (b - a) s.

(** [s.slice(from)] *)
Definition slice_from (s : string) (from : Z) : string :=
  let len := String.length s in
  let a := clamp len from in
  substring a (len - a) s.

(** [s.split(sep)] for a separator of one code unit: the tokens between
    the separators, never fewer than one. *)
Fixpoint split (sep : ascii) (s : string) : list string :=
  match s with
  | EmptyString => [EmptyString]
  | String c t =>
      if Ascii.eqb c sep then EmptyString :: split sep t
      else match split sep t with
           | [] => [String c EmptyString]
           | tok :: toks => String c tok :: toks
           end
  end.

(** [tokens.join(sep)] *)
Definition join (sep : string) (tokens : list string) : string :=
  String.concat sep tokens.

(** [s[0] === c] *)
Definition first_is (s : string) (c : ascii) : bool :=
  match s with
  | String d _ => Ascii.eqb d c
  | EmptyString => false
  end.

End JsString.

(** ** Regular expressions of the host language

    The abstract syntax covers what the literals of [trie.ts] use, and a
    little more for [MiniRegExp].  The matcher follows the ECMAScript
    semantics: a matcher takes a state and a continuation, quantifiers are
    greedy and backtrack, an iteration of a quantifier that consumes nothing
    is refused once the minimum is reached, and the captures of the groups
    inside a quantifier are reset when an iteration starts. *)

Module Regex.

(** A member of a character class. *)
Inductive class_item : Type :=
| IChar (c : ascii)              (* a *)
| IRange (lo hi : ascii)         (* a-z *)
| IDigit                         (* \d *)
| IWord.                         (* \w *)

Inductive regex : Type :=
| Empty
| Chr (c : ascii)                             (* a pattern character *)
| Dot                                         (* . *)
| Class (negated : bool) (items : list class_item)  (* [...] and [^...] *)
| Seq (r1 r2 : regex)
| Alt (r1 r2 : regex)                         (* r1|r2 *)
| Star (r : regex)                            (* r* *)
| Plus (r : regex)                            (* r+ *)
| Opt (r : regex)                             (* r? *)
| Cap (i : nat) (r : regex)                   (* the i-th capturing group *)
| Bol                                         (* ^ *)
| Eol.                                        (* $ *)

(** The state of a match: how many code units are consumed, what is left
    of the input, and the captures made so far. *)
Record mstate : Type := MState {
  pos : nat;
  rest : string;
  caps : list (nat * string)
}.

Definition cont : Type := mstate -> option mstate.
Definition matcher : Type := mstate -> cont -> option mstate.

Definition is_line_terminator (c : ascii) : bool :=
  (JsString.code c =? 10)%nat || (JsString.code c =? 13)%nat.

Definition is_digit (c : ascii) : bool := JsString.in_range 48 57 c.

Definition is_word (c : ascii) : bool :=
  JsString.in_range 97 122 c || JsString.in_range 65 90 c
  || is_digit c || (JsString.code c =? 95)%nat.

Definition item_has (it : class_item) (c : ascii) : bool :=
  match it with
  | IChar d => Ascii.eqb d c
  | IRange lo hi => JsString.in_range (JsString.code lo) (JsString.code hi) c
  | IDigit => is_digit c
  | IWord => is_word c
  end.

(** Membership in a set of class items; with the flag [i] a code unit
    also belongs when its other case does. *)
Definition set_has (icase : bool) (items : list class_item) (c : ascii) : bool :=
  existsb (fun it =>
    item_has it c
    || (icase && (item_has it (JsString.upper_char c)
                  || item_has it (JsString.lower_char c)))) items.

Definition chr_eq (icase : bool) (c d : ascii) : bool :=
  if icase then Ascii.eqb (JsString.upper_char c) (JsString.upper_char d)
  else Ascii.eqb c d.

(** Consume one code unit that satisfies [p]. *)
Definition one (p : ascii -> bool) : matcher := fun x c =>
  match rest x with
  | String a t => if p a then c (MState (S (pos x)) t (caps x)) else None
  | EmptyString => None
  end.

(** The indices of the capturing groups of a pattern. *)
Fixpoint groups (r : regex) : list nat :=
  match r with
  | Seq r1 r2 | Alt r1 r2 => groups r1 ++ groups r2
  | Star r1 | Plus r1 | Opt r1 => groups r1
  | Cap i r1 => i :: groups r1
  | _ => []
  end.

Definition clear (gs : list nat) (x : mstate) : mstate :=
  MState (pos x) (rest x)
         (List.filter (fun e => negb (existsb (Nat.eqb (fst e)) gs)) (caps x)).

Definition set_cap (i : nat) (v : string) (x : mstate) : mstate :=
  MState (pos x) (rest x)
         ((i, v) :: List.filter (fun e => negb (Nat.eqb (fst e) i)) (caps x)).

Definition orelse (a : option mstate) (b : option mstate) : option mstate :=
  match a with Some z => Some z | None => b end.

(** The greedy loop of [r*], after the minimum is reached: each further
    iteration must consume something, so the length of the remaining
    input bounds their number. *)
Fixpoint repeat_matcher (m : matcher) (gs : list nat) (bound : nat)
    (x : mstate) (c : cont) : option mstate :=
  match bound with
  | O => c x
  | S n =>
      orelse
        (m (clear gs x) (fun y =>
           if (pos y =? pos x)%nat then None
           else repeat_matcher m gs n y c))
        (c x)
  end.

Fixpoint compile (icase : bool) (r : regex) {struct r} : matcher :=
  match r with
  | Empty => fun x c => c x
  | Chr ch => one (chr_eq icase ch)
  | Dot => one (fun a => negb (is_line_terminator a))
  | Class negated items => one (fun a => xorb negated (set_has icase items a))
  | Seq r1 r2 => fun x c => compile icase r1 x (fun y => compile icase r2 y c)
  | Alt r1 r2 => fun x c => orelse (compile icase r1 x c) (compile icase r2 x c)
  | Star r1 => fun x c =>
      repeat_matcher (compile icase r1) (groups r1) (String.length (rest x)) x c
  | Plus r1 => fun x c =>
      compile icase r1 (clear (groups r1) x) (fun y =>
        repeat_matcher (compile icase r1) (groups r1) (String.length (rest y)) y c)
  | Opt r1 => fun x c =>
      orelse
        (compile icase r1 (clear (groups r1) x) (fun y =>
           if (pos y =? pos x)%nat then None else c y))
        (c x)
  | Cap i r1 => fun x c =>
      compile icase r1 x (fun y =>
        c (set_cap i (substring 0 (pos y - pos x) (rest x)) y))
  | Bol => fun x c => if (pos x =? 0)%nat then c x else None
  | Eol => fun x c =>
      match rest x with EmptyString => c x | String _ _ => None end
  end.

(** A successful match: where it starts, where it ends, its captures. *)
Record found : Type := Found {
  f_start : nat;
  f_end : nat;
  f_caps : list (nat * string)
}.

(** The search of [RegExp.prototype.exec] without the flags [g] and [y]:
    the leftmost start that matches, from [start] on. *)
Fixpoint exec_from (m : matcher) (start : nat) (input : string) : option found :=
  match m (MState start input []) Some with
  | Some y => Some (Found start (pos y) (caps y))
  | None =>
      match input with
      | EmptyString => None
      | String _ t => exec_from m (S start) t
      end
  end.

Definition exec (icase : bool) (r : regex) (s : string) : option found :=
  exec_from (compile icase r) 0 s.

(** [r.test(s)] *)
Definition test (icase : bool) (r : regex) (s : string) : bool :=
  match exec icase r s with Some _ => true | None => false end.

(** The value of the [i]-th group in the array returned by [s.match(r)]:
    [None] is [undefined]. *)
Definition group (i : nat) (f : found) : option string :=
  snd <$> List.find (fun e => Nat.eqb (fst e) i) (f_caps f).

(** [s.replace(r, by_)] for a pattern without the flag [g]: the first
    match is replaced.  The replacement strings of the source hold no
    dollar sign. *)
Definition replace (r : regex) (s by_ : string) : string :=
  match exec false r s with
  | Some f =>
      substring 0 (f_start f) s ++ by_
      ++ substring (f_end f) (String.length s - f_end f) s
  | None => s
  end.

(** [s.replace(r, by_)] for a pattern with the flag [g]: every match,
    from left to right; after an empty match the search moves on by one
    code unit.  [budget] bounds the number of matches. *)
Fixpoint replace_all_from (r : regex) (budget : nat) (start : nat)
    (s by_ : string) : string :=
  match budget with
  | O => substring start (String.length s - start) s
  | S n =>
      match exec_from (compile false r) start
                      (substring start (String.length s - start) s) with
      | Some f =>
          substring start (f_start f - start) s ++ by_
          ++ (if (f_end f =? f_start f)%nat
              then if (f_end f <? String.length s)%nat
                   then substring (f_end f) 1 s
                        ++ replace_all_from r n (S (f_end f)) s by_
                   else EmptyString
              else replace_all_from r n (f_end f) s by_)
      | None => substring start (String.length s - start) s
      end
  end.

Definition replace_all (r : regex) (s by_ : string) : string :=
  replace_all_from r (S (String.length s)) 0 s by_.

End Regex.

(** ** The [RegExp] objects of the host

    [new RegExp(pattern, flags)] parses a pattern that a caller supplies; it
    throws a [SyntaxError] when the pattern is not well formed.  The objects
    built in [trie.ts] carry no flag but [i], so [test] has no state. *)

Class RegExpHost : Type := {
  RegExp : Type;
  (** [new RegExp(pattern, flags)]; [None] when the constructor throws. *)
  RegExp_new : string -> string -> option RegExp;
  (** [re.test(s)] *)
  RegExp_test : RegExp -> string -> bool;
  (** [re.toString()] *)
  RegExp_toString : RegExp -> string
}.

(** A host for a fragment of the pattern language: pattern characters,
    the escapes [\d \D \w \W] and escaped punctuation, the dot, classes with
    ranges, the quantifiers [* + ?], alternation and the two anchors; the
    flags are none or [i].  It agrees with ECMAScript on the patterns of the
    fragment and refuses every other pattern, well formed or not.  A route
    segment cannot hold a slash, and neither can a pattern of the
    fragment. *)

Module MiniRegExp.
Import Regex.

Record t : Type := Make {
  source : string;
  flags : string;
  ast : regex
}.

Definition backslash : ascii := ascii_of_nat 92.

(** The punctuation that a backslash may precede. *)
Definition is_syntax_char (c : ascii) : bool :=
  existsb (Ascii.eqb c)
    (list_ascii_of_string "^$\.*+?()[]{}|-").

(** Brackets and braces outside a class are left out of the fragment. *)
Definition is_bracket (c : ascii) : bool :=
  existsb (Ascii.eqb c) (list_ascii_of_string "()]{}").

Fixpoint has_slash (s : string) : bool :=
  match s with
  | EmptyString => false
  | String c t => Ascii.eqb c "/" || has_slash t
  end.

(** Where the parser stands: among the terms of an alternative, or
    inside a class. *)
Inductive mode : Type :=
| Top
| InClass (negated : bool) (items : list class_item).

Definition seq_of (rev_terms : list regex) : regex :=
  fold_left (fun acc r => Seq r acc) rev_terms Empty.

Definition alt_of (left : option regex) (r : regex) : regex :=
  match left with Some l => Alt l r | None => r end.

Definition escape_atom (c : ascii) : option regex :=
  if Ascii.eqb c "d" then Some (Class false [IDigit])
  else if Ascii.eqb c "D" then Some (Class true [IDigit])
  else if Ascii.eqb c "w" then Some (Class false [IWord])
  else if Ascii.eqb c "W" then Some (Class true [IWord])
  else if is_syntax_char c then Some (Chr c)
  else None.

Definition escape_item (c : ascii) : option class_item :=
  if Ascii.eqb c "d" then Some IDigit
  else if Ascii.eqb c "w" then Some IWord
  else if is_syntax_char c then Some (IChar c)
  else None.

Definition quantify (q : regex -> regex) (rev_terms : list regex)
    : option (list regex) :=
  match rev_terms with
  | a :: older => Some (q a :: older)
  | [] => None
  end.

(** [parse s left terms quantifiable m]: [left] holds the alternatives
    already read, [terms] the terms of the current alternative, last
    first, and [quantifiable] tells whether a quantifier may follow. *)
Fixpoint parse (s : string) (left : option regex) (terms : list regex)
    (quantifiable : bool) (m : mode) {struct s} : option regex :=
  match m with
  | Top =>
      match s with
      | EmptyString => Some (alt_of left (seq_of terms))
      | String c t =>
          if Ascii.eqb c backslash then
            match t with
            | String d t' =>
                a ← escape_atom d; parse t' left (a :: terms) true Top
            | EmptyString => None
            end
          else if Ascii.eqb c "[" then
            match t with
            | String "^" t' => parse t' left terms false (InClass true [])
            | _ => parse t left terms false (InClass false [])
            end
          else if Ascii.eqb c "|" then
            parse t (Some (alt_of left (seq_of terms))) [] false Top
          else if Ascii.eqb c "^" then parse t left (Bol :: terms) false Top
          else if Ascii.eqb c "$" then parse t left (Eol :: terms) false Top
          else if Ascii.eqb c "." then parse t left (Dot :: terms) true Top
          else if Ascii.eqb c "*" then
            if quantifiable then
              terms' ← quantify Star terms; parse t left terms' false Top
            else None
          else if Ascii.eqb c "+" then
            if quantifiable then
              terms' ← quantify Plus terms; parse t left terms' false Top
            else None
          else if Ascii.eqb c "?" then
            if quantifiable then
              terms' ← quantify Opt terms; parse t left terms' false Top
            else None
          else if is_bracket c then None
          else parse t left (Chr c :: terms) true Top
      end
  | InClass negated items =>
      match s with
      | EmptyString => None
      | String c t =>
          if Ascii.eqb c "]" then
            parse t left (Class negated (rev items) :: terms) true Top
          else if Ascii.eqb c backslash then
            match t with
            | String d t' =>
                it ← escape_item d;
                parse t' left terms false (InClass negated (it :: items))
            | EmptyString => None
            end
          else
            match t with
            | String "-" (String hi t') =>
                if Ascii.eqb hi "]" then
                  parse t' left
                        (Class negated (rev (IChar "-" :: IChar c :: items))
                           :: terms)
                        true Top
                else if Ascii.eqb hi backslash then None
                else if (JsString.code c <=? JsString.code hi)%nat then
                  parse t' left terms false
                        (InClass negated (IRange c hi :: items))
                else None
            | _ => parse t left terms false (InClass negated (IChar c :: items))
            end
      end
  end.

Definition new (pattern flags : string) : option t :=
  if (String.eqb flags "" || String.eqb flags "i")
     && negb (has_slash pattern) then
    r ← parse pattern None [] false Top;
    Some (Make (if String.eqb pattern "" then "(?:)" else pattern) flags r)
  else None.

Definition test (re : t) (s : string) : bool :=
  Regex.test (String.eqb (flags re) "i") (ast re) s.

Definition toString (re : t) : string :=
  "/" ++ source re ++ "/" ++ flags re.

End MiniRegExp.

Definition MiniRegExpHost : RegExpHost := {|
  RegExp := MiniRegExp.t;
  RegExp_new := MiniRegExp.new;
  RegExp_test := MiniRegExp.test;
  RegExp_toString := MiniRegExp.toString
|}.

(** The object that [new RegExp("^\d+$", flags)] builds on this host. *)
Definition anchored_digits (flags : string) : MiniRegExp.t :=
  MiniRegExp.Make "^\d+$" flags
    (Regex.Seq Regex.Bol
       (Regex.Seq (Regex.Plus (Regex.Class false [Regex.IDigit]))
                  (Regex.Seq Regex.Eol Regex.Empty))).

(** The object that [new RegExp("\d+")] builds on this host. *)
Definition bare_digits : MiniRegExp.t :=
  MiniRegExp.Make "\d+" EmptyString
    (Regex.Seq (Regex.Plus (Regex.Class false [Regex.IDigit])) Regex.Empty).

(** ** The data of [trie.ts] *)

(** The field [type] of [ParsedSegment]. *)
Inductive SegmentType : Type :=
| static
| named
| named_regex
| named_suffix
| named_regex_suffix
| catch_all
| literal_colon
| wildcard.

#[global] Instance SegmentType_eq_dec : EqDecision SegmentType.
Proof. solve_decision. Defined.

(** [interface ParsedSegment]; an absent field is [None]. *)
Record ParsedSegment : Type := mkParsedSegment {
  ps_type : SegmentType;
  ps_name : option string;
  ps_value : option string;
  ps_regex : option string;
  ps_suffix : option string
}.

(** [interface RouteTrieOptions], as the caller passes it. *)
Record RouteTrieOptions : Type := mkRouteTrieOptions {
  opt_ignoreCase : option bool;
  opt_fixedPath : option bool;
  opt_trailingSlash : option bool
}.

(** [Required<RouteTrieOptions>], as the constructor stores it. *)
Record Options : Type := mkOptions {
  ignoreCase : bool;
  fixedPath : bool;
  trailingSlash : bool
}.

(** What a method can throw: the [Error] that [_addRoute] builds, with its
    message, and the [SyntaxError] of the [RegExp] constructor, with the
    pattern it refused. *)
Inductive Error : Type :=
| InvalidRegexInRoute (message : string)
| SyntaxError (pattern : string).

(** How a call ends. *)
Inductive completion (A : Type) : Type :=
| Normal (a : A)
| Throw (e : Error).
Arguments Normal {A} a.
Arguments Throw {A} e.

(** The strict equality [a === b] of two values of one type. *)
Notation "a === b" := (bool_decide (a = b)) (at level 70, no associativity).

(** Whether an optional string counts as true in a condition: it is present
    and not empty. *)
Definition truthy (o : option string) : bool :=
  match o with
  | Some s => negb (String.eqb s "")
  | None => false
  end.

(** The assertion [x!] on an optional string. *)
Definition unwrap (o : option string) : string := default "" o.

(** A JavaScript [Map] with string keys keeps its entries in insertion
    order; [set] on a present key keeps its place. *)
Section JsMap.
Context {V : Type}.

Definition Map_has (k : string) (m : list (string * V)) : bool :=
  existsb (fun e => String.eqb (fst e) k) m.

Fixpoint Map_get (k : string) (m : list (string * V)) : option V :=
  match m with
  | [] => None
  | (k', v) :: m' => if String.eqb k' k then Some v else Map_get k m'
  end.

Fixpoint Map_set (k : string) (v : V) (m : list (string * V))
    : list (string * V) :=
  match m with
  | [] => [(k, v)]
  | (k', v') :: m' =>
      if String.eqb k' k then (k', v) :: m' else (k', v') :: Map_set k v m'
  end.
End JsMap.

(** ** The segment classifier *)

Definition seq (rs : list Regex.regex) : Regex.regex :=
  fold_right Regex.Seq Regex.Empty rs.

Definition name_chars : Regex.regex :=
  Regex.Class false [Regex.IRange "a" "z"; Regex.IRange "A" "Z";
                     Regex.IRange "0" "9"; Regex.IChar "_"].

(** [/:([a-zA-Z0-9_]+)(?:\(([^)]+)\))?\+(.+)/] *)
Definition suffixRegex : Regex.regex :=
  seq [Regex.Chr ":";
       Regex.Cap 1 (Regex.Plus name_chars);
       Regex.Opt (seq [Regex.Chr "(";
                       Regex.Cap 2 (Regex.Plus (Regex.Class true [Regex.IChar ")"]));
                       Regex.Chr ")"]);
       Regex.Chr "+";
       Regex.Cap 3 (Regex.Plus Regex.Dot)].

(** [/:([a-zA-Z0-9_]+)\(([^)]+)\)/] *)
Definition regexMatchRegex : Regex.regex :=
  seq [Regex.Chr ":";
       Regex.Cap 1 (Regex.Plus name_chars);
       Regex.Chr "(";
       Regex.Cap 2 (Regex.Plus (Regex.Class true [Regex.IChar ")"]));
       Regex.Chr ")"].

Definition parseSegment (segment : string) : ParsedSegment :=
  if JsString.startsWith segment "::" then
    mkParsedSegment static None (Some (":" +:+ JsString.slice_from segment 2))
                    None None
  else if String.eqb segment "*" then
    mkParsedSegment wildcard None None None None
  else if JsString.endsWith segment "*" && JsString.first_is segment ":" then
    mkParsedSegment catch_all (Some (JsString.slice segment 1 (-1))) None None None
  else
    match Regex.exec false suffixRegex segment with
    | Some suffixMatch =>
        let name := Regex.group 1 suffixMatch in
        let regex := Regex.group 2 suffixMatch in
        let suffix := Regex.group 3 suffixMatch in
        mkParsedSegment (if truthy regex then named_regex_suffix else named_suffix)
                        name None regex suffix
    | None =>
        match Regex.exec false regexMatchRegex segment with
        | Some regexMatch =>
            let name := Regex.group 1 regexMatch in
            let regex := Regex.group 2 regexMatch in
            mkParsedSegment named_regex name None regex None
        | None =>
            if JsString.startsWith segment ":" then
              mkParsedSegment named (Some (JsString.slice_from segment 1))
                              None None None
            else
              mkParsedSegment static None (Some segment) None None
        end
    end.

(** ** Trie nodes *)

(** An entry of [paramChildren]; [N] is the type of the child node. *)
Record ParamChild (R N : Type) : Type := mkParamChild {
  p_type : SegmentType;
  p_name : string;
  p_regex : option R;
  p_suffix : option string;
  p_node : N
}.
Arguments mkParamChild {R N} _ _ _ _ _.
Arguments p_type {R N} _.
Arguments p_name {R N} _.
Arguments p_regex {R N} _.
Arguments p_suffix {R N} _.
Arguments p_node {R N} _.

(** [class TrieNode].  [R] is the type of the compiled patterns and [H]
    the type of the handlers, which the trie stores and never calls. *)
Inductive TrieNode (R H : Type) : Type := mkTrieNode {
  staticChildren : list (string * TrieNode R H);
  paramChildren : list (ParamChild R (TrieNode R H));
  catchAllChild : option (string * TrieNode R H);
  wildcardChild : option (TrieNode R H);
  handlers : list H
}.
Arguments mkTrieNode {R H} _ _ _ _ _.
Arguments staticChildren {R H} _.
Arguments paramChildren {R H} _.
Arguments catchAllChild {R H} _.
Arguments wildcardChild {R H} _.
Arguments handlers {R H} _.

(** [interface MatchResult] *)
Record MatchResult (H : Type) : Type := mkMatchResult {
  params : gmap string string;
  matched : list H
}.
Arguments mkMatchResult {H} _ _.
Arguments params {H} _.
Arguments matched {H} _.

Section Trie.
Context {host : RegExpHost} {Handler : Type}.

Abbreviation Node := (TrieNode RegExp Handler).
Abbreviation Param := (ParamChild RegExp Node).
Abbreviation Result := (MatchResult Handler).

(** [new TrieNode()] *)
Definition newTrieNode : Node := mkTrieNode [] [] None None [].

(** [node.addHandler(handler)] *)
Definition addHandler (node : Node) (handler : Handler) : Node :=
  mkTrieNode (staticChildren node) (paramChildren node)
             (catchAllChild node) (wildcardChild node)
             (handlers node ++ [handler]).

Definition set_staticChildren (node : Node) (v : list (string * Node)) : Node :=
  mkTrieNode v (paramChildren node) (catchAllChild node)
             (wildcardChild node) (handlers node).

Definition set_paramChildren (node : Node) (v : list Param) : Node :=
  mkTrieNode (staticChildren node) v (catchAllChild node)
             (wildcardChild node) (handlers node).

Definition set_catchAllChild (node : Node) (v : option (string * Node)) : Node :=
  mkTrieNode (staticChildren node) (paramChildren node) v
             (wildcardChild node) (handlers node).

Definition set_wildcardChild (node : Node) (v : option Node) : Node :=
  mkTrieNode (staticChildren node) (paramChildren node)
             (catchAllChild node) v (handlers node).

Definition set_p_node (param : Param) (n : Node) : Param :=
  mkParamChild (p_type param) (p_name param) (p_regex param)
               (p_suffix param) n.

(** *** The registrar *)

(** The outcome of the scan of [node.paramChildren] in [_addRoute]. *)
Inductive scan : Type :=
| Reuse (i : nat) (paramNode : Node)
| Absent
| ScanThrow (e : Error).

(** The right operand of the third comparison of the scan,
    [parsed.regex ? new RegExp(parsed.regex).toString() : undefined].
    The constructor is called outside any [try]. *)
Definition scanned_source (parsed : ParsedSegment) : completion (option string) :=
  if truthy (ps_regex parsed) then
    match RegExp_new (unwrap (ps_regex parsed)) "" with
    | Some re => Normal (Some (RegExp_toString re))
    | None => Throw (SyntaxError (unwrap (ps_regex parsed)))
    end
  else Normal None.

(** [for (const param of node.paramChildren) { if (...) { paramNode =
    param.node; break; } }]; the conjunction is evaluated from left to
    right and stops at the first false operand. *)
Fixpoint scan_params (parsed : ParsedSegment) (l : list Param) (i : nat) : scan :=
  match l with
  | [] => Absent
  | param :: l' =>
      if (Some (p_name param) === ps_name parsed)
         && (p_type param === ps_type parsed) then
        match scanned_source parsed with
        | Throw e => ScanThrow e
        | Normal source =>
            if ((RegExp_toString <$> p_regex param) === source)
               && (p_suffix param === ps_suffix parsed)
            then Reuse i (p_node param)
            else scan_params parsed l' (S i)
        end
      else scan_params parsed l' (S i)
  end.

(** The pattern compiled for a new parameter child,
    [new RegExp(`^${parsed.regex}$`, this.options.ignoreCase ? 'i' : '')]
    inside the [try]. *)
Definition compile_regex (o : Options) (parsed : ParsedSegment)
    : completion (option RegExp) :=
  if truthy (ps_regex parsed) then
    match RegExp_new ("^" +:+ unwrap (ps_regex parsed) +:+ "$")
                     (if ignoreCase o then "i" else "") with
    | Some regexObj => Normal (Some regexObj)
    | None =>
        Throw (InvalidRegexInRoute
                 ("Invalid regex in route: " +:+ unwrap (ps_regex parsed)))
    end
  else Normal None.

(** [_addRoute(node, segments, index, handler)].  The source mutates
    [node]; the result is the node after the call and how the call
    ended.  A child is stored in its parent before the recursive call, so
    the children created on the way stay when the call throws.  In the
    static case [get] follows [set] and always finds the child; a [switch]
    without a matching [case] does nothing. *)
Equations? _addRoute (o : Options) (node : Node) (segments : list string)
    (index : nat) (handler : Handler) : Node * completion unit
    by wf (length segments - index) lt :=
_addRoute o node segments index handler with le_lt_dec (length segments) index := {
  | left _ => (addHandler node handler, Normal tt)
  | right _ =>
      let segment := nth index segments "" in
      let parsed := parseSegment segment in
      match ps_type parsed with
      | static =>
          let staticValue := unwrap (ps_value parsed) in
          let children :=
            if negb (Map_has staticValue (staticChildren node))
            then Map_set staticValue newTrieNode (staticChildren node)
            else staticChildren node in
          match Map_get staticValue children with
          | Some child =>
              let '(child', c) := _addRoute o child segments (index + 1) handler in
              (set_staticChildren node (Map_set staticValue child' children), c)
          | None => (set_staticChildren node children, Normal tt)
          end
      | named | named_regex | named_suffix | named_regex_suffix =>
          match scan_params parsed (paramChildren node) 0 with
          | ScanThrow e => (node, Throw e)
          | Reuse i paramNode =>
              let '(paramNode', c) :=
                _addRoute o paramNode segments (index + 1) handler in
              (set_paramChildren node
                 (alter (fun param => set_p_node param paramNode') i
                        (paramChildren node)), c)
          | Absent =>
              match compile_regex o parsed with
              | Throw e => (node, Throw e)
              | Normal regexObj =>
                  let '(paramNode', c) :=
                    _addRoute o newTrieNode segments (index + 1) handler in
                  (set_paramChildren node
                     (paramChildren node
                      ++ [mkParamChild (ps_type parsed) (unwrap (ps_name parsed))
                                       regexObj (ps_suffix parsed) paramNode']),
                   c)
              end
          end
      | catch_all =>
          let catchAll :=
            match catchAllChild node with
            | Some existing => existing
            | None => (unwrap (ps_name parsed), newTrieNode)
            end in
          let '(child', c) :=
            _addRoute o (snd catchAll) segments (index + 1) handler in
          (set_catchAllChild node (Some (fst catchAll, child')), c)
      | wildcard =>
          let wildcardNode :=
            match wildcardChild node with
            | Some existing => existing
            | None => newTrieNode
            end in
          let '(child', c) :=
            _addRoute o wildcardNode segments (length segments) handler in
          (set_wildcardChild node (Some child'), c)
      | literal_colon => (node, Normal tt)
      end
}.
Proof. all: lia. Qed.

(** *** The matcher *)

(** The value a parameter child binds to the current segment, the
    [switch (param.type)] of [_match]; [None] is [null]. *)
Definition bind_param (param : Param) (currentSegment : string) : option string :=
  let segmentToMatch := currentSegment in
  match p_type param with
  | named => Some currentSegment
  | named_regex =>
      match p_regex param with
      | Some re =>
          if RegExp_test re segmentToMatch then Some currentSegment else None
      | None => None
      end
  | named_suffix =>
      if truthy (p_suffix param)
         && JsString.endsWith segmentToMatch (unwrap (p_suffix param))
      then Some (JsString.slice segmentToMatch 0
                   (- Z.of_nat (String.length (unwrap (p_suffix param)))))
      else None
  | named_regex_suffix =>
      if truthy (p_suffix param)
         && JsString.endsWith segmentToMatch (unwrap (p_suffix param))
      then
        let value := JsString.slice segmentToMatch 0
                       (- Z.of_nat (String.length (unwrap (p_suffix param)))) in
        match p_regex param with
        | Some re =>
            if RegExp_test re value
            then Some (JsString.slice currentSegment 0
                         (- Z.of_nat (String.length (unwrap (p_suffix param)))))
            else None
        | None => None
        end
      else None
  | _ => None
  end.

(** The result pushed for a catch-all child, when it has handlers. *)
Definition catchAll_result (catchAll : option (string * Node))
    (params : gmap string string) (value : string) : list Result :=
  match catchAll with
  | Some (name, child) =>
      let newParams := <[name := value]> params in
      if (0 <? length (handlers child))%nat
      then [mkMatchResult newParams (handlers child)]
      else []
  | None => []
  end.

(** [_match(node, segments, index, params)]; the recursion descends into
    the children of [node]. *)
Fixpoint _match (node : Node) (segments : list string) (index : nat)
    (params : gmap string string) {struct node} : list Result :=
  match node with
  | mkTrieNode statics parameters catchAll wildcardNode own =>
      if (length segments <=? index)%nat then
        (if (0 <? length own)%nat then [mkMatchResult params own] else [])
        ++ catchAll_result catchAll params ""
      else
        let currentSegment := nth index segments "" in
        (* 1. Check static children *)
        (fix get (m : list (string * Node)) : list Result :=
           match m with
           | [] => []
           | (key, childNode) :: m' =>
               if String.eqb key currentSegment
               then _match childNode segments (index + 1) params
               else get m'
           end) statics
        (* 2. Check parameter children *)
        ++ (fix each (l : list Param) : list Result :=
              match l with
              | [] => []
              | param :: l' =>
                  match bind_param param currentSegment with
                  | Some paramValue =>
                      let newParams := <[p_name param := paramValue]> params in
                      _match (p_node param) segments (index + 1) newParams
                  | None => []
                  end ++ each l'
              end) parameters
        (* 3. Check catch-all parameter *)
        ++ catchAll_result catchAll params
             (JsString.join "/" (drop index segments))
        (* 4. Check wildcard pattern *)
        ++ match wildcardNode with
           | Some w =>
               if (index <? length segments)%nat
               then _match w segments (length segments) params
               else []
           | None => []
           end
  end.

(** *** The object [RouteTrie] *)

Record RouteTrie : Type := mkRouteTrie {
  root : Node;
  options : Options;
  routes : list (string * list Handler)
}.

(** A method of [RouteTrie]: from the fields of [this] to how the call
    ends and the fields it leaves. *)
Definition M (A : Type) : Type := RouteTrie -> completion A * RouteTrie.

#[global] Instance M_ret : MRet M := fun A a this => (Normal a, this).

#[global] Instance M_bind : MBind M := fun A B f m this =>
  match m this with
  | (Normal a, this') => f a this'
  | (Throw e, this') => (Throw e, this')
  end.

(** Reading a field of [this]. *)
Definition read {A : Type} (field : RouteTrie -> A) : M A :=
  fun this => (Normal (field this), this).

(** Writing [this.root] and [this.routes]; [options] is assigned by the
    constructor only. *)
Definition write_root (r : Node) : M unit :=
  fun this => (Normal tt, mkRouteTrie r (options this) (routes this)).

Definition write_routes (rs : list (string * list Handler)) : M unit :=
  fun this => (Normal tt, mkRouteTrie (root this) (options this) rs).

(** Ending as a callee ended. *)
Definition complete {A : Type} (c : completion A) : M A :=
  fun this => (c, this).

(** [constructor(options: RouteTrieOptions = {})] *)
Definition new_RouteTrie (given : RouteTrieOptions) : RouteTrie :=
  mkRouteTrie newTrieNode
    (mkOptions (default true (opt_ignoreCase given))
               (default true (opt_fixedPath given))
               (default true (opt_trailingSlash given)))
    [].

(** [/\/+/], with [^] before it, with [$] after it. *)
Definition slashes : Regex.regex := Regex.Plus (Regex.Chr "/").
Definition leading_slashes : Regex.regex := seq [Regex.Bol; slashes].
Definition trailing_slashes : Regex.regex := seq [slashes; Regex.Eol].

Definition normalizeRoutePath (path : string) : M string :=
  o ← read options;
  let normalized := path in
  (* Always trim leading/trailing slashes for consistent storage *)
  let normalized :=
    Regex.replace trailing_slashes
      (Regex.replace leading_slashes normalized "") "" in
  (* Apply case normalization if enabled *)
  let normalized :=
    if ignoreCase o then JsString.toLowerCase normalized else normalized in
  (* Apply fixed path normalization if enabled *)
  let normalized :=
    if fixedPath o then Regex.replace_all slashes normalized "/"
    else normalized in
  mret normalized.

Definition addRoute (path : string) (handler : Handler) : M unit :=
  normalizedPath ← normalizeRoutePath path;
  known ← read routes;
  (if negb (Map_has normalizedPath known)
   then write_routes (Map_set normalizedPath [] known)
   else mret tt);;
  known ← read routes;
  write_routes
    (Map_set normalizedPath
       (default [] (Map_get normalizedPath known) ++ [handler]) known);;
  let segments :=
    List.filter (fun segment => negb (String.eqb segment ""))
                (JsString.split "/" normalizedPath) in
  o ← read options;
  r ← read root;
  let '(r', c) := _addRoute o r segments 0 handler in
  write_root r';;
  complete c.

(** [while (i < segments.length && segments[i] === '') i++;] the loop
    runs at most [segments.length] times. *)
Fixpoint skip_leading (budget : nat) (segments : list string) (i : nat) : nat :=
  match budget with
  | O => i
  | S b =>
      if (i <? length segments)%nat && String.eqb (nth i segments "") ""
      then skip_leading b segments (i + 1)
      else i
  end.

(** [while (k >= i && segments[k] === '') k--;] where [k] can reach
    [-1]. *)
Fixpoint skip_trailing (budget : nat) (segments : list string) (i : nat)
    (k : Z) : Z :=
  match budget with
  | O => k
  | S b =>
      if (Z.of_nat i <=? k)%Z && String.eqb (nth (Z.to_nat k) segments "") ""
      then skip_trailing b segments i (k - 1)
      else k
  end.

(** [for (let m = i; m < contentEnd; m++) { ... filtered.push(segments[m]) }];
    [count] is the number of rounds left, [contentEnd - m]. *)
Fixpoint copy_content (count : nat) (segments : list string) (m : nat)
    (useFixedPath : bool) (filtered : list string) : list string :=
  match count with
  | O => filtered
  | S n =>
      copy_content n segments (m + 1) useFixedPath
        (if negb (String.eqb (nth m segments "") "") || negb useFixedPath
         then filtered ++ [nth m segments ""]
         else filtered)
  end.

(** The list [filtered] that [_matchPath] hands to [_match]. *)
Definition filtered_segments (o : Options) (path : string)
    (useFixedPath useTrailingSlash : bool) : list string :=
  let normalized := path in
  (* Handle fixed path normalization *)
  let normalized :=
    if useFixedPath then Regex.replace_all slashes normalized "/"
    else normalized in
  (* Handle trailing slash normalization *)
  let normalized :=
    if useTrailingSlash then Regex.replace trailing_slashes normalized ""
    else normalized in
  (* Apply case normalization if enabled *)
  let normalized :=
    if ignoreCase o then JsString.toLowerCase normalized else normalized in
  (* Split into segments *)
  let segments := JsString.split "/" normalized in
  let i := skip_leading (length segments) segments 0 in
  let k := skip_trailing (length segments) segments i
                         (Z.of_nat (length segments) - 1) in
  let contentEnd := Z.to_nat (k + 1) in
  let trailingEmptiesCount := (length segments - contentEnd)%nat in
  let filtered := copy_content (contentEnd - i) segments i useFixedPath [] in
  let addTrailing :=
    negb useTrailingSlash && (0 <? trailingEmptiesCount)%nat in
  if addTrailing then
    let numToAdd := if useFixedPath then 1%nat else trailingEmptiesCount in
    filtered ++ replicate numToAdd ""
  else filtered.

Definition _matchPath (path : string) (useFixedPath useTrailingSlash : bool)
    : M (list Result) :=
  o ← read options;
  let filtered := filtered_segments o path useFixedPath useTrailingSlash in
  r ← read root;
  mret (_match r filtered 0 ∅).

(** [match(path)] *)
Definition match_ (path : string) : M (list Result) :=
  (* First try: exact match with original path structure *)
  exactMatch ← _matchPath path false false;
  if (0 <? length exactMatch)%nat then mret exactMatch
  else
    o ← read options;
    (* Second try: fixed path normalization (only if enabled) *)
    fixedMatch ← (if fixedPath o then _matchPath path true false else mret []);
    if fixedPath o && (0 <? length fixedMatch)%nat then mret fixedMatch
    else
      (* Third try: trailing slash handling (only if enabled) *)
      trailingMatch ← (if trailingSlash o
                       then _matchPath path (fixedPath o) true
                       else mret []);
      if trailingSlash o && (0 <? length trailingMatch)%nat
      then mret trailingMatch
      else mret [].

End Trie.

(** ** Vocabulary of the properties *)

Section Vocabulary.
Context {host : RegExpHost} {Handler : Type}.

Abbreviation Node := (TrieNode RegExp Handler).
Abbreviation Param := (ParamChild RegExp Node).
Abbreviation Result := (MatchResult Handler).

(** The state that a method leaves and how it ends. *)
Definition state_after {A : Type} (m : M A) (this : RouteTrie)
    : RouteTrie (Handler := Handler) :=
  snd (m this).

Definition outcome {A : Type} (m : M (Handler := Handler) A)
    (this : RouteTrie) : completion A :=
  fst (m this).

(** What one round of the loop over [paramChildren] adds to the results
    of [_match]; [rec] is the recursive call. *)
Definition param_results (rec : Node -> gmap string string -> list Result)
    (currentSegment : string) (params : gmap string string)
    (param : Param) : list Result :=
  match bind_param param currentSegment with
  | Some paramValue => rec (p_node param) (<[p_name param := paramValue]> params)
  | None => []
  end.

(** One normalization variant tried by [match]: the results of
    [_matchPath(path, useFixedPath, useTrailingSlash)]. *)
Definition attempt (t : RouteTrie) (path : string)
    (useFixedPath useTrailingSlash : bool) : list Result :=
  _match (root t)
         (filtered_segments (options t) path useFixedPath useTrailingSlash)
         0 ∅.

(** The first list that is not empty, or the empty list. *)
Fixpoint first_nonempty {A : Type} (ls : list (list A)) : list A :=
  match ls with
  | [] => []
  | l :: ls' => if (0 <? length l)%nat then l else first_nonempty ls'
  end.

(** The variants in the order in which [match] tries them, each as the
    pair of arguments [(useFixedPath, useTrailingSlash)]. *)
Definition variants (o : Options) : list (bool * bool) :=
  [(false, false)]
  ++ (if fixedPath o then [(true, false)] else [])
  ++ (if trailingSlash o then [(fixedPath o, true)] else []).

(** The states of a [RouteTrie] object: the constructor builds one, and
    a call of [addRoute] leaves one, whether it returns or throws. *)
Inductive reachable : RouteTrie (Handler := Handler) -> Prop :=
| reachable_new (given : RouteTrieOptions) :
    reachable (new_RouteTrie given)
| reachable_addRoute (t : RouteTrie) (path : string) (handler : Handler) :
    reachable t -> reachable (state_after (addRoute path handler) t).

(** The four kinds that [_addRoute] stores in [paramChildren]. *)
Definition is_param_type (ty : SegmentType) : bool :=
  match ty with
  | named | named_regex | named_suffix | named_regex_suffix => true
  | _ => false
  end.






(** The segments of a pattern that [_addRoute] classifies: those up to the
    first wildcard segment, which ends the walk. *)
Fixpoint reached_segments (segments : list string) : list string :=
  match segments with
  | [] => []
  | segment :: rest =>
      if ps_type (parseSegment segment) === wildcard then [segment]
      else segment :: reached_segments rest
  end.





(** A pattern with a catch-all segment that is reached and is not the
    last segment. *)
Fixpoint catch_all_inside (segments : list string) : bool :=
  match segments with
  | [] => false
  | segment :: rest =>
      match ps_type (parseSegment segment) with
      | catch_all => negb (bool_decide (rest = []))
      | wildcard => false
      | _ => catch_all_inside rest
      end
  end.

(** Two nodes on which [_match] returns the same results, whatever the
    segments, the index and the parameters. *)
Definition match_alike (node node' : Node) : Prop :=
  forall segs index params,
    _match node' segs index params = _match node segs index params.

(** The segments that [addRoute] hands to [_addRoute]. *)
Definition route_segments (o : Options) (path : string) : list string :=
  let trimmed :=
    Regex.replace trailing_slashes (Regex.replace leading_slashes path "") "" in
  let folded := if ignoreCase o then JsString.toLowerCase trimmed else trimmed in
  let collapsed :=
    if fixedPath o then Regex.replace_all slashes folded "/" else folded in
  List.filter (fun segment => negb (String.eqb segment ""))
              (JsString.split "/" collapsed).

End Vocabulary.

(** The three options set to [false], as the strict router of the source
    passes them, and the three options as given. *)
Definition strict_options : RouteTrieOptions :=
  mkRouteTrieOptions (Some false) (Some false) (Some false).

Definition given_options (i f t : bool) : RouteTrieOptions :=
  mkRouteTrieOptions (Some i) (Some f) (Some t).

(** ** Vocabulary of the further properties *)

(** Whether a code unit occurs in a string. *)
Fixpoint contains (c : ascii) (s : string) : bool :=
  match s with
  | EmptyString => false
  | String d t => Ascii.eqb d c || contains c t
  end.

(** [t] is what is left of [s] after some code units. *)
Inductive tail_of : string -> string -> Prop :=
| tail_here (s : string) : tail_of s s
| tail_later (c : ascii) (t s : string) : tail_of t s -> tail_of t (String c s).

(** A matcher that hands to its continuation a state further in the
    input, when it succeeds. *)
Definition forward (m : Regex.matcher) : Prop :=
  forall x c z, m x c = Some z ->
    exists y, c y = Some z /\ tail_of (Regex.rest y) (Regex.rest x).

(** A matcher that succeeds only on an input that holds [ch]. *)
Definition needs (ch : ascii) (m : Regex.matcher) : Prop :=
  forall x c z, m x c = Some z -> contains ch (Regex.rest x) = true.

(** What a segment of a pattern does with a segment of a path, for the
    kinds without a constraint: [None] when it refuses it, [Some None]
    when it accepts it, [Some (Some (name, value))] when it binds it. *)
Definition segment_binding (segment value : string)
    : option (option (string * string)) :=
  let parsed := parseSegment segment in
  match ps_type parsed with
  | static =>
      if String.eqb (unwrap (ps_value parsed)) value then Some None else None
  | named => Some (Some (unwrap (ps_name parsed), value))
  | named_suffix =>
      if truthy (ps_suffix parsed)
         && JsString.endsWith value (unwrap (ps_suffix parsed))
      then Some (Some (unwrap (ps_name parsed),
                       JsString.slice value 0
                         (- Z.of_nat (String.length (unwrap (ps_suffix parsed))))))
      else None
  | _ => None
  end.

(** The bindings of a pattern of static, named, suffix and wildcard
    segments on the segments of a path, when the pattern accepts them; a
    wildcard accepts what is left when something is left. *)
Fixpoint path_bindings (pattern values : list string)
    (params : gmap string string) : option (gmap string string) :=
  match pattern with
  | [] => match values with [] => Some params | _ :: _ => None end
  | segment :: pattern' =>
      if ps_type (parseSegment segment) === wildcard then
        match values with [] => None | _ :: _ => Some params end
      else
        match values with
        | [] => None
        | value :: values' =>
            match segment_binding segment value with
            | Some None => path_bindings pattern' values' params
            | Some (Some (name, bound)) =>
                path_bindings pattern' values' (<[name := bound]> params)
            | None => None
            end
        end
  end.

(** A segment of one of the kinds that [path_bindings] reads. *)
Definition plain_segment (segment : string) : bool :=
  match ps_type (parseSegment segment) with
  | static | named | named_suffix | wildcard => true
  | _ => false
  end.

(** What a single route answers: one result with the bindings and the
    handler, or nothing. *)
Definition single_answer {Handler : Type} (pattern values : list string)
    (params : gmap string string) (h : Handler) : list (MatchResult Handler) :=
  match path_bindings pattern values params with
  | Some bound => [mkMatchResult bound [h]]
  | None => []
  end.

Section Registry.
Context {host : RegExpHost} {Handler : Type}.
Abbreviation Node := (TrieNode RegExp Handler).
Abbreviation Result := (MatchResult Handler).

(** A result that binds what [r] binds and calls the handlers of [r]
    first. *)
Definition extends (r r' : Result) : Prop :=
  params r' = params r /\ exists more, matched r' = matched r ++ more.

(** Every result of [_match] on [node] has a result on [node'] that
    extends it. *)
Definition keeps (node node' : Node) : Prop :=
  forall values index params r,
    In r (_match node values index params) ->
    exists r', In r' (_match node' values index params) /\ extends r r'.

(** The key under which [addRoute] files a handler in [this.routes]. *)
Definition route_key (o : Options) (path : string) : string :=
  let trimmed :=
    Regex.replace trailing_slashes (Regex.replace leading_slashes path "") "" in
  let folded := if ignoreCase o then JsString.toLowerCase trimmed else trimmed in
  if fixedPath o then Regex.replace_all slashes folded "/" else folded.

End Registry.

(** The number of slashes at the start of a string, the string without
    them, and whether a string holds nothing else. *)
Fixpoint slash_run (s : string) : nat :=
  match s with
  | String c t => if Ascii.eqb c "/" then S (slash_run t) else O
  | EmptyString => O
  end.

Fixpoint without_leading_slashes (s : string) : string :=
  match s with
  | String c t => if Ascii.eqb c "/" then without_leading_slashes t else s
  | EmptyString => EmptyString
  end.

Fixpoint all_slashes (s : string) : bool :=
  match s with
  | String c t => Ascii.eqb c "/" && all_slashes t
  | EmptyString => true
  end.

(** A string without the slashes at its end. *)
Fixpoint without_trailing_slashes (s : string) : string :=
  match s with
  | String c t =>
      if all_slashes s then EmptyString
      else String c (without_trailing_slashes t)
  | EmptyString => EmptyString
  end.

(** A string in which a slash followed by a slash is left out. *)
Fixpoint collapse_slashes (s : string) : string :=
  match s with
  | String c t =>
      if Ascii.eqb c "/" && JsString.first_is t "/" then collapse_slashes t
      else String c (collapse_slashes t)
  | EmptyString => EmptyString
  end.

(** What is left of a string from an index on. *)
Definition string_from (start : nat) (s : string) : string :=
  substring start (String.length s - start) s.

(** The index of the first slash. *)
Fixpoint find_slash (s : string) : option nat :=
  match s with
  | String c t => if Ascii.eqb c "/" then Some O else S <$> find_slash t
  | EmptyString => None
  end.

(** [segment !== ''] *)
Definition nonempty (segment : string) : bool := negb (String.eqb segment "").

(** A list of segments without the empty ones at its start. *)
Fixpoint drop_empty (segments : list string) : list string :=
  match segments with
  | segment :: rest =>
      if String.eqb segment "" then drop_empty rest else segments
  | [] => []
  end.

(** The case folding of [normalizeRoutePath] and [_matchPath]. *)
Definition fold_case (o : Options) (s : string) : string :=
  if ignoreCase o then JsString.toLowerCase s else s.

(** A list of segments without the empty ones at its end. *)
Fixpoint drop_empty_end (segments : list string) : list string :=
  match segments with
  | segment :: rest =>
      match drop_empty_end rest with
      | [] => if String.eqb segment "" then [] else [segment]
      | kept => segment :: kept
      end
  | [] => []
  end.

(** Whether the last segment of a list is empty. *)
Fixpoint ends_empty (segments : list string) : bool :=
  match segments with
  | [] => false
  | segment :: rest =>
      match rest with
      | [] => String.eqb segment ""
      | _ :: _ => ends_empty rest
      end
  end.

(** [normalizeForMatch] as the specification words it (4.3): the path is
    case-folded when [ignoreCase] is set and split on the separator; the
    tokens before the first token that is not empty and after the last
    one are the leading and the trailing empty tokens; the tokens in
    between are copied, without the empty ones when [useFixedPath] is
    set; when [useTrailingSlash] is not set and there were trailing
    empty tokens, one empty token is appended when [useFixedPath] is
    set, and as many as there were when it is not.  When every token is
    empty, all of them are leading ones. *)
Definition copied_tokens (tokens : list string)
    (useFixedPath useTrailingSlash : bool) : list string :=
  let from_first := drop_empty tokens in
  let interior := drop_empty_end from_first in
  let trailing := (length from_first - length interior)%nat in
  (if useFixedPath then List.filter nonempty interior else interior)
  ++ (if negb useTrailingSlash && (0 <? trailing)%nat
      then replicate (if useFixedPath then 1%nat else trailing) ""
      else []).

Definition normalizeForMatch (path : string)
    (ignoreCase useFixedPath useTrailingSlash : bool) : list string :=
  let folded := if ignoreCase then JsString.toLowerCase path else path in
  copied_tokens (JsString.split "/" folded) useFixedPath useTrailingSlash.

(** Two strings whose pieces start alike and are the same but for the
    empty ones. *)
Definition same_pieces (s s' : string) : Prop :=
  exists tok toks toks',
    JsString.split "/" s = tok :: toks /\ JsString.split "/" s' = tok :: toks'
    /\ List.filter nonempty toks' = List.filter nonempty toks.

(** * The function chain ([src/chain.ts]) and the server ([src/index.ts]) *)

(** ** Asynchronous functions

    An [async] function is followed until its promise settles; [W] is the
    state it works on and [E] the type of the values it can throw.  The
    result [None] stands for a promise that never settles.  One run is
    followed at a time: nothing else touches the state between two steps
    of a run. *)
Inductive settled (E A : Type) : Type :=
| Fulfilled (a : A)
| Rejected (e : E).
Arguments Fulfilled {E A} a.
Arguments Rejected {E A} e.

Definition Async (W E A : Type) : Type := W -> option (settled E A * W).

#[global] Instance Async_ret {W E : Type} : MRet (Async W E) :=
  fun A a w => Some (Fulfilled a, w).

(** [await]: the rest of the function runs when the promise is fulfilled;
    a rejection ends the function with the same rejection. *)
#[global] Instance Async_bind {W E : Type} : MBind (Async W E) :=
  fun A B f m w =>
    match m w with
    | Some (Fulfilled a, w') => f a w'
    | Some (Rejected e, w') => Some (Rejected e, w')
    | None => None
    end.

(** ** [createChain], the first version: [run] returns the accumulator *)

Module ChainV1.
Section Chain.
Context {W E V T : Type}.

(** An object with string keys, as the accumulator and the results are;
    [{ ...acc, ...result }] is [result ∪ acc]. *)
Definition Obj : Type := gmap string V.

Definition AsyncFn : Type := Obj -> T -> Async W E Obj.

(** The object that [createChain(fns)] returns: its two methods close
    over [fns]. *)
Record Chain : Type := createChain { fns : list AsyncFn }.

Definition add (c : Chain) (fn : AsyncFn) : Chain :=
  createChain (fns c ++ [fn]).

(** [for (const fn of fns) { ... }] from an accumulator on. *)
Fixpoint run_loop (l : list AsyncFn) (acc : Obj) (args : T) : Async W E Obj :=
  match l with
  | [] => mret acc
  | fn :: l' =>
      result ← fn acc args;
      run_loop l' (result ∪ acc) args
  end.

Definition run (c : Chain) (args : T) : Async W E Obj :=
  run_loop (fns c) ∅ args.

End Chain.
Arguments Chain : clear implicits.
Arguments AsyncFn : clear implicits.
End ChainV1.

(** ** [createChain], the second version: [run] returns a boolean *)

Module Chain.
Section Chain.
Context {W E V T : Type}.

Definition Obj : Type := gmap string V.

(** The result [None] is [undefined]. *)
Definition AsyncFn : Type := Obj -> T -> Async W E (option Obj).

Record Chain : Type := createChain { fns : list AsyncFn }.

Definition add (c : Chain) (fn : AsyncFn) : Chain :=
  createChain (fns c ++ [fn]).

Fixpoint run_loop (l : list AsyncFn) (acc : Obj) (args : T) : Async W E bool :=
  match l with
  | [] => mret true
  | fn :: l' =>
      result ← fn acc args;
      match result with
      | None => mret false
      | Some result => run_loop l' (result ∪ acc) args
      end
  end.

Definition run (c : Chain) (args : T) : Async W E bool :=
  run_loop (fns c) ∅ args.

End Chain.
Arguments Chain : clear implicits.
Arguments AsyncFn : clear implicits.
End Chain.

(** ** The server *)

Module Server.

(** The fields of the request that the server reads and writes. *)
Record Request : Type := mkRequest {
  r_method : option string;
  r_url : option string;
  r_params : option (gmap string string)
}.

(** The closure that [http] hands to [addRoute]: it has captured [method]
    and [routeConstructor], the latter a reference. *)
Record TrieHandler : Type := mkTrieHandler {
  h_method : option string;
  h_routeConstructor : nat
}.

Section Model.
Context {host : RegExpHost} {W E V : Type}.
Context (toUpperCase : string -> string) (thrown : Error -> E).

(** What a handler works on: the request, and the response with all the
    rest.  The two arguments [request] and [response] refer to parts of
    this state, so they carry nothing. *)
Definition St : Type := (Request * W)%type.

(** [(request, response, prev) => Promise<R> | R], for handlers that leave
    the routes as they are. *)
Definition RouteHandler : Type :=
  Chain.Obj (V := V) -> Async St E (option (Chain.Obj (V := V))).

Definition HttpChain : Type := Chain.Chain St E V unit.

(** [class HttpRouteConstructor]; objects of the class live in a store and
    are referred to by their index. *)
Record HttpRouteConstructor : Type := mkHttpRouteConstructor {
  chain : HttpChain;
  newConstructor : option nat
}.

Definition Store : Type := list HttpRouteConstructor.

(** [new HttpRouteConstructor(chain)] *)
Definition new_HttpRouteConstructor (given : option HttpChain) (store : Store)
    : Store * nat :=
  (store
   ++ [mkHttpRouteConstructor (default (Chain.createChain []) given) None],
   length store).

(** [async (prev, {request, response}) => handler(request, response, prev)] *)
Definition wrapper (handler : RouteHandler) : Chain.AsyncFn St E V unit :=
  fun prev _ => handler prev.

(** [this.add(handler)]; [fuel] bounds the depth of the calls from object
    to object, and [None] is a call that goes round without end. *)
Fixpoint add (fuel : nat) (this : nat) (handler : RouteHandler) (store : Store)
    : option (Store * nat) :=
  match fuel with
  | O => None
  | S fuel' =>
      match store !! this with
      | None => None
      | Some self =>
          match newConstructor self with
          | Some next => add fuel' next handler store
          | None =>
              let '(store', new) :=
                new_HttpRouteConstructor
                  (Some (Chain.add (chain self) (wrapper handler))) store in
              Some (<[this := mkHttpRouteConstructor (chain self) (Some new)]>
                      store',
                    new)
          end
      end
  end.

(** [this.run(request, response)] *)
Fixpoint run (fuel : nat) (this : nat) (store : Store) : Async St E bool :=
  match fuel with
  | O => fun _ => None
  | S fuel' =>
      match store !! this with
      | None => fun _ => None
      | Some self =>
          match newConstructor self with
          | Some next => run fuel' next store
          | None => Chain.run (chain self) tt
          end
      end
  end.

(** [class AnyServer]: the trie, and the store that holds the route
    constructors. *)
Record AnyServer : Type := mkAnyServer {
  trie : RouteTrie (Handler := TrieHandler);
  constructors : Store
}.

(** [constructor(options: AnyServerOptions = {})] *)
Definition new_AnyServer (routeTrie : option RouteTrieOptions) : AnyServer :=
  mkAnyServer
    (new_RouteTrie (default (mkRouteTrieOptions None None None) routeTrie))
    [].

(** [http(route, method?)] *)
Definition http (route : string) (method : option string) (this : AnyServer)
    : completion nat * AnyServer :=
  let '(store, routeConstructor) :=
    new_HttpRouteConstructor None (constructors this) in
  let '(c, trie') :=
    addRoute route (mkTrieHandler method routeConstructor) (trie this) in
  (match c with
   | Normal _ => Normal routeConstructor
   | Throw e => Throw e
   end,
   mkAnyServer trie' store).

(** The body of the closure that [http] registers; the result [None] is
    [undefined]. *)
Definition handle (store : Store) (h : TrieHandler)
    (params : gmap string string) : Async St E (option bool) :=
  fun '(request, w) =>
    if truthy (h_method h)
       && negb ((toUpperCase <$> r_method request)
                === Some (toUpperCase (unwrap (h_method h))))
    then Some (Fulfilled None, (request, w))
    else
      let req := mkRequest (r_method request) (r_url request) (Some params) in
      (next ← run (length store) (h_routeConstructor h) store;
       mret (Some next)) (req, w).

(** [for (let handler of match.handlers) { ... if (!next) return; }]; the
    result tells whether the loop ran to its end. *)
Fixpoint each_handler (store : Store) (hs : list TrieHandler)
    (params : gmap string string) : Async St E bool :=
  match hs with
  | [] => mret true
  | handler :: hs' =>
      next ← handle store handler params;
      if negb (default false next) then mret false
      else each_handler store hs' params
  end.

(** [for (let match of matched) { ... }] *)
Fixpoint each_match (store : Store) (ms : list (MatchResult TrieHandler))
    : Async St E unit :=
  match ms with
  | [] => mret tt
  | result :: ms' =>
      went_on ← each_handler store (matched result) (params result);
      if went_on : bool then each_match store ms' else mret tt
  end.

(** The listener that [listen] gives to [http.createServer]. *)
Definition listener (this : AnyServer) : Async St E unit :=
  fun st =>
    let request := fst st in
    match outcome (match_ (default "/" (r_url request))) (trie this) with
    | Normal matched => each_match (constructors this) matched st
    | Throw e => Some (Rejected (thrown e), st)
    end.

(** *** Vocabulary *)

(** A store in which every reference goes to a later object, whose chain
    is the chain of the referring object and one more function. *)
Definition linked (store : Store) : Prop :=
  forall this self next,
    store !! this = Some self ->
    newConstructor self = Some next ->
    (this < next)%nat
    /\ exists successor fn,
         store !! next = Some successor
         /\ Chain.fns (chain successor) = Chain.fns (chain self) ++ [fn].

(** The functions that a call of [run] on [this] goes through. *)
Fixpoint functions_of (fuel : nat) (this : nat) (store : Store)
    : option (list (Chain.AsyncFn St E V unit)) :=
  match fuel with
  | O => None
  | S fuel' =>
      match store !! this with
      | None => None
      | Some self =>
          match newConstructor self with
          | Some next => functions_of fuel' next store
          | None => Some (Chain.fns (chain self))
          end
      end
  end.

(** Following the references from [this] ends at the object [last]. *)
Inductive ends_at (store : Store) : nat -> nat -> Prop :=
| ends_here (this : nat) (self : HttpRouteConstructor) :
    store !! this = Some self ->
    newConstructor self = None ->
    ends_at store this this
| ends_next (this next last : nat) (self : HttpRouteConstructor) :
    store !! this = Some self ->
    newConstructor self = Some next ->
    ends_at store next last ->
    ends_at store this last.

(** The store after [add] has run on an object whose references end at
    [last]. *)
Definition store_after_add (store : Store) (last : nat)
    (self : HttpRouteConstructor) (handler : RouteHandler) : Store :=
  <[last := mkHttpRouteConstructor (chain self) (Some (length store))]>
    (store ++ [mkHttpRouteConstructor
                 (Chain.add (chain self) (wrapper handler)) None]).

End Model.
End Server.

(** [String.prototype.toUpperCase] on strings of ASCII code units. *)
Fixpoint ascii_toUpperCase (s : string) : string :=
  match s with
  | EmptyString => EmptyString
  | String c t =>
      String (if JsString.in_range 97 122 c
              then ascii_of_nat (JsString.code c - 32) else c)
             (ascii_toUpperCase t)
  end.

(** A function of the first version of the chain as a function of the
    second: it returns an object, never [undefined]. *)
Definition returning {W E V T : Type} (fn : ChainV1.AsyncFn W E V T)
    : Chain.AsyncFn W E V T :=
  fun acc args => result ← fn acc args; mret (Some result).

(** * Properties *)

Ltac case_if :=
  match goal with
  | |- context [if ?b then _ else _] => destruct b eqn:?
  end.

(** ** Unfolding the two recursions *)

Section Unfolding.
Context {host : RegExpHost} {Handler : Type}.

Abbreviation Node := (TrieNode RegExp Handler).

Lemma _match_unfold (node : Node) segments index params :
  _match node segments index params =
    if (length segments <=? index)%nat then
      (if (0 <? length (handlers node))%nat
       then [mkMatchResult params (handlers node)] else [])
      ++ catchAll_result (catchAllChild node) params ""
    else
      match Map_get (nth index segments "") (staticChildren node) with
      | Some childNode => _match childNode segments (index + 1) params
      | None => []
      end
      ++ flat_map
           (param_results (fun n ps => _match n segments (index + 1) ps)
                          (nth index segments "") params)
           (paramChildren node)
      ++ catchAll_result (catchAllChild node) params
           (JsString.join "/" (drop index segments))
      ++ match wildcardChild node with
         | Some w =>
             if (index <? length segments)%nat
             then _match w segments (length segments) params
             else []
         | None => []
         end.
Proof.
  destruct node as [statics parameters catchAll wildcardNode own]; simpl.
  destruct (length segments <=? index)%nat; [reflexivity|].
  f_equal.
  induction statics as [|[key child] statics IH]; simpl; [reflexivity|].
  destruct (String.eqb key (nth index segments "")); [reflexivity|apply IH].
Qed.

Lemma _addRoute_done o (node : Node) segments index (handler : Handler) :
  (length segments <= index)%nat ->
  _addRoute o node segments index handler = (addHandler node handler, Normal tt).
Proof.
  intros Hle. rewrite _addRoute_equation_1.
  destruct (le_lt_dec (length segments) index); [reflexivity|lia].
Qed.

Lemma _addRoute_step o (node : Node) segments index (handler : Handler) :
  (index < length segments)%nat ->
  _addRoute o node segments index handler =
    let parsed := parseSegment (nth index segments "") in
    match ps_type parsed with
    | static =>
        let staticValue := unwrap (ps_value parsed) in
        let children :=
          if negb (Map_has staticValue (staticChildren node))
          then Map_set staticValue newTrieNode (staticChildren node)
          else staticChildren node in
        match Map_get staticValue children with
        | Some child =>
            let '(child', c) := _addRoute o child segments (index + 1) handler in
            (set_staticChildren node (Map_set staticValue child' children), c)
        | None => (set_staticChildren node children, Normal tt)
        end
    | named | named_regex | named_suffix | named_regex_suffix =>
        match scan_params parsed (paramChildren node) 0 with
        | ScanThrow e => (node, Throw e)
        | Reuse i paramNode =>
            let '(paramNode', c) :=
              _addRoute o paramNode segments (index + 1) handler in
            (set_paramChildren node
               (alter (fun param => set_p_node param paramNode') i
                      (paramChildren node)), c)
        | Absent =>
            match compile_regex o parsed with
            | Throw e => (node, Throw e)
            | Normal regexObj =>
                let '(paramNode', c) :=
                  _addRoute o newTrieNode segments (index + 1) handler in
                (set_paramChildren node
                   (paramChildren node
                    ++ [mkParamChild (ps_type parsed) (unwrap (ps_name parsed))
                                     regexObj (ps_suffix parsed) paramNode']),
                 c)
            end
        end
    | catch_all =>
        let catchAll :=
          match catchAllChild node with
          | Some existing => existing
          | None => (unwrap (ps_name parsed), newTrieNode)
          end in
        let '(child', c) :=
          _addRoute o (snd catchAll) segments (index + 1) handler in
        (set_catchAllChild node (Some (fst catchAll, child')), c)
    | wildcard =>
        let wildcardNode :=
          match wildcardChild node with
          | Some existing => existing
          | None => newTrieNode
          end in
        let '(child', c) :=
          _addRoute o wildcardNode segments (length segments) handler in
        (set_wildcardChild node (Some child'), c)
    | literal_colon => (node, Normal tt)
    end.
Proof.
  intros Hlt. rewrite _addRoute_equation_1.
  destruct (le_lt_dec (length segments) index); [lia|reflexivity].
Qed.

(** What [addRoute] leaves in [this.root] and [this.options], and how it
    ends. *)
Lemma addRoute_root (t : RouteTrie (Handler := Handler)) path h :
  root (state_after (addRoute path h) t)
  = fst (_addRoute (options t) (root t) (route_segments (options t) path) 0 h).
Proof.
  unfold state_after, addRoute, normalizeRoutePath, route_segments.
  unfold mbind, M_bind, mret, M_ret, read, write_routes, write_root, complete.
  cbn [fst snd root options routes].
  destruct (negb _); cbn [fst snd root options routes];
  destruct (_addRoute _ _ _ _ _); reflexivity.
Qed.

Lemma addRoute_options (t : RouteTrie (Handler := Handler)) path h :
  options (state_after (addRoute path h) t) = options t.
Proof.
  unfold state_after, addRoute, normalizeRoutePath, route_segments.
  unfold mbind, M_bind, mret, M_ret, read, write_routes, write_root, complete.
  cbn [fst snd root options routes].
  destruct (negb _); cbn [fst snd root options routes];
  destruct (_addRoute _ _ _ _ _); reflexivity.
Qed.

Lemma addRoute_outcome (t : RouteTrie (Handler := Handler)) path h :
  outcome (addRoute path h) t
  = snd (_addRoute (options t) (root t) (route_segments (options t) path) 0 h).
Proof.
  unfold outcome, addRoute, normalizeRoutePath, route_segments.
  unfold mbind, M_bind, mret, M_ret, read, write_routes, write_root, complete.
  cbn [fst snd root options routes].
  destruct (negb _); cbn [fst snd root options routes];
  destruct (_addRoute _ _ _ _ _); reflexivity.
Qed.

(** [match] written as a choice among the variants; it leaves [this] as
    it was. *)
Lemma match_unfold (t : RouteTrie (Handler := Handler)) (path : string) :
  match_ path t =
    (Normal (first_nonempty
               (List.map (fun v => attempt t path (fst v) (snd v))
                         (variants (options t)))), t).
Proof.
  unfold match_, _matchPath, variants, attempt.
  unfold mbind, M_bind, mret, M_ret, read. simpl.
  repeat (case_if; simpl; try reflexivity; try congruence).
Qed.

(** While segments remain, [_addRoute] leaves the handlers of [node]
    alone. *)
Lemma _addRoute_handlers o (node : Node) segments index (h : Handler) :
  (index < length segments)%nat ->
  handlers (fst (_addRoute o node segments index h)) = handlers node.
Proof.
  intros Hlt. rewrite _addRoute_step by assumption. cbv zeta.
  repeat (match goal with
          | |- context [match ?x with _ => _ end] => destruct x eqn:?
          end; try reflexivity).
Qed.

Lemma compile_regex_some o parsed (source : string) (re : RegExp) :
  ps_regex parsed = Some source ->
  source <> "" ->
  RegExp_new ("^" +:+ source +:+ "$") (if ignoreCase o then "i" else "") = Some re ->
  compile_regex o parsed = Normal (Some re).
Proof.
  intros Hr Hs Hnew. unfold compile_regex, truthy, unwrap. rewrite Hr.
  destruct (String.eqb_spec source ""); [contradiction|].
  change (default "" (Some source)) with source.
  cbn [negb]. rewrite Hnew. reflexivity.
Qed.

(** A route of one parameter segment that no child of [node] stands for:
    a child is appended, and it holds the handler. *)
Lemma _addRoute_new_param o (node : Node) segment (h : Handler) parsed regexObj :
  parseSegment segment = parsed ->
  is_param_type (ps_type parsed) = true ->
  scan_params parsed (paramChildren node) 0 = Absent ->
  compile_regex o parsed = Normal regexObj ->
  _addRoute o node [segment] 0 h
  = (set_paramChildren node
       (paramChildren node
        ++ [mkParamChild (ps_type parsed) (unwrap (ps_name parsed)) regexObj
                         (ps_suffix parsed) (addHandler newTrieNode h)]),
     Normal tt).
Proof.
  intros Hp Hty Hscan Hc.
  rewrite _addRoute_step by (simpl; lia).
  cbn [nth]. rewrite Hp. cbv zeta.
  rewrite Hscan, Hc, _addRoute_done by (simpl; lia).
  destruct (ps_type parsed); try discriminate; reflexivity.
Qed.

(** *** Shapes of nodes on which [_match] is short *)

Lemma nonempty_length {A : Type} (l : list A) :
  l <> [] -> (0 <? length l)%nat = true.
Proof. destruct l; [congruence|reflexivity]. Qed.

Lemma first_nonempty_head {A : Type} (l : list A) ls :
  l <> [] -> first_nonempty (l :: ls) = l.
Proof. intros H. simpl. rewrite nonempty_length by assumption. reflexivity. Qed.

Lemma first_nonempty_nil {A : Type} (ls : list (list A)) :
  List.Forall (fun l => l = []) ls -> first_nonempty ls = [].
Proof.
  induction 1 as [|l ls Hl _ IH]; simpl; [reflexivity|].
  rewrite Hl. simpl. exact IH.
Qed.

Lemma catchAll_result_some name (child : Node) params value :
  handlers child <> [] ->
  catchAll_result (Some (name, child)) params value
  = [mkMatchResult (<[name := value]> params) (handlers child)].
Proof.
  intros H. unfold catchAll_result.
  rewrite nonempty_length by assumption. reflexivity.
Qed.

Lemma catchAll_result_handlers (name : string) (child child' : Node) params value :
  handlers child' = handlers child ->
  catchAll_result (Some (name, child')) params value
  = catchAll_result (Some (name, child)) params value.
Proof. intros E. unfold catchAll_result. rewrite E. reflexivity. Qed.

(** [_match] looks at a catch-all child through [catchAll_result] only. *)
Lemma _match_catchAll_irrelevant (node : Node) ca segs index params :
  (forall value, catchAll_result ca params value
                 = catchAll_result (catchAllChild node) params value) ->
  _match (set_catchAllChild node ca) segs index params
  = _match node segs index params.
Proof.
  intros E. rewrite !_match_unfold.
  cbn [set_catchAllChild staticChildren paramChildren catchAllChild
       wildcardChild handlers].
  rewrite !E. reflexivity.
Qed.

Lemma _match_params_only (ps : list (ParamChild RegExp Node)) segs index params :
  (index < length segs)%nat ->
  _match (mkTrieNode [] ps None None []) segs index params
  = flat_map (param_results (fun n q => _match n segs (index + 1) q)
                            (nth index segs "") params) ps.
Proof.
  intros H. rewrite _match_unfold.
  cbn [staticChildren paramChildren catchAllChild wildcardChild handlers
       Map_get catchAll_result app].
  destruct (Nat.leb_spec (length segs) index); [lia|].
  rewrite app_nil_r. reflexivity.
Qed.

Lemma _match_leaf (hs : list Handler) segs index params :
  (length segs <= index)%nat ->
  _match (mkTrieNode [] [] None None hs : Node) segs index params
  = if (0 <? length hs)%nat then [mkMatchResult params hs] else [].
Proof.
  intros H. rewrite _match_unfold.
  cbn [staticChildren paramChildren catchAllChild wildcardChild handlers
       catchAll_result].
  destruct (Nat.leb_spec (length segs) index); [|lia].
  rewrite app_nil_r. reflexivity.
Qed.

Lemma _match_only_catch_all name (child : Node) segs params :
  handlers child <> [] ->
  _match (mkTrieNode [] [] (Some (name, child)) None []) segs 0 params
  = [mkMatchResult (<[name := JsString.join "/" segs]> params) (handlers child)].
Proof.
  intros H. rewrite _match_unfold.
  cbn [staticChildren paramChildren catchAllChild wildcardChild handlers].
  rewrite !catchAll_result_some by assumption.
  destruct segs as [|s segs]; reflexivity.
Qed.

Lemma _match_newTrieNode segs index params :
  _match (newTrieNode : Node) segs index params = [].
Proof.
  rewrite _match_unfold. simpl.
  destruct (length segs <=? index)%nat; reflexivity.
Qed.

Lemma match_new g path :
  outcome (match_ path) (new_RouteTrie (Handler := Handler) g) = Normal [].
Proof.
  unfold outcome. rewrite match_unfold. cbn [fst]. f_equal.
  apply first_nonempty_nil. apply List.Forall_forall. intros l Hl.
  apply in_map_iff in Hl as [v [<- _]]. unfold attempt.
  apply _match_newTrieNode.
Qed.

(** Two tries with the same options whose roots match alike answer every
    path alike. *)
Lemma match_same_root (t t' : RouteTrie (Handler := Handler)) path :
  options t' = options t ->
  (forall segs index params,
      _match (root t') segs index params = _match (root t) segs index params) ->
  outcome (match_ path) t' = outcome (match_ path) t.
Proof.
  intros Ho Hr. unfold outcome. rewrite !match_unfold. cbn [fst].
  unfold attempt. rewrite Ho. f_equal. f_equal.
  apply map_ext. intros v. apply Hr.
Qed.

(** *** Lists, pairs and maps *)

Lemma drop_nth {A : Type} (l : list A) (index : nat) (d : A) :
  (index < length l)%nat -> drop index l = nth index l d :: drop (S index) l.
Proof.
  revert index. induction l as [|x l IH]; intros [|index] H; simpl in *;
    try lia; [reflexivity|]. apply IH. lia.
Qed.

Lemma snd_let_pair {A B C : Type} (p : A * C) (f : A -> B) :
  snd (let '(a, c) := p in (f a, c)) = snd p.
Proof. destruct p. reflexivity. Qed.

Lemma fst_let_pair {A B C : Type} (p : A * C) (f : A -> B) :
  fst (let '(a, c) := p in (f a, c)) = f (fst p).
Proof. destruct p. reflexivity. Qed.

Lemma flat_map_alter_alike {A B : Type} (f : A -> list B) (g : A -> A)
    (l : list A) (i : nat) :
  (forall x, l !! i = Some x -> f (g x) = f x) ->
  flat_map f (alter g i l) = flat_map f l.
Proof.
  revert i. induction l as [|x l IH]; intros [|i] H; try reflexivity.
  - cbn [alter list_alter flat_map]. rewrite H by reflexivity. reflexivity.
  - cbn [alter list_alter flat_map]. f_equal. apply IH.
    intros y Hy. apply H. exact Hy.
Qed.

Lemma Map_get_set {V : Type} (k : string) (v : V) (m : list (string * V)) :
  Map_get k (Map_set k v m) = Some v.
Proof.
  induction m as [|[k' v'] m IH]; simpl.
  - rewrite String.eqb_refl. reflexivity.
  - destruct (String.eqb k' k) eqn:E; simpl; rewrite E; [reflexivity|exact IH].
Qed.

Lemma Map_has_get {V : Type} (k : string) (m : list (string * V)) :
  Map_has k m = true -> Map_get k m <> None.
Proof.
  unfold Map_has. induction m as [|[k' v'] m IH]; simpl; [discriminate|].
  destruct (String.eqb k' k); simpl; [discriminate|exact IH].
Qed.

Lemma Map_get_ensured {V : Type} (k : string) (v : V) (m : list (string * V)) :
  Map_get k (if negb (Map_has k m) then Map_set k v m else m) <> None.
Proof.
  destruct (Map_has k m) eqn:E; cbn [negb].
  - apply Map_has_get. exact E.
  - rewrite Map_get_set. discriminate.
Qed.

Lemma Map_get_set_ne {V : Type} (k k' : string) (v : V) (m : list (string * V)) :
  k <> k' -> Map_get k' (Map_set k v m) = Map_get k' m.
Proof.
  intros Hne. induction m as [|[k0 v0] m IH]; simpl.
  - destruct (String.eqb_spec k k'); [contradiction|reflexivity].
  - destruct (String.eqb_spec k0 k) as [->|Hk]; simpl.
    + destruct (String.eqb_spec k k'); [contradiction|reflexivity].
    + destruct (String.eqb k0 k'); [reflexivity|exact IH].
Qed.

Lemma Map_has_false_get {V : Type} (k : string) (m : list (string * V)) :
  Map_has k m = false -> Map_get k m = None.
Proof.
  unfold Map_has. induction m as [|[k' v'] m IH]; simpl; [reflexivity|].
  destruct (String.eqb k' k); simpl; [discriminate|exact IH].
Qed.

End Unfolding.

(** ** Strict mode *)

Section StrictMode.
Context {host : RegExpHost} {Handler : Type}.

(** C4.  On a trie built with the three options disabled and the one
    route [/api/foo], the paths [/API/foo], [/api//foo] and [/api/foo/]
    match nothing, and [/api/foo] yields one result, with no parameter,
    that holds the handler of the route. *)
Theorem strict_mode_exactness (h : Handler) :
  let t := state_after (addRoute "/api/foo" h) (new_RouteTrie strict_options) in
  outcome (match_ "/API/foo") t = Normal []
  /\ outcome (match_ "/api//foo") t = Normal []
  /\ outcome (match_ "/api/foo/") t = Normal []
  /\ outcome (match_ "/api/foo") t = Normal [mkMatchResult ∅ [h]].
Proof.
  vm_compute. repeat split.
Qed.

(** The two tables of tests at the end of [trie.ts]: on the strict and on
    the lenient router, each path matches or not as the table expects. *)
Lemma source_test_tables (h1 h2 : Handler) :
  let router g :=
    state_after (addRoute "/foo" h2)
      (state_after (addRoute "/api/foo" h1) (new_RouteTrie g)) in
  let matched_ g path :=
    match outcome (match_ path) (router g) with
    | Normal matches => (0 <? length matches)%nat
    | Throw _ => false
    end in
  List.map (matched_ strict_options)
           ["/api//foo"; "/api/foo/"; "/foo/"; "/FOO"; "/api/foo"; "/foo"]
  = [false; false; false; false; true; true]
  /\ List.map (matched_ (given_options true true true))
              ["/api//foo"; "/api/foo/"; "/foo/"; "/FOO"; "/api/foo"]
     = [true; true; true; true; true].
Proof. vm_compute. split; reflexivity. Qed.

End StrictMode.

(** ** The classifier *)

Section Classifier.

(** A segment on which the six tests of [parseSegment] fail, in the
    order of the source, is static and keeps its text. *)
Lemma parseSegment_falls_through (segment : string) :
  JsString.startsWith segment "::" = false ->
  String.eqb segment "*" = false ->
  JsString.endsWith segment "*" && JsString.first_is segment ":" = false ->
  Regex.exec false suffixRegex segment = None ->
  Regex.exec false regexMatchRegex segment = None ->
  JsString.startsWith segment ":" = false ->
  parseSegment segment = mkParsedSegment static None (Some segment) None None.
Proof.
  intros H1 H2 H3 H4 H5 H6. unfold parseSegment.
  rewrite H1, H2, H3, H4, H5, H6. reflexivity.
Qed.

Lemma parseSegment_falls_through_witness :
  parseSegment "users" = mkParsedSegment static None (Some "users") None None.
Proof.
  apply (parseSegment_falls_through "users"); vm_compute; reflexivity.
Defined.

(** The first three tests win over the later ones. *)
Lemma parseSegment_escape (segment : string) :
  JsString.startsWith segment "::" = true ->
  parseSegment segment =
    mkParsedSegment static None
      (Some (":" +:+ JsString.slice_from segment 2)) None None.
Proof. intros H. unfold parseSegment. rewrite H. reflexivity. Qed.

Lemma parseSegment_escape_witness :
  parseSegment "::id(\d+)+json" =
    mkParsedSegment static None (Some ":id(\d+)+json") None None.
Proof. apply (parseSegment_escape "::id(\d+)+json"). reflexivity. Defined.

Lemma parseSegment_catch_all (segment : string) :
  JsString.startsWith segment "::" = false ->
  JsString.endsWith segment "*" && JsString.first_is segment ":" = true ->
  String.eqb segment "*" = false ->
  parseSegment segment =
    mkParsedSegment catch_all (Some (JsString.slice segment 1 (-1)))
                    None None None.
Proof.
  intros H1 H2 H3. unfold parseSegment. rewrite H1, H2, H3. reflexivity.
Qed.

Lemma parseSegment_catch_all_witness :
  parseSegment ":id(\d+)+json*" =
    mkParsedSegment catch_all (Some "id(\d+)+json") None None None.
Proof.
  apply (parseSegment_catch_all ":id(\d+)+json*"); vm_compute; reflexivity.
Defined.

(** A constraint followed by a suffix is a [named-regex-suffix]: the
    fourth test comes before the fifth. *)
Lemma parseSegment_regex_and_suffix :
  parseSegment ":id(\d+)+json" =
    mkParsedSegment named_regex_suffix (Some "id") None (Some "\d+")
                    (Some "json")
  /\ Regex.test false regexMatchRegex ":id(\d+)+json" = true.
Proof. vm_compute. split; reflexivity. Qed.

Lemma parseSegment_samples :
  List.map (fun s => ps_type (parseSegment s))
    ["::x"; "*"; ":rest*"; ":name+.txt"; ":id(\d+)"; ":id"; "users"]
  = [static; wildcard; catch_all; named_suffix; named_regex; named; static].
Proof. vm_compute. reflexivity. Qed.

(** C2.  The fifth test of [parseSegment] searches the form
    [:name(pattern)] anywhere in the segment: the segment [x:id(\d+)],
    which does not start with the parameter marker, is classified
    [named-regex] with the name [id], and the text before and after the
    form is dropped.  The fourth test does the same for the suffix
    form. *)
Theorem parseSegment_form_inside_segment :
  JsString.startsWith "x:id(\d+)" ":" = false
  /\ parseSegment "x:id(\d+)" =
       mkParsedSegment named_regex (Some "id") None (Some "\d+") None
  /\ parseSegment ":id(\d+)tail" =
       mkParsedSegment named_regex (Some "id") None (Some "\d+") None
  /\ parseSegment "x:name+.txt" =
       mkParsedSegment named_suffix (Some "name") None None (Some ".txt").
Proof. vm_compute. repeat split; reflexivity. Qed.

End Classifier.

(** ** Catch-all children *)

Section CatchAll.
Context {host : RegExpHost} {Handler : Type}.

Abbreviation Node := (TrieNode RegExp Handler).

(** C5, as amended.  At a node with a catch-all child whose handler list
    is not empty: while segments remain, [_match] records for the child
    one result, after those of the static and the parameter children and
    before those of the wildcard child, which binds the name of the child
    to the remaining segments joined by the separator and holds the
    handlers of the child, and it does not descend into the child; when the
    segments are exhausted, it records the handlers of the node, if there
    are any, and then one result for the child with its name bound to the
    empty string.  A catch-all child whose handler list is empty adds no
    result: the node matches as it would without the child.  The pattern [/:rest*] matches [/a/b/c] with [rest] bound
    to [a/b/c], and matches [/] and the empty path with [rest] bound to the
    empty string. *)
Theorem catch_all_semantics :
  (forall (node : Node) (segments : list string) (index : nat)
          (params : gmap string string) (name : string) (child : Node),
      catchAllChild node = Some (name, child) ->
      handlers child <> [] ->
      ((index < length segments)%nat ->
       _match node segments index params =
         match Map_get (nth index segments "") (staticChildren node) with
         | Some childNode => _match childNode segments (index + 1) params
         | None => []
         end
         ++ flat_map
              (param_results (fun n ps => _match n segments (index + 1) ps)
                             (nth index segments "") params)
              (paramChildren node)
         ++ [mkMatchResult
               (<[name := JsString.join "/" (drop index segments)]> params)
               (handlers child)]
         ++ match wildcardChild node with
            | Some w => _match w segments (length segments) params
            | None => []
            end)
      /\ ((length segments <= index)%nat ->
          _match node segments index params =
            (if (0 <? length (handlers node))%nat
             then [mkMatchResult params (handlers node)] else [])
            ++ [mkMatchResult (<[name := ""]> params) (handlers child)]))
  /\ (forall (node : Node) (segments : list string) (index : nat)
             (params : gmap string string) (name : string) (child : Node),
        catchAllChild node = Some (name, child) ->
        handlers child = [] ->
        _match node segments index params
        = _match (set_catchAllChild node None) segments index params)
  /\ (forall (g : RouteTrieOptions) (h : Handler),
        let t := state_after (addRoute "/:rest*" h) (new_RouteTrie g) in
        outcome (match_ "/a/b/c") t
        = Normal [mkMatchResult {["rest" := "a/b/c"]} [h]]
        /\ outcome (match_ "/") t = Normal [mkMatchResult {["rest" := ""]} [h]]
        /\ outcome (match_ "") t = Normal [mkMatchResult {["rest" := ""]} [h]]).
Proof.
  split; [|split].
  - intros node segments index params name child Hc Hh. split; intros Hi.
    + rewrite _match_unfold, Hc.
      rewrite !catchAll_result_some by assumption.
      destruct (Nat.leb_spec (length segments) index); [lia|].
      destruct (Nat.ltb_spec index (length segments)); [|lia].
      reflexivity.
    + rewrite _match_unfold, Hc.
      rewrite !catchAll_result_some by assumption.
      destruct (Nat.leb_spec (length segments) index); [|lia].
      reflexivity.
  - intros node segments index params name child Hc Hh. symmetry.
    apply _match_catchAll_irrelevant. intros value.
    rewrite Hc. unfold catchAll_result. rewrite Hh. reflexivity.
  - intros [[[]|] [[]|] [[]|]] h; vm_compute; repeat split; reflexivity.
Qed.

(** A catch-all segment that ends a pattern, at a node that has a
    catch-all child: the child is kept with its name, and the handler is
    added to it. *)
Lemma catch_all_child_reused o (node : Node) segments index (h : Handler)
    name child :
  catchAllChild node = Some (name, child) ->
  ps_type (parseSegment (nth index segments "")) = catch_all ->
  S index = length segments ->
  _addRoute o node segments index h
  = (set_catchAllChild node (Some (name, addHandler child h)), Normal tt).
Proof.
  intros Hc Hty Hlen. rewrite _addRoute_step by lia. cbv zeta.
  rewrite Hty, Hc. cbn [fst snd]. rewrite _addRoute_done by lia. reflexivity.
Qed.

(** C9.  A catch-all segment that ends a pattern reuses the catch-all child
    that its node has, under the name the child was created with, and adds
    its handler there.  After [/:a*] and then [/:b*] are registered on a
    new trie, the root has one catch-all child, named [a], which holds the
    two handlers in the order of registration; every path then yields
    exactly one result, which binds [a] to the segments of the path joined
    by the separator, holds the two handlers, and has no entry for [b]. *)
Theorem catch_all_name_fixed :
  (forall o (node : Node) segments index (h : Handler) name child,
      catchAllChild node = Some (name, child) ->
      ps_type (parseSegment (nth index segments "")) = catch_all ->
      S index = length segments ->
      catchAllChild (fst (_addRoute o node segments index h))
      = Some (name, addHandler child h))
  /\ forall (g : RouteTrieOptions) (h1 h2 : Handler),
  let t1 := state_after (addRoute "/:a*" h1) (new_RouteTrie g) in
  let t2 := state_after (addRoute "/:b*" h2) t1 in
  root t1 = mkTrieNode [] [] (Some ("a", mkTrieNode [] [] None None [h1])) None []
  /\ root t2
     = mkTrieNode [] [] (Some ("a", mkTrieNode [] [] None None [h1; h2])) None []
  /\ forall path : string,
       outcome (match_ path) t2
       = Normal [mkMatchResult
                   {["a" := JsString.join "/"
                              (filtered_segments (options t2) path false false)]}
                   [h1; h2]]
       /\ (exists rs, outcome (match_ path) t2 = Normal rs
            /\ List.Forall (fun r => params r !! "b" = None
                                     /\ is_Some (params r !! "a")
                                     /\ matched r = [h1; h2]) rs).
Proof.
  split.
  { intros o node segments index h name child Hc Hty Hlen.
    rewrite (catch_all_child_reused o node segments index h name child)
      by assumption.
    reflexivity. }
  intros g h1 h2 t1 t2.
  assert (R1 : root t1
               = mkTrieNode [] [] (Some ("a", mkTrieNode [] [] None None [h1]))
                            None []).
  { subst t1. destruct g as [[[]|] [[]|] [[]|]]; vm_compute; reflexivity. }
  assert (R2 : root t2
               = mkTrieNode [] []
                   (Some ("a", mkTrieNode [] [] None None [h1; h2])) None []).
  { subst t2 t1. destruct g as [[[]|] [[]|] [[]|]]; vm_compute; reflexivity. }
  split; [exact R1|]. split; [exact R2|].
  intros path.
  assert (E : outcome (match_ path) t2
       = Normal [mkMatchResult
                   {["a" := JsString.join "/"
                              (filtered_segments (options t2) path false false)]}
                   [h1; h2]]).
  { unfold outcome. rewrite match_unfold. cbn [fst]. f_equal.
    unfold variants. cbn [app List.map fst snd]. unfold attempt at 1. rewrite R2.
    rewrite _match_only_catch_all by (simpl; congruence).
    rewrite first_nonempty_head by congruence. reflexivity. }
  split; [exact E|]. eexists. split; [exact E|].
  constructor; [|constructor]. cbn [params matched].
  split; [|split].
  - apply lookup_singleton_ne. discriminate.
  - rewrite lookup_singleton_eq. eauto.
  - reflexivity.
Qed.

Lemma match_alike_refl (node : Node) : match_alike node node.
Proof. intros segs index params. reflexivity. Qed.

(** The static branch of [_addRoute]: the child under the key is replaced
    by one that matches alike. *)
Lemma match_alike_static (node : Node) k child' :
  (forall child, Map_get k (staticChildren node) = Some child -> match_alike child child') ->
  (Map_get k (staticChildren node) = None -> match_alike newTrieNode child') ->
  match_alike node
    (set_staticChildren node
       (Map_set k child'
          (if negb (Map_has k (staticChildren node))
           then Map_set k newTrieNode (staticChildren node)
           else staticChildren node))).
Proof.
  intros Hsome Hnone segs index params. rewrite !_match_unfold.
  cbn [set_staticChildren staticChildren paramChildren catchAllChild
       wildcardChild handlers].
  destruct (length segs <=? index)%nat; [reflexivity|].
  f_equal.
  destruct (String.eqb_spec k (nth index segs "")) as [<-|Hne].
  - rewrite Map_get_set.
    destruct (Map_get k (staticChildren node)) as [child|] eqn:E.
    + apply Hsome. reflexivity.
    + rewrite (Hnone eq_refl). apply _match_newTrieNode.
  - rewrite Map_get_set_ne by assumption.
    destruct (Map_has k (staticChildren node)); cbn [negb]; [reflexivity|].
    rewrite Map_get_set_ne by assumption. reflexivity.
Qed.

Lemma param_results_alike segs index cur params (p : ParamChild RegExp Node) n' :
  match_alike (p_node p) n' ->
  param_results (fun n q => _match n segs index q) cur params (set_p_node p n')
  = param_results (fun n q => _match n segs index q) cur params p.
Proof.
  intros H. unfold param_results.
  change (bind_param (set_p_node p n') cur) with (bind_param p cur).
  destruct (bind_param p cur); [apply H|reflexivity].
Qed.

Lemma scan_params_reuse parsed (l : list (ParamChild RegExp Node)) start i n :
  scan_params parsed l start = Reuse i n ->
  exists p, l !! (i - start)%nat = Some p /\ p_node p = n /\ (start <= i)%nat.
Proof.
  revert start. induction l as [|p l IH]; intros start; simpl; [discriminate|].
  intros H.
  assert (Hrest : scan_params parsed l (S start) = Reuse i n ->
                  exists p0, (p :: l) !! (i - start)%nat = Some p0
                             /\ p_node p0 = n /\ (start <= i)%nat).
  { intros H'. destruct (IH _ H') as [p0 [Hl [Hn Hle]]].
    exists p0. replace (i - start)%nat with (S (i - S start)) by lia.
    simpl. repeat split; [exact Hl|exact Hn|lia]. }
  destruct (_ && _); [|auto].
  destruct (scanned_source parsed); [|discriminate].
  destruct (_ && _); [|auto].
  inversion H; subst. exists p. rewrite Nat.sub_diag. simpl. auto.
Qed.

(** Below a catch-all segment that is not the last one, [_addRoute] changes
    nothing that [_match] reads. *)
Lemma _addRoute_catch_all_alike o (node : Node) segments index (h : Handler) :
  ps_type (parseSegment (nth index segments "")) = catch_all ->
  (index + 1 < length segments)%nat ->
  match_alike node (fst (_addRoute o node segments index h)).
Proof.
  intros Htype Hlen segs i params.
  rewrite _addRoute_step by lia. cbv zeta. rewrite Htype.
  pose proof (_addRoute_handlers o
    (snd (match catchAllChild node with
          | Some existing => existing
          | None => (unwrap (ps_name (parseSegment (nth index segments ""))),
                     newTrieNode)
          end)) segments (index + 1) h) as Hh.
  destruct (_addRoute o _ segments (index + 1) h) as [child' c].
  cbn [fst snd] in *.
  apply _match_catchAll_irrelevant. intros value.
  destruct (catchAllChild node) as [[name child]|]; cbn [fst snd] in *.
  - apply catchAll_result_handlers. apply Hh. lia.
  - unfold catchAll_result. rewrite Hh by lia. reflexivity.
Qed.

(** The parameter branch of [_addRoute], whatever the kind. *)
Lemma match_alike_param o (node : Node) segments index (h : Handler) parsed
    ty name suffix :
  (forall child : Node,
      match_alike child (fst (_addRoute o child segments (index + 1) h))) ->
  match_alike node
    (fst (match scan_params parsed (paramChildren node) 0 with
          | ScanThrow e => (node, Throw e)
          | Reuse i paramNode =>
              let '(paramNode', c) :=
                _addRoute o paramNode segments (index + 1) h in
              (set_paramChildren node
                 (alter (fun param => set_p_node param paramNode') i
                        (paramChildren node)), c)
          | Absent =>
              match compile_regex o parsed with
              | Throw e => (node, Throw e)
              | Normal regexObj =>
                  let '(paramNode', c) :=
                    _addRoute o newTrieNode segments (index + 1) h in
                  (set_paramChildren node
                     (paramChildren node
                      ++ [mkParamChild ty name regexObj suffix paramNode']),
                   c)
              end
          end)).
Proof.
  intros Hrec.
  destruct (scan_params _ _ _) as [i paramNode| |e] eqn:Hscan.
  - rewrite fst_let_pair. intros segs j params. rewrite !_match_unfold.
    cbn [set_paramChildren staticChildren paramChildren catchAllChild
         wildcardChild handlers].
    destruct (length segs <=? j)%nat; [reflexivity|].
    f_equal. f_equal.
    apply flat_map_alter_alike. intros p Hp.
    apply param_results_alike.
    destruct (scan_params_reuse _ _ _ _ _ Hscan) as [p0 [Hl [Hn _]]].
    rewrite Nat.sub_0_r in Hl. rewrite Hp in Hl. inversion Hl; subst.
    apply Hrec.
  - destruct (compile_regex o parsed) as [regexObj|e]; [|apply match_alike_refl].
    rewrite fst_let_pair. intros segs j params. rewrite !_match_unfold.
    cbn [set_paramChildren staticChildren paramChildren catchAllChild
         wildcardChild handlers].
    destruct (length segs <=? j)%nat; [reflexivity|].
    f_equal. f_equal.
    rewrite flat_map_app. cbn [flat_map]. unfold param_results at 2.
    cbn [p_node].
    unfold match_alike in Hrec.
    destruct (bind_param _ _);
      [rewrite (Hrec newTrieNode), _match_newTrieNode|];
      rewrite !app_nil_r; reflexivity.
  - apply match_alike_refl.
Qed.

(** A registration that walks through a catch-all segment and goes on
    leaves a node that matches as the node did. *)
Lemma _addRoute_alike o segments (h : Handler) :
  forall n index (node : Node),
    (length segments - index = n)%nat ->
    catch_all_inside (drop index segments) = true ->
    match_alike node (fst (_addRoute o node segments index h)).
Proof.
  induction n as [|n IH]; intros index node Hn Hin.
  - rewrite drop_ge in Hin by lia. discriminate.
  - assert (Hlt : (index < length segments)%nat) by lia.
    rewrite (drop_nth _ _ "" Hlt) in Hin. cbn [catch_all_inside] in Hin.
    set (segment := nth index segments "") in *.
    destruct (decide (ps_type (parseSegment segment) = catch_all)) as [Hca|Hca].
    { apply _addRoute_catch_all_alike; [exact Hca|].
      rewrite Hca in Hin.
      destruct (drop (S index) segments) eqn:Hd; [discriminate|].
      assert (length (drop (S index) segments) > 0)%nat
        by (rewrite Hd; simpl; lia).
      rewrite length_drop in H. lia. }
    assert (Hrec : forall child : Node,
               match_alike child (fst (_addRoute o child segments (index + 1) h))).
    { intros child. apply IH; [lia|].
      replace (index + 1)%nat with (S index) by lia.
      destruct (ps_type (parseSegment segment)); congruence. }
    rewrite _addRoute_step by assumption; cbv zeta; fold segment.
    destruct (ps_type (parseSegment segment)) eqn:Hty;
      try discriminate; try congruence.
    + (* static *)
      destruct (Map_get _ _) as [child|] eqn:Hget.
      2: { exfalso. revert Hget. apply Map_get_ensured. }
      rewrite fst_let_pair.
      apply match_alike_static.
      * intros child0 H0. destruct (Map_has _ (staticChildren node)) eqn:Hhas;
          cbn [negb] in Hget.
        -- rewrite H0 in Hget. inversion Hget; subst. apply Hrec.
        -- rewrite Map_has_false_get in H0 by assumption. discriminate.
      * intros H0. destruct (Map_has _ (staticChildren node)) eqn:Hhas;
          cbn [negb] in Hget.
        -- rewrite H0 in Hget. discriminate.
        -- rewrite Map_get_set in Hget. inversion Hget; subst. apply Hrec.
    + exact (match_alike_param o node segments index h (parseSegment segment)
               _ _ _ Hrec).
    + exact (match_alike_param o node segments index h (parseSegment segment)
               _ _ _ Hrec).
    + exact (match_alike_param o node segments index h (parseSegment segment)
               _ _ _ Hrec).
    + exact (match_alike_param o node segments index h (parseSegment segment)
               _ _ _ Hrec).
    + apply match_alike_refl.
Qed.

(** C10.  A pattern in which a catch-all segment is followed by further
    segments, such as [/:rest*/tail], can be registered on any trie without
    changing the answer of [match] for any path: the handler is attached
    below the catch-all child, where [_match] does not go.  On a new trie
    the handler of [/:rest*/tail] sits in the node [tail] below the
    catch-all child, and every path matches nothing. *)
Theorem segments_after_catch_all_unreachable :
  (forall (t : RouteTrie (Handler := Handler)) (pattern : string) (h : Handler),
      catch_all_inside (route_segments (options t) pattern) = true ->
      forall path : string,
        outcome (match_ path) (state_after (addRoute pattern h) t)
        = outcome (match_ path) t)
  /\ (forall o, catch_all_inside (route_segments o "/:rest*/tail") = true)
  /\ (forall g (h : Handler),
        root (state_after (addRoute "/:rest*/tail" h) (new_RouteTrie g))
        = mkTrieNode [] []
            (Some ("rest",
                   mkTrieNode [("tail", mkTrieNode [] [] None None [h])]
                              [] None None []))
            None [])
  /\ (forall g (h : Handler) (path : string),
        outcome (match_ path)
                (state_after (addRoute "/:rest*/tail" h) (new_RouteTrie g))
        = Normal []).
Proof.
  assert (Hsame : forall (t : RouteTrie (Handler := Handler)) pattern h,
      catch_all_inside (route_segments (options t) pattern) = true ->
      forall path,
        outcome (match_ path) (state_after (addRoute pattern h) t)
        = outcome (match_ path) t).
  { intros t pattern h Hin path. apply match_same_root.
    - apply addRoute_options.
    - rewrite addRoute_root.
      apply _addRoute_alike
        with (n := length (route_segments (options t) pattern));
        [lia|exact Hin]. }
  assert (Hin : forall o, catch_all_inside (route_segments o "/:rest*/tail") = true).
  { intros [[] [] []]; vm_compute; reflexivity. }
  split; [exact Hsame|]. split; [exact Hin|]. split.
  - intros [[[]|] [[]|] [[]|]] h; vm_compute; reflexivity.
  - intros g h path. rewrite Hsame by apply Hin. apply match_new.
Qed.

End CatchAll.

Lemma catch_all_semantics_witness :
  _match (host := MiniRegExpHost)
         (mkTrieNode [] [] (Some ("rest", mkTrieNode [] [] None None [7%nat]))
                     None [])
         ["a"; "b"; "c"] 0 ∅
  = [mkMatchResult {["rest" := "a/b/c"]} [7%nat]].
Proof.
  refine (proj1 (proj1 (catch_all_semantics (host := MiniRegExpHost))
                   (mkTrieNode [] []
                      (Some ("rest", mkTrieNode [] [] None None [7%nat])) None [])
                   ["a"; "b"; "c"] 0%nat ∅ "rest"
                   (mkTrieNode [] [] None None [7%nat]) eq_refl _) _).
  - discriminate.
  - simpl. lia.
Defined.

Lemma catch_all_name_fixed_witness :
  catchAllChild
    (fst (_addRoute (host := MiniRegExpHost)
            (mkOptions true true true)
            (mkTrieNode [] [] (Some ("a", mkTrieNode [] [] None None [1%nat]))
                        None [])
            [":b*"] 0 2%nat))
  = Some ("a", mkTrieNode [] [] None None [1%nat; 2%nat]).
Proof.
  apply (proj1 (catch_all_name_fixed (host := MiniRegExpHost))
               (mkOptions true true true)
               (mkTrieNode [] [] (Some ("a", mkTrieNode [] [] None None [1%nat]))
                           None [])
               [":b*"] 0%nat 2%nat "a" (mkTrieNode [] [] None None [1%nat]));
    reflexivity.
Defined.

Lemma segments_after_catch_all_unreachable_witness :
  let t : RouteTrie (host := MiniRegExpHost) (Handler := nat) :=
    state_after (addRoute "/files/:name" 1%nat)
                (new_RouteTrie (given_options true true true)) in
  outcome (match_ "/files/tail") (state_after (addRoute "/files/:rest*/tail" 2%nat) t)
  = outcome (match_ "/files/tail") t.
Proof.
  intros t.
  apply (proj1 (segments_after_catch_all_unreachable (host := MiniRegExpHost))
               t "/files/:rest*/tail" 2%nat).
  vm_compute. reflexivity.
Defined.

(** A catch-all child without handlers is not recorded: once
    [/:rest*/tail] is registered the root has a catch-all child, and
    neither the path [/], which leaves no segment, nor the path [/a/b/c]
    yields a result. *)
Lemma catch_all_without_handlers_counterexample :
  let t : RouteTrie (host := MiniRegExpHost) (Handler := nat) :=
    state_after (addRoute "/:rest*/tail" 7%nat)
                (new_RouteTrie (given_options true true true)) in
  catchAllChild (root t)
  = Some ("rest",
          mkTrieNode [("tail", mkTrieNode [] [] None None [7%nat])]
                     [] None None [])
  /\ _match (root t) [] 0 ∅ = []
  /\ outcome (match_ "/") t = Normal []
  /\ outcome (match_ "/a/b/c") t = Normal [].
Proof. vm_compute. repeat split; reflexivity. Qed.

(** ** Parameter children side by side *)

Section Coexistence.
Context {host : RegExpHost} {Handler : Type}.

Abbreviation Node := (TrieNode RegExp Handler).

Lemma coexisting_roots (i f tr : bool) (h1 h2 : Handler) (re : RegExp) :
  RegExp_new "^\d+$" (if i then "i" else "") = Some re ->
  let unconstrained :=
    mkParamChild named "id" None None (mkTrieNode [] [] None None [h1]) in
  let constrained :=
    mkParamChild named_regex "id" (Some re) None
                 (mkTrieNode [] [] None None [h2]) in
  let t0 := new_RouteTrie (given_options i f tr) in
  root (state_after (addRoute "/:id(\d+)" h2)
          (state_after (addRoute "/:id" h1) t0))
  = mkTrieNode [] [unconstrained; constrained] None None []
  /\ root (state_after (addRoute "/:id" h1)
             (state_after (addRoute "/:id(\d+)" h2) t0))
     = mkTrieNode [] [constrained; unconstrained] None None [].
Proof.
  intros Hnew unconstrained constrained t0.
  assert (Hc : compile_regex (mkOptions i f tr)
                 (mkParsedSegment named_regex (Some "id") None (Some "\d+") None)
               = Normal (Some re)).
  { apply compile_regex_some with (source := "\d+");
      [reflexivity|discriminate|exact Hnew]. }
  subst t0. split.
  - rewrite addRoute_root, addRoute_options.
    replace (root (state_after (addRoute "/:id" h1)
                     (new_RouteTrie (given_options i f tr))))
      with (mkTrieNode [] [unconstrained] None None [] : Node)
      by (destruct i, f, tr; vm_compute; reflexivity).
    replace (route_segments (options (new_RouteTrie (given_options i f tr)))
                            "/:id(\d+)")
      with [":id(\d+)"] by (destruct i, f, tr; vm_compute; reflexivity).
    rewrite (_addRoute_new_param _ _ _ _
               (mkParsedSegment named_regex (Some "id") None (Some "\d+") None)
               (Some re))
      by first [exact Hc | vm_compute; reflexivity].
    reflexivity.
  - rewrite addRoute_root, addRoute_options.
    replace (route_segments (options (new_RouteTrie (given_options i f tr)))
                            "/:id")
      with [":id"] by (destruct i, f, tr; vm_compute; reflexivity).
    rewrite addRoute_root.
    replace (route_segments (options (new_RouteTrie (given_options i f tr)))
                            "/:id(\d+)")
      with [":id(\d+)"] by (destruct i, f, tr; vm_compute; reflexivity).
    rewrite (_addRoute_new_param _ _ ":id(\d+)" _
               (mkParsedSegment named_regex (Some "id") None (Some "\d+") None)
               (Some re))
      by first [exact Hc | vm_compute; reflexivity].
    cbn [fst].
    rewrite (_addRoute_new_param _ _ _ _
               (mkParsedSegment named (Some "id") None None None) None)
      by (vm_compute; reflexivity).
    reflexivity.
Qed.

(** C7.  On a host where [^\d+$] compiles to a pattern that accepts [42]
    and rejects [abc]: when [/:id] and [/:id(\d+)] are registered on a new
    trie, in either order and whatever the options, the root has the two
    parameter children side by side, [match("/42")] returns exactly two
    results, one for each route and in the order of registration, both
    binding [id] to [42], and [match("/abc")] returns exactly one, that of
    the unconstrained route. *)
Theorem ambiguous_coexistence (i f tr : bool) (h1 h2 : Handler) (re : RegExp) :
  RegExp_new "^\d+$" (if i then "i" else "") = Some re ->
  RegExp_test re "42" = true ->
  RegExp_test re "abc" = false ->
  let t0 := new_RouteTrie (given_options i f tr) in
  let t := state_after (addRoute "/:id(\d+)" h2)
             (state_after (addRoute "/:id" h1) t0) in
  let t' := state_after (addRoute "/:id" h1)
              (state_after (addRoute "/:id(\d+)" h2) t0) in
  outcome (match_ "/42") t
  = Normal [mkMatchResult {["id" := "42"]} [h1];
            mkMatchResult {["id" := "42"]} [h2]]
  /\ outcome (match_ "/abc") t = Normal [mkMatchResult {["id" := "abc"]} [h1]]
  /\ outcome (match_ "/42") t'
     = Normal [mkMatchResult {["id" := "42"]} [h2];
               mkMatchResult {["id" := "42"]} [h1]]
  /\ outcome (match_ "/abc") t' = Normal [mkMatchResult {["id" := "abc"]} [h1]].
Proof.
  intros Hnew H42 Habc t0 t t'.
  destruct (coexisting_roots i f tr h1 h2 re Hnew) as [Hr Hr'].
  fold t0 in Hr, Hr'. fold t in Hr. fold t' in Hr'.
  assert (Ho : options t = mkOptions i f tr /\ options t' = mkOptions i f tr).
  { subst t t'. rewrite !addRoute_options. split; reflexivity. }
  destruct Ho as [Ho Ho'].
  assert (S42 : forall u v,
             filtered_segments (mkOptions i f tr) "/42" u v = ["42"]).
  { intros u v. destruct i, f, tr, u, v; vm_compute; reflexivity. }
  assert (Sabc : forall u v,
             filtered_segments (mkOptions i f tr) "/abc" u v = ["abc"]).
  { intros u v. destruct i, f, tr, u, v; vm_compute; reflexivity. }
  unfold outcome. rewrite !match_unfold. cbn [fst].
  unfold variants, attempt. cbn [app List.map fst snd].
  rewrite Ho, Ho', Hr, Hr', !S42, !Sabc.
  rewrite !_match_params_only by (simpl; lia).
  cbn [flat_map nth]. unfold param_results, bind_param.
  cbn [p_type p_regex p_name p_node]. rewrite H42, Habc.
  rewrite !_match_leaf by (simpl; lia).
  cbn [length Nat.ltb Nat.leb app first_nonempty].
  repeat split; reflexivity.
Qed.

End Coexistence.

Lemma ambiguous_coexistence_witness :
  let t : RouteTrie (host := MiniRegExpHost) (Handler := nat) :=
    state_after (addRoute "/:id(\d+)" 2%nat)
      (state_after (addRoute "/:id" 1%nat)
                   (new_RouteTrie (given_options true true true))) in
  outcome (match_ "/42") t
  = Normal [mkMatchResult {["id" := "42"]} [1%nat];
            mkMatchResult {["id" := "42"]} [2%nat]]
  /\ outcome (match_ "/abc") t = Normal [mkMatchResult {["id" := "abc"]} [1%nat]].
Proof.
  pose proof (ambiguous_coexistence (host := MiniRegExpHost)
                true true true 1%nat 2%nat (anchored_digits "i")
                eq_refl eq_refl eq_refl) as H.
  split; [exact (proj1 H)|exact (proj1 (proj2 H))].
Defined.


(** ** Registering a pattern twice *)

Section Idempotence.
Context {host : RegExpHost} {Handler : Type}.

Abbreviation Node := (TrieNode RegExp Handler).

(** Patterns without a constraint are merged: the second registration
    reaches the node of the first, and a matching path yields one result
    with the two handlers in the order of registration. *)
Lemma plain_routes_merged (g : RouteTrieOptions) (h1 h2 : Handler) :
  let twice path :=
    state_after (addRoute path h2)
                (state_after (addRoute path h1) (new_RouteTrie g)) in
  outcome (match_ "/users/42") (twice "/users/:id")
  = Normal [mkMatchResult {["id" := "42"]} [h1; h2]]
  /\ outcome (match_ "/file/report.txt") (twice "/file/:name+.txt")
     = Normal [mkMatchResult {["name" := "report"]} [h1; h2]]
  /\ outcome (match_ "/a/b") (twice "/:rest*")
     = Normal [mkMatchResult {["rest" := "a/b"]} [h1; h2]]
  /\ outcome (match_ "/static/x/y") (twice "/static/*")
     = Normal [mkMatchResult ∅ [h1; h2]].
Proof.
  destruct g as [[[]|] [[]|] [[]|]]; vm_compute; repeat split; reflexivity.
Qed.

Lemma scan_params_other_source parsed (param : ParamChild RegExp Node)
    (re bare : RegExp) :
  p_regex param = Some re ->
  scanned_source parsed = Normal (Some (RegExp_toString bare)) ->
  RegExp_toString re <> RegExp_toString bare ->
  scan_params parsed [param] 0 = Absent.
Proof.
  intros Hre Hsrc Hne. cbn [scan_params]. rewrite Hsrc, Hre.
  cbn [fmap option_fmap option_map].
  rewrite (bool_decide_eq_false_2 (Some (RegExp_toString re) = _)) by congruence.
  cbn [andb]. destruct (_ && _); reflexivity.
Qed.

(** C1.  On a host where the anchored pattern [^\d+$] and the supplied
    pattern [\d+] compile to objects that print differently, and the
    first accepts [42]: registering [/:id(\d+)] twice leaves two
    parameter children at the root, alike but for their handlers, each
    with a handler list of length one, and [match("/42")] returns two
    results with one handler each. *)
Theorem duplicate_regex_route_not_merged (i f tr : bool) (h1 h2 : Handler)
    (re bare : RegExp) :
  RegExp_new "^\d+$" (if i then "i" else "") = Some re ->
  RegExp_new "\d+" "" = Some bare ->
  RegExp_toString re <> RegExp_toString bare ->
  RegExp_test re "42" = true ->
  let t := state_after (addRoute "/:id(\d+)" h2)
             (state_after (addRoute "/:id(\d+)" h1)
                          (new_RouteTrie (given_options i f tr))) in
  root t
  = mkTrieNode []
      [mkParamChild named_regex "id" (Some re) None
                    (mkTrieNode [] [] None None [h1]);
       mkParamChild named_regex "id" (Some re) None
                    (mkTrieNode [] [] None None [h2])]
      None None []
  /\ outcome (match_ "/42") t
     = Normal [mkMatchResult {["id" := "42"]} [h1];
               mkMatchResult {["id" := "42"]} [h2]].
Proof.
  intros Hnew Hbare Hne H42 t.
  set (parsed := mkParsedSegment named_regex (Some "id") None (Some "\d+") None).
  assert (Hc : compile_regex (mkOptions i f tr) parsed = Normal (Some re)).
  { apply compile_regex_some with (source := "\d+");
      [reflexivity|discriminate|exact Hnew]. }
  assert (Hsrc : scanned_source parsed = Normal (Some (RegExp_toString bare))).
  { unfold scanned_source, parsed. cbn [truthy ps_regex String.eqb Ascii.eqb Bool.eqb negb].
    change (unwrap (Some "\d+")) with "\d+". rewrite Hbare. reflexivity. }
  assert (Hsegs : route_segments (mkOptions i f tr) "/:id(\d+)" = [":id(\d+)"]).
  { destruct i, f, tr; vm_compute; reflexivity. }
  assert (Hr : root t
    = mkTrieNode []
      [mkParamChild named_regex "id" (Some re) None
                    (mkTrieNode [] [] None None [h1]);
       mkParamChild named_regex "id" (Some re) None
                    (mkTrieNode [] [] None None [h2])]
      None None []).
  { subst t. rewrite !addRoute_root, !addRoute_options.
    change (options (new_RouteTrie (given_options i f tr))) with (mkOptions i f tr).
    rewrite Hsegs.
    rewrite (_addRoute_new_param _ (root _) _ _ parsed (Some re))
      by first [exact Hc | vm_compute; reflexivity].
    cbn [fst].
    rewrite (_addRoute_new_param _ _ _ _ parsed (Some re));
      [reflexivity | vm_compute; reflexivity | reflexivity | | exact Hc].
    apply scan_params_other_source with (re := re) (bare := bare);
      [reflexivity|exact Hsrc|exact Hne]. }
  split; [exact Hr|].
  assert (Ho : options t = mkOptions i f tr).
  { subst t. rewrite !addRoute_options. reflexivity. }
  assert (S42 : forall u v,
             filtered_segments (mkOptions i f tr) "/42" u v = ["42"]).
  { intros u v. destruct i, f, tr, u, v; vm_compute; reflexivity. }
  unfold outcome. rewrite !match_unfold. cbn [fst].
  unfold variants, attempt. cbn [app List.map fst snd].
  rewrite Ho, Hr, !S42.
  rewrite !_match_params_only by (simpl; lia).
  cbn [flat_map nth]. unfold param_results, bind_param.
  cbn [p_type p_regex p_name p_node]. rewrite H42.
  rewrite !_match_leaf by (simpl; lia).
  cbn [length Nat.ltb Nat.leb app first_nonempty].
  reflexivity.
Qed.

End Idempotence.

Lemma duplicate_regex_route_not_merged_witness :
  let t : RouteTrie (host := MiniRegExpHost) (Handler := nat) :=
    state_after (addRoute "/:id(\d+)" 2%nat)
      (state_after (addRoute "/:id(\d+)" 1%nat)
                   (new_RouteTrie (given_options true true true))) in
  length (paramChildren (root t)) = 2%nat
  /\ outcome (match_ "/42") t
     = Normal [mkMatchResult {["id" := "42"]} [1%nat];
               mkMatchResult {["id" := "42"]} [2%nat]].
Proof.
  pose proof (duplicate_regex_route_not_merged (host := MiniRegExpHost)
                true true true 1%nat 2%nat (anchored_digits "i") bare_digits
                eq_refl eq_refl ltac:(discriminate) eq_refl) as H.
  cbv zeta in *. split.
  - rewrite (proj1 H). reflexivity.
  - exact (proj2 H).
Defined.

(** ** [match] reads and does not write *)

Section ReadOnly.
Context {host : RegExpHost} {Handler : Type}.

(** C8.  In every state that the constructor and calls of [addRoute]
    reach, [match] leaves the object as it was, root, options and
    registry; it returns and does not throw; and its result is the same on
    any object with the same root and the same options, so it does not
    depend on the registry. *)
Theorem match_is_read_only (t : RouteTrie (Handler := Handler)) :
  reachable t ->
  forall path : string,
    state_after (match_ path) t = t
    /\ (exists results, outcome (match_ path) t = Normal results)
    /\ (forall t' : RouteTrie,
          root t' = root t -> options t' = options t ->
          outcome (match_ path) t' = outcome (match_ path) t).
Proof.
  intros _ path. unfold state_after, outcome. split; [|split].
  - rewrite match_unfold. reflexivity.
  - rewrite match_unfold. eexists. reflexivity.
  - intros t' Hr Ho. apply match_same_root; [exact Ho|].
    intros. rewrite Hr. reflexivity.
Qed.

End ReadOnly.

Lemma match_is_read_only_witness :
  let t : RouteTrie (host := MiniRegExpHost) (Handler := nat) :=
    state_after (addRoute "/api/foo" 7%nat)
                (new_RouteTrie (given_options true true true)) in
  state_after (match_ "/api/foo") t = t.
Proof.
  intros t.
  exact (proj1 (match_is_read_only (host := MiniRegExpHost) t
                  (reachable_addRoute _ "/api/foo" 7%nat
                     (reachable_new (given_options true true true)))
                  "/api/foo")).
Defined.

(** ** When [insert] fails *)

Section Failure.
Context {host : RegExpHost} {Handler : Type}.

Abbreviation Node := (TrieNode RegExp Handler).
Abbreviation Param := (ParamChild RegExp Node).



Lemma scan_params_no_throw parsed source :
  scanned_source parsed = Normal source ->
  forall (l : list (ParamChild RegExp Node)) i e,
    scan_params parsed l i <> ScanThrow e.
Proof.
  intros Hs l. induction l as [|param l IH]; intros i e; simpl.
  - discriminate.
  - rewrite Hs.
    repeat (match goal with
            | |- context [if ?b then _ else _] => destruct b
            end; try discriminate; try apply IH).
Qed.




















End Failure.



(** Which error [insert] raises depends on the trie: on a new trie the
    pattern [[] is refused inside the [try] and the wrapped [Error] is
    raised; once [/item/:id(\d+)] is registered, the scan meets a child of
    the same name and kind and calls the constructor outside the [try], so
    the [SyntaxError] of the constructor is raised. *)
Lemma error_kind_depends_on_siblings :
  let t : RouteTrie (host := MiniRegExpHost) (Handler := nat) :=
    new_RouteTrie (given_options true true true) in
  outcome (addRoute "/item/:id([)" 7%nat) t
  = Throw (InvalidRegexInRoute "Invalid regex in route: [")
  /\ outcome (addRoute "/item/:id([)" 7%nat)
             (state_after (addRoute "/item/:id(\d+)" 1%nat) t)
     = Throw (SyntaxError "[").
Proof. vm_compute. split; reflexivity. Qed.

(** Whether [insert] raises depends on the trie too.  The pattern of
    [:id(\)] is a backslash: the constructor refuses it as it is and
    accepts it anchored, where the backslash escapes the dollar sign.  On
    a new trie the scan has no child to look at, and [insert] returns;
    once [/:id(\d+)] is registered, the scan meets a child of the same
    name and kind and calls the constructor outside the [try]. *)
Lemma outcome_depends_on_siblings :
  let t : RouteTrie (host := MiniRegExpHost) (Handler := nat) :=
    new_RouteTrie (given_options true true true) in
  let pattern := String MiniRegExp.backslash EmptyString in
  parseSegment ":id(\)"
  = mkParsedSegment named_regex (Some "id") None (Some pattern) None
  /\ RegExp_new (RegExpHost := MiniRegExpHost) pattern EmptyString = None
  /\ RegExp_toString (RegExpHost := MiniRegExpHost)
       <$> RegExp_new (RegExpHost := MiniRegExpHost) ("^" +:+ pattern +:+ "$") "i"
     = Some "/^\$/i"
  /\ outcome (addRoute "/:id(\)" 7%nat) t = Normal tt
  /\ outcome (addRoute "/:id(\)" 7%nat)
             (state_after (addRoute "/:id(\d+)" 1%nat) t)
     = Throw (SyntaxError pattern).
Proof. vm_compute. repeat split; reflexivity. Qed.

(** * Further properties *)

(** ** The classifier on plain and named segments *)

Section Engine.
Import Regex.

Lemma tail_of_trans t s u : tail_of t s -> tail_of s u -> tail_of t u.
Proof.
  intros H1 H2. induction H2 as [s|d s u H2 IH]; [exact H1|].
  constructor. apply IH. exact H1.
Qed.

Lemma contains_tail c t s : tail_of t s -> contains c t = true -> contains c s = true.
Proof.
  intros Ht Hc. induction Ht as [s|d t s Ht IH]; [exact Hc|].
  simpl. rewrite IH; [apply orb_true_r|..]; assumption.
Qed.

Lemma forward_one p : forward (one p).
Proof.
  intros x c z. unfold one. destruct (rest x) as [|a t] eqn:E; [discriminate|].
  destruct (p a); [|discriminate]. intros H. eexists. split; [exact H|].
  simpl. constructor. constructor.
Qed.

Lemma forward_repeat m gs : forward m -> forall bound, forward (repeat_matcher m gs bound).
Proof.
  intros Hm bound. induction bound as [|n IH]; intros x c z; simpl.
  - intros H. exists x. split; [exact H|constructor].
  - unfold orelse.
    destruct (m (clear gs x) _) as [z'|] eqn:E.
    + intros Hz. inversion Hz; subst z'. clear Hz.
      apply Hm in E as [y [Hy Ht]].
      destruct (pos y =? pos x)%nat; [discriminate|].
      apply IH in Hy as [y' [Hy' Ht']].
      exists y'. split; [exact Hy'|]. eapply tail_of_trans; [exact Ht'|exact Ht].
    + intros H. exists x. split; [exact H|constructor].
Qed.

Lemma forward_compile icase r : forward (compile icase r).
Proof.
  induction r; simpl.
  - intros x c z H. exists x. split; [exact H|constructor].
  - apply forward_one.
  - apply forward_one.
  - apply forward_one.
  - intros x c z H. apply IHr1 in H as [y [Hy Ht]].
    apply IHr2 in Hy as [y' [Hy' Ht']].
    exists y'. split; [exact Hy'|]. eapply tail_of_trans; eassumption.
  - intros x c z. unfold orelse.
    destruct (compile icase r1 x c) eqn:E.
    + intros H. inversion H; subst. apply IHr1 in E. exact E.
    + apply IHr2.
  - intros x c z. apply forward_repeat. exact IHr.
  - intros x c z H. apply IHr in H as [y [Hy Ht]].
    apply (forward_repeat _ _ IHr) in Hy as [y' [Hy' Ht']].
    exists y'. split; [exact Hy'|]. eapply tail_of_trans; eassumption.
  - intros x c z. unfold orelse.
    destruct (compile icase r _ _) eqn:E.
    + intros H. inversion H; subst. apply IHr in E as [y [Hy Ht]].
      destruct (pos y =? pos x)%nat; [discriminate|].
      exists y. split; [exact Hy|exact Ht].
    + intros H. exists x. split; [exact H|constructor].
  - intros x c z H. apply IHr in H as [y [Hy Ht]].
    eexists. split; [exact Hy|exact Ht].
  - intros x c z. destruct (pos x =? 0)%nat; [|discriminate].
    intros H. exists x. split; [exact H|constructor].
  - intros x c z. destruct (rest x) eqn:E; [|discriminate].
    intros H. exists x. split; [exact H|rewrite E; constructor].
Qed.

Lemma needs_chr ch r : needs ch (compile false (Seq (Chr ch) r)).
Proof.
  intros x c z. simpl. unfold one. destruct (rest x) as [|a t]; [discriminate|].
  unfold chr_eq. destruct (Ascii.eqb ch a) eqn:E; [|discriminate].
  intros _. simpl. rewrite Ascii.eqb_sym, E. reflexivity.
Qed.

Lemma needs_seq_right ch r1 r2 :
  needs ch (compile false r2) -> needs ch (compile false (Seq r1 r2)).
Proof.
  intros H x c z. simpl. intros Hm.
  apply (forward_compile false r1) in Hm as [y [Hy Ht]].
  eapply contains_tail; [exact Ht|]. eapply H. exact Hy.
Qed.

Lemma exec_from_none m start s :
  (forall x c z, tail_of (rest x) s -> m x c = Some z -> False) ->
  exec_from m start s = None.
Proof.
  revert start. induction s as [|a s IH]; intros start H; simpl.
  - destruct (m _ _) eqn:E; [|reflexivity].
    exfalso. eapply H; [|exact E]. constructor.
  - destruct (m _ _) eqn:E.
    + exfalso. eapply H; [|exact E]. constructor.
    + apply IH. intros x c z Ht. apply H. constructor. exact Ht.
Qed.

(** A pattern that needs a code unit finds nothing in a string without
    it. *)
Lemma exec_without_needed ch r s :
  needs ch (compile false r) -> contains ch s = false -> exec false r s = None.
Proof.
  intros Hn Hc. apply exec_from_none. intros x c z Ht H.
  apply Hn in H. rewrite (contains_tail _ _ _ Ht H) in Hc. discriminate.
Qed.

Lemma suffixRegex_needs_colon : needs ":" (compile false suffixRegex).
Proof. apply needs_chr. Qed.

Lemma suffixRegex_needs_plus : needs "+" (compile false suffixRegex).
Proof. do 3 apply needs_seq_right. apply needs_chr. Qed.

Lemma regexMatchRegex_needs_colon : needs ":" (compile false regexMatchRegex).
Proof. apply needs_chr. Qed.

Lemma regexMatchRegex_needs_paren : needs "(" (compile false regexMatchRegex).
Proof. do 2 apply needs_seq_right. apply needs_chr. Qed.

Lemma prefix_contains c p s :
  String.prefix (String c p) s = true -> contains c s = true.
Proof.
  destruct s as [|d s]; simpl; [discriminate|].
  destruct (ascii_dec c d) as [->|]; [|discriminate].
  intros _. rewrite Ascii.eqb_refl. reflexivity.
Qed.

Lemma prefix_same_head c p s :
  String.prefix (String c p) (String c s) = String.prefix p s.
Proof. simpl. destruct (ascii_dec c c); [reflexivity|congruence]. Qed.

Lemma prefix_other_head c d p s :
  c <> d -> String.prefix (String c p) (String d s) = false.
Proof. intros H. simpl. destruct (ascii_dec c d); [congruence|reflexivity]. Qed.

Lemma substring_whole s : substring 0 (String.length s) s = s.
Proof. induction s as [|c s IH]; simpl; [reflexivity|]. rewrite IH. reflexivity. Qed.

(** X1.  A segment without a colon, other than the wildcard marker, is static
    and keeps its text. *)
Theorem parseSegment_plain (segment : string) :
  contains ":" segment = false ->
  segment <> "*" ->
  parseSegment segment = mkParsedSegment static None (Some segment) None None.
Proof.
  intros Hc Hw. apply parseSegment_falls_through.
  - unfold JsString.startsWith. destruct (String.prefix "::" segment) eqn:E;
      [|reflexivity].
    apply prefix_contains in E. congruence.
  - apply String.eqb_neq. exact Hw.
  - destruct segment as [|d s]; [reflexivity|].
    unfold JsString.first_is. simpl in Hc. apply orb_false_elim in Hc as [Hd _].
    rewrite Hd. apply andb_false_r.
  - apply (exec_without_needed ":"); [apply suffixRegex_needs_colon|exact Hc].
  - apply (exec_without_needed ":"); [apply regexMatchRegex_needs_colon|exact Hc].
  - unfold JsString.startsWith. destruct (String.prefix ":" segment) eqn:E;
      [|reflexivity].
    apply prefix_contains in E. congruence.
Qed.

(** X2.  A colon followed by a name, without a second colon in front, a star
    at the end, a plus sign or an opening parenthesis, is a named
    parameter. *)
Theorem parseSegment_named (name : string) :
  let segment := String ":" name in
  JsString.first_is name ":" = false ->
  JsString.endsWith segment "*" = false ->
  contains "+" segment = false ->
  contains "(" segment = false ->
  parseSegment segment = mkParsedSegment named (Some name) None None None.
Proof.
  intros segment Hn He Hp Hq. unfold parseSegment.
  assert (H1 : JsString.startsWith segment "::" = false).
  { unfold JsString.startsWith, segment. rewrite prefix_same_head.
    destruct name as [|d s]; [reflexivity|]. simpl in Hn.
    apply prefix_other_head. intros <-. discriminate. }
  rewrite H1.
  assert (H2 : String.eqb segment "*" = false) by reflexivity.
  rewrite H2, He. cbn [andb].
  rewrite (exec_without_needed "+") by (apply suffixRegex_needs_plus || exact Hp).
  rewrite (exec_without_needed "(") by (apply regexMatchRegex_needs_paren || exact Hq).
  assert (H6 : JsString.startsWith segment ":" = true).
  { unfold JsString.startsWith, segment. rewrite prefix_same_head.
    destruct name; reflexivity. }
  rewrite H6. f_equal. f_equal.
  unfold JsString.slice_from, segment, JsString.clamp. cbn [String.length Z.ltb Z.compare].
  change (Z.to_nat 1) with 1%nat. cbn [Nat.min]. simpl.
  rewrite Nat.sub_0_r. apply substring_whole.
Qed.
End Engine.
(** ** What the normalization does to the separators *)

Section Slashes.
Import Regex.

Abbreviation slash := (one (chr_eq false "/")).

Lemma string_from_0 s : string_from 0 s = s.
Proof.
  unfold string_from. rewrite Nat.sub_0_r.
  induction s as [|c s IH]; simpl; [reflexivity|]. rewrite IH. reflexivity.
Qed.

Lemma string_from_S c s n : string_from (S n) (String c s) = string_from n s.
Proof. reflexivity. Qed.

Lemma string_from_length s : string_from (String.length s) s = "".
Proof. induction s as [|c s IH]; simpl; [reflexivity|]. exact IH. Qed.

Lemma substring_0_0 s : substring 0 0 s = "".
Proof. destruct s; reflexivity. Qed.

Lemma substring_n_0 n s : substring n 0 s = "".
Proof.
  revert n. induction s as [|c s IH]; intros [|n]; simpl; try reflexivity.
  apply IH.
Qed.

Lemma append_cons c (s t : string) : String c s +:+ t = String c (s +:+ t).
Proof. reflexivity. Qed.

Lemma append_nil (t : string) : "" +:+ t = t.
Proof. reflexivity. Qed.

Lemma string_app_empty (s : string) : s +:+ "" = s.
Proof.
  induction s as [|c s IH]; [reflexivity|]. rewrite append_cons, IH. reflexivity.
Qed.

(** The greedy loop over slashes, followed by nothing: it consumes the
    run. *)
Lemma repeat_slash_some n : forall t p,
  (String.length t <= n)%nat ->
  repeat_matcher slash [] n (MState p t []) Some
  = Some (MState (p + slash_run t) (without_leading_slashes t) []).
Proof.
  induction n as [|n IH]; intros t p Hn.
  - destruct t; [|simpl in Hn; lia]. simpl. rewrite Nat.add_0_r. reflexivity.
  - destruct t as [|a t].
    + simpl. rewrite Nat.add_0_r. reflexivity.
    + cbn [repeat_matcher clear one pos rest caps List.filter].
      unfold chr_eq. cbn [slash_run without_leading_slashes].
      rewrite (Ascii.eqb_sym "/" a).
      destruct (Ascii.eqb a "/").
      * cbn [pos]. replace (S p =? p)%nat with false
          by (symmetry; apply Nat.eqb_neq; lia).
        rewrite IH by (simpl in Hn; lia).
        cbn [orelse]. replace (p + S (slash_run t))%nat
          with (S p + slash_run t)%nat by lia. reflexivity.
      * cbn [orelse]. rewrite Nat.add_0_r. reflexivity.
Qed.

Lemma plus_slash_some t p :
  compile false slashes (MState p t []) Some
  = match t with
    | String c t' =>
        if Ascii.eqb c "/"
        then Some (MState (p + slash_run t) (without_leading_slashes t) [])
        else None
    | EmptyString => None
    end.
Proof.
  unfold slashes. destruct t as [|a t]; [reflexivity|].
  cbn [compile groups clear one pos rest caps List.filter].
  unfold chr_eq. cbn [slash_run without_leading_slashes].
  rewrite (Ascii.eqb_sym "/" a).
  destruct (Ascii.eqb a "/"); [|reflexivity].
  cbn [rest]. rewrite repeat_slash_some by lia.
  replace (p + S (slash_run t))%nat with (S p + slash_run t)%nat by lia.
  reflexivity.
Qed.

(** The greedy loop over slashes, followed by the end of the input. *)
Lemma repeat_slash_eol (c : cont) n :
  (forall y, c y = match rest y with EmptyString => Some y | String _ _ => None end) ->
  forall t p,
    (String.length t <= n)%nat ->
    repeat_matcher slash [] n (MState p t []) c
    = if all_slashes t then Some (MState (p + String.length t) "" []) else None.
Proof.
  intros Hc. induction n as [|n IH]; intros t p Hn.
  - destruct t; [|simpl in Hn; lia]. simpl. rewrite Hc, Nat.add_0_r. reflexivity.
  - destruct t as [|a t].
    + simpl. rewrite Hc, Nat.add_0_r. reflexivity.
    + cbn [repeat_matcher clear one pos rest caps List.filter].
      unfold chr_eq. cbn [all_slashes String.length].
      rewrite (Ascii.eqb_sym "/" a).
      destruct (Ascii.eqb a "/"); cbn [andb].
      * cbn [pos]. replace (S p =? p)%nat with false
          by (symmetry; apply Nat.eqb_neq; lia).
        rewrite IH by (simpl in Hn; lia).
        destruct (all_slashes t); cbn [orelse].
        -- replace (p + S (String.length t))%nat
             with (S p + String.length t)%nat by lia. reflexivity.
        -- rewrite Hc. reflexivity.
      * cbn [orelse]. rewrite Hc. reflexivity.
Qed.

Lemma trailing_slashes_at t p :
  compile false trailing_slashes (MState p t []) Some
  = if all_slashes t && nonempty t
    then Some (MState (p + String.length t) "" []) else None.
Proof.
  unfold trailing_slashes, seq, slashes.
  destruct t as [|a t]; [reflexivity|].
  cbn [fold_right compile groups clear one pos rest caps List.filter].
  unfold chr_eq.
  cbn [all_slashes String.length nonempty String.eqb negb].
  rewrite (Ascii.eqb_sym "/" a), andb_true_r.
  destruct (Ascii.eqb a "/"); [|reflexivity]. cbn [andb rest].
  rewrite repeat_slash_eol with (n := String.length t); [|reflexivity|lia].
  destruct (all_slashes t); [|reflexivity].
  replace (p + S (String.length t))%nat with (S p + String.length t)%nat by lia.
  reflexivity.
Qed.

Lemma without_trailing_length s :
  (String.length (without_trailing_slashes s) <= String.length s)%nat.
Proof.
  induction s as [|c s IH]; [simpl; lia|].
  cbn [without_trailing_slashes]. destruct (all_slashes _); simpl; lia.
Qed.

Lemma without_trailing_all s :
  all_slashes s = true -> without_trailing_slashes s = "".
Proof. destruct s as [|c s]; [reflexivity|]. intros H. simpl in *. rewrite H. reflexivity. Qed.

Lemma exec_trailing t : forall start,
  exec_from (compile false trailing_slashes) start t
  = if (String.length (without_trailing_slashes t) <? String.length t)%nat
    then Some (Found (start + String.length (without_trailing_slashes t))
                     (start + String.length t) [])
    else None.
Proof.
  induction t as [|a t IH]; intros start.
  - reflexivity.
  - cbn [exec_from]. rewrite trailing_slashes_at.
    cbn [nonempty String.eqb negb]. rewrite andb_true_r.
    cbn [without_trailing_slashes].
    destruct (all_slashes (String a t)) eqn:E.
    + cbn [pos caps String.length]. rewrite Nat.add_0_r. reflexivity.
    + rewrite IH. cbn [String.length].
      replace (S (String.length (without_trailing_slashes t)) <? S (String.length t))%nat
        with (String.length (without_trailing_slashes t) <? String.length t)%nat
        by reflexivity.
      destruct (_ <? _)%nat; [|reflexivity].
      f_equal. f_equal; lia.
Qed.

Lemma without_trailing_prefix s :
  substring 0 (String.length (without_trailing_slashes s)) s
  = without_trailing_slashes s.
Proof.
  induction s as [|c s IH]; [reflexivity|].
  cbn [without_trailing_slashes]. destruct (all_slashes _); [reflexivity|].
  cbn [String.length substring]. rewrite IH. reflexivity.
Qed.

Lemma without_trailing_same s :
  (String.length (without_trailing_slashes s) <? String.length s)%nat = false ->
  without_trailing_slashes s = s.
Proof.
  induction s as [|c s IH]; [reflexivity|].
  cbn [without_trailing_slashes]. destruct (all_slashes _); [discriminate|].
  cbn [String.length]. intros H. rewrite IH; [reflexivity|exact H].
Qed.

(** [s.replace(/\/+$/, '')] *)
Lemma replace_trailing_slashes s :
  replace trailing_slashes s "" = without_trailing_slashes s.
Proof.
  unfold replace, exec. rewrite exec_trailing.
  destruct (_ <? _)%nat eqn:E.
  - cbn [f_start f_end Nat.add]. rewrite Nat.sub_diag, substring_n_0.
    rewrite without_trailing_prefix, append_nil.
    apply string_app_empty.
  - symmetry. apply without_trailing_same. exact E.
Qed.

Lemma exec_leading_later t : forall start,
  (0 < start)%nat ->
  exec_from (compile false leading_slashes) start t = None.
Proof.
  induction t as [|a t IH]; intros start H.
  - simpl. destruct start; [lia|reflexivity].
  - cbn [exec_from]. replace (compile false leading_slashes _ Some) with (@None mstate).
    + apply IH. lia.
    + unfold leading_slashes, seq. cbn [fold_right compile pos].
      destruct start; [lia|reflexivity].
Qed.

Lemma without_leading_from s :
  string_from (slash_run s) s = without_leading_slashes s.
Proof.
  induction s as [|c s IH]; [reflexivity|].
  cbn [slash_run without_leading_slashes].
  destruct (Ascii.eqb c "/"); [exact IH|apply string_from_0].
Qed.

(** [s.replace(/^\/+/, '')] *)
Lemma replace_leading_slashes s :
  replace leading_slashes s "" = without_leading_slashes s.
Proof.
  unfold replace, exec. destruct s as [|a t]; [reflexivity|].
  cbn [exec_from].
  replace (compile false leading_slashes (MState 0 (String a t) []) Some)
    with (compile false slashes (MState 0 (String a t) []) Some)
    by reflexivity.
  rewrite plus_slash_some.
  destruct (Ascii.eqb a "/") eqn:E.
  - cbn [f_start f_end pos Nat.add]. rewrite substring_0_0, !append_nil.
    exact (without_leading_from (String a t)).
  - rewrite exec_leading_later by lia.
    cbn [without_leading_slashes]. rewrite E. reflexivity.
Qed.

Lemma exec_slashes t : forall start,
  exec_from (compile false slashes) start t
  = match find_slash t with
    | Some i =>
        Some (Found (start + i) (start + i + slash_run (string_from i t)) [])
    | None => None
    end.
Proof.
  induction t as [|a t IH]; intros start; [reflexivity|].
  cbn [exec_from find_slash]. rewrite plus_slash_some.
  destruct (Ascii.eqb a "/") eqn:E.
  - cbn [pos caps]. rewrite string_from_0, !Nat.add_0_r. reflexivity.
  - rewrite IH. destruct (find_slash t) as [i|]; [|reflexivity].
    cbn [fmap option_fmap option_map]. rewrite string_from_S.
    f_equal. f_equal; lia.
Qed.

Lemma string_from_empty n : string_from n "" = "".
Proof. destruct n; reflexivity. Qed.

Lemma string_from_add s : forall a b,
  string_from (a + b) s = string_from b (string_from a s).
Proof.
  induction s as [|c s IH]; intros a b.
  - rewrite !string_from_empty. reflexivity.
  - destruct a as [|a]; [rewrite string_from_0; reflexivity|].
    cbn [Nat.add]. rewrite !string_from_S. apply IH.
Qed.

Lemma substring_from s : forall start i,
  substring start i s = substring 0 i (string_from start s).
Proof.
  induction s as [|c s IH]; intros start i.
  - rewrite string_from_empty. destruct start, i; reflexivity.
  - destruct start as [|start]; [rewrite string_from_0; reflexivity|].
    rewrite string_from_S. cbn [substring]. apply IH.
Qed.

Lemma length_string_from s : forall a,
  String.length (string_from a s) = (String.length s - a)%nat.
Proof.
  induction s as [|c s IH]; intros a.
  - rewrite string_from_empty. reflexivity.
  - destruct a as [|a]; [rewrite string_from_0; reflexivity|].
    rewrite string_from_S. cbn [String.length]. rewrite IH. lia.
Qed.

Lemma slash_run_length s : (slash_run s <= String.length s)%nat.
Proof.
  induction s as [|c s IH]; [reflexivity|]. simpl.
  destruct (Ascii.eqb c "/"); lia.
Qed.

Lemma find_slash_run t : forall i,
  find_slash t = Some i ->
  (i < String.length t)%nat /\ (0 < slash_run (string_from i t))%nat.
Proof.
  induction t as [|a t IH]; intros i; [discriminate|].
  cbn [find_slash]. destruct (Ascii.eqb a "/") eqn:E.
  - intros H. inversion H; subst. rewrite string_from_0. simpl. rewrite E.
    split; lia.
  - destruct (find_slash t) as [j|]; [|discriminate].
    intros H. inversion H; subst. rewrite string_from_S.
    destruct (IH j eq_refl). simpl. split; [lia|assumption].
Qed.

Lemma collapse_no_slash t : find_slash t = None -> collapse_slashes t = t.
Proof.
  induction t as [|a t IH]; [reflexivity|].
  cbn [find_slash collapse_slashes]. destruct (Ascii.eqb a "/"); [discriminate|].
  destruct (find_slash t); [discriminate|]. intros _.
  cbn [andb]. rewrite IH by reflexivity. reflexivity.
Qed.

Lemma collapse_slash_run t :
  collapse_slashes (String "/" t)
  = String "/" (collapse_slashes (without_leading_slashes t)).
Proof.
  induction t as [|b u IH]; [reflexivity|].
  cbn [without_leading_slashes].
  change (collapse_slashes (String "/" (String b u)))
    with (if Ascii.eqb b "/" then collapse_slashes (String b u)
          else String "/" (collapse_slashes (String b u))).
  destruct (Ascii.eqb_spec b "/") as [->|Hb]; [exact IH|reflexivity].
Qed.

Lemma collapse_at_slash t : forall i,
  find_slash t = Some i ->
  collapse_slashes t
  = substring 0 i t +:+ "/"
    +:+ collapse_slashes (string_from (i + slash_run (string_from i t)) t).
Proof.
  induction t as [|a t IH]; intros i; [discriminate|].
  cbn [find_slash]. destruct (Ascii.eqb_spec a "/") as [->|Ha].
  - intros H. inversion H; subst. rewrite string_from_0.
    cbn [Nat.add]. rewrite substring_0_0, append_nil, without_leading_from.
    rewrite collapse_slash_run. reflexivity.
  - destruct (find_slash t) as [j|] eqn:E; [|discriminate].
    intros H. inversion H; subst. rewrite string_from_S.
    cbn [Nat.add]. rewrite string_from_S.
    cbn [substring collapse_slashes]. rewrite append_cons.
    replace (Ascii.eqb a "/") with false
      by (symmetry; apply Ascii.eqb_neq; exact Ha).
    cbn [andb]. f_equal. apply IH. reflexivity.
Qed.

Lemma replace_all_slashes_from n : forall s start,
  (start <= String.length s)%nat ->
  (String.length s - start < n)%nat ->
  replace_all_from slashes n start s "/"
  = collapse_slashes (string_from start s).
Proof.
  induction n as [|n IH]; intros s start Hs Hn; [lia|].
  cbn [replace_all_from].
  change (substring start (String.length s - start) s) with (string_from start s).
  rewrite exec_slashes.
  destruct (find_slash (string_from start s)) as [i|] eqn:E.
  - destruct (find_slash_run _ _ E) as [Hi Hrun].
    rewrite length_string_from in Hi.
    pose proof (slash_run_length (string_from i (string_from start s))) as Hle.
    rewrite !length_string_from in Hle.
    cbn [f_start f_end].
    replace (start + i + slash_run (string_from i (string_from start s))
             =? start + i)%nat with false
      by (symmetry; apply Nat.eqb_neq; lia).
    rewrite IH by lia.
    rewrite (collapse_at_slash _ _ E).
    replace (start + i - start)%nat with i by lia.
    rewrite (substring_from s start i).
    rewrite <- Nat.add_assoc, string_from_add. reflexivity.
  - symmetry. apply collapse_no_slash. exact E.
Qed.

(** [s.replace(/\/+/g, '/')] *)
Lemma replace_all_slashes s :
  replace_all slashes s "/" = collapse_slashes s.
Proof.
  unfold replace_all. rewrite replace_all_slashes_from by lia.
  rewrite string_from_0. reflexivity.
Qed.

End Slashes.

Section Segments.

Abbreviation pieces := (JsString.split "/").

Lemma split_slash t : pieces (String "/" t) = "" :: pieces t.
Proof. reflexivity. Qed.

Lemma split_other c t tok toks :
  Ascii.eqb c "/" = false ->
  pieces t = tok :: toks ->
  pieces (String c t) = String c tok :: toks.
Proof. intros Hc Ht. cbn [JsString.split]. rewrite Hc, Ht. reflexivity. Qed.

Lemma split_cons s : exists tok toks, pieces s = tok :: toks.
Proof.
  induction s as [|c s [tok [toks IH]]]; [eexists _, _; reflexivity|].
  destruct (Ascii.eqb_spec c "/") as [->|Hc].
  - eexists _, _. apply split_slash.
  - eexists _, _. apply split_other; [apply Ascii.eqb_neq; exact Hc|exact IH].
Qed.

Lemma filter_split_all_slashes s :
  all_slashes s = true -> List.filter nonempty (pieces s) = [].
Proof.
  induction s as [|c s IH]; [reflexivity|]. cbn [all_slashes].
  intros H. apply andb_prop in H as [Hc Hs].
  apply Ascii.eqb_eq in Hc as ->. rewrite split_slash.
  cbn [List.filter nonempty String.eqb negb]. apply IH. exact Hs.
Qed.

Lemma split_without_leading s :
  List.filter nonempty (pieces (without_leading_slashes s))
  = List.filter nonempty (pieces s).
Proof.
  induction s as [|c s IH]; [reflexivity|]. cbn [without_leading_slashes].
  destruct (Ascii.eqb_spec c "/") as [->|Hc]; [|reflexivity].
  rewrite split_slash. cbn [List.filter nonempty String.eqb negb]. exact IH.
Qed.

Lemma same_pieces_filter s s' :
  same_pieces s s' ->
  List.filter nonempty (pieces s') = List.filter nonempty (pieces s).
Proof.
  intros [tok [toks [toks' [-> [-> H]]]]]. cbn [List.filter]. rewrite H.
  reflexivity.
Qed.

Lemma same_pieces_slash s s' :
  same_pieces s s' -> same_pieces (String "/" s) (String "/" s').
Proof.
  intros H. exists "", (pieces s), (pieces s').
  rewrite !split_slash. repeat split. apply same_pieces_filter. exact H.
Qed.

Lemma same_pieces_other c s s' :
  Ascii.eqb c "/" = false ->
  same_pieces s s' -> same_pieces (String c s) (String c s').
Proof.
  intros Hc [tok [toks [toks' [H [H' E]]]]].
  exists (String c tok), toks, toks'.
  rewrite (split_other _ _ _ _ Hc H), (split_other _ _ _ _ Hc H'). auto.
Qed.

Lemma same_pieces_cons c s s' :
  same_pieces s s' -> same_pieces (String c s) (String c s').
Proof.
  destruct (Ascii.eqb_spec c "/") as [->|Hc].
  - apply same_pieces_slash.
  - apply same_pieces_other. apply Ascii.eqb_neq. exact Hc.
Qed.

Lemma split_without_trailing s : same_pieces s (without_trailing_slashes s).
Proof.
  induction s as [|c s IH].
  - exists "", [], []. auto.
  - cbn [without_trailing_slashes].
    destruct (all_slashes (String c s)) eqn:E; [|apply same_pieces_cons, IH].
    cbn [all_slashes] in E. apply andb_prop in E as [Hc Hs].
    apply Ascii.eqb_eq in Hc as ->.
    exists "", (pieces s), []. rewrite split_slash. repeat split.
    symmetry. apply filter_split_all_slashes. exact Hs.
Qed.

Lemma split_collapse s : same_pieces s (collapse_slashes s).
Proof.
  induction s as [|c s IH].
  - exists "", [], []. auto.
  - cbn [collapse_slashes].
    destruct (Ascii.eqb c "/" && JsString.first_is s "/") eqn:E;
      [|apply same_pieces_cons, IH].
    apply andb_prop in E as [Hc Hs]. apply Ascii.eqb_eq in Hc as ->.
    destruct s as [|d u]; [discriminate|]. cbn [JsString.first_is] in Hs.
    apply Ascii.eqb_eq in Hs as ->.
    destruct IH as [tok [toks [toks' [H [H' E]]]]].
    rewrite split_slash in H. inversion H; subst tok toks.
    exists "", ("" :: pieces u), toks'. rewrite !split_slash.
    repeat split; [exact H'|]. rewrite E. reflexivity.
Qed.

Lemma lower_char_slash c :
  Ascii.eqb (JsString.lower_char c) "/" = Ascii.eqb c "/".
Proof. destruct c as [[] [] [] [] [] [] [] []]; reflexivity. Qed.

Lemma split_toLowerCase s :
  pieces (JsString.toLowerCase s) = List.map JsString.toLowerCase (pieces s).
Proof.
  induction s as [|c s IH]; [reflexivity|].
  cbn [JsString.toLowerCase JsString.split]. rewrite lower_char_slash.
  destruct (Ascii.eqb c "/"); [cbn [List.map]; rewrite IH; reflexivity|].
  rewrite IH. destruct (pieces s); reflexivity.
Qed.

Lemma filter_map_toLowerCase l :
  List.filter nonempty (List.map JsString.toLowerCase l)
  = List.map JsString.toLowerCase (List.filter nonempty l).
Proof.
  induction l as [|s l IH]; [reflexivity|]. cbn [List.map List.filter].
  rewrite IH. destruct s; reflexivity.
Qed.

Lemma split_fold_case o s :
  List.filter nonempty (pieces (fold_case o s))
  = List.map (fold_case o) (List.filter nonempty (pieces s)).
Proof.
  unfold fold_case. destruct (ignoreCase o).
  - rewrite split_toLowerCase. apply filter_map_toLowerCase.
  - symmetry. apply List.map_id.
Qed.

Lemma route_segments_split (o : Options) (path : string) :
  route_segments o path
  = List.map (fold_case o) (List.filter nonempty (pieces path)).
Proof.
  unfold route_segments.
  rewrite replace_leading_slashes, replace_trailing_slashes.
  change (if ignoreCase o
          then JsString.toLowerCase
                 (without_trailing_slashes (without_leading_slashes path))
          else without_trailing_slashes (without_leading_slashes path))
    with (fold_case o (without_trailing_slashes (without_leading_slashes path))).
  change (fun segment : string => negb (String.eqb segment "")) with nonempty.
  assert (E : forall s, List.filter nonempty
                          (pieces (if fixedPath o
                                   then Regex.replace_all slashes s "/" else s))
                        = List.filter nonempty (pieces s)).
  { intros s. destruct (fixedPath o); [|reflexivity].
    rewrite replace_all_slashes. apply same_pieces_filter, split_collapse. }
  rewrite E, split_fold_case.
  rewrite (same_pieces_filter _ _ (split_without_trailing _)).
  rewrite split_without_leading. reflexivity.
Qed.

(** X3.  The segments that [addRoute] walks are the pieces of the pattern
    between slashes that are not empty, in lower case when [ignoreCase]
    is set: the three replacements of [normalizeRoutePath] do nothing
    that the filter does not do, and the options [fixedPath] and
    [trailingSlash] have no part in them. *)
Theorem route_segments_pieces (o : Options) (path : string) :
  route_segments o path
  = List.map (fold_case o) (List.filter nonempty (JsString.split "/" path))
  /\ (forall o' : Options,
        ignoreCase o' = ignoreCase o ->
        route_segments o' path = route_segments o path).
Proof.
  split; [apply route_segments_split|].
  intros o' Hi. rewrite !route_segments_split. unfold fold_case.
  rewrite Hi. reflexivity.
Qed.

End Segments.

Section Loops.

Lemma skip_leading_spec (segments : list string) : forall budget i,
  (i <= length segments)%nat ->
  (length segments - i <= budget)%nat ->
  let r := skip_leading budget segments i in
  (i <= r <= length segments)%nat
  /\ drop r segments = drop_empty (drop i segments)
  /\ (forall j, (i <= j < r)%nat -> nth j segments "" = "").
Proof.
  induction budget as [|b IH]; intros i Hi Hb; cbn [skip_leading].
  - cbv zeta. split; [lia|]. split; [|intros j Hj; lia].
    rewrite drop_ge by lia. reflexivity.
  - destruct (Nat.ltb_spec i (length segments)) as [Hlt|Hge]; cbn [andb].
    + rewrite (drop_nth _ _ "" Hlt). cbn [drop_empty].
      destruct (String.eqb_spec (nth i segments "") "") as [E|E].
      * destruct (IH (i + 1)%nat ltac:(lia) ltac:(lia)) as [Hr [Hd Hj]].
        cbv zeta in *. split; [lia|]. split.
        -- rewrite Hd. replace (i + 1)%nat with (S i) by lia. reflexivity.
        -- intros j Hij. destruct (decide (j = i)) as [->|]; [exact E|].
           apply Hj. lia.
      * cbv zeta. split; [lia|]. split; [|intros j Hj; lia].
        apply (drop_nth _ _ "" Hlt).
    + cbv zeta. split; [lia|]. split; [|intros j Hj; lia].
      rewrite !drop_ge by lia. reflexivity.
Qed.

Lemma skip_trailing_spec (segments : list string) (i : nat) : forall budget k,
  (-1 <= k < Z.of_nat (length segments))%Z ->
  (k + 1 - Z.of_nat i <= Z.of_nat budget)%Z ->
  let r := skip_trailing budget segments i k in
  (r <= k)%Z /\ (Z.of_nat i - 1 <= r \/ r = k)%Z
  /\ (forall j, (r < Z.of_nat j <= k)%Z -> nth j segments "" = "")
  /\ ((r < Z.of_nat i)%Z \/ nth (Z.to_nat r) segments "" <> "").
Proof.
  induction budget as [|b IH]; intros k Hk Hb; cbn [skip_trailing].
  - cbv zeta. split; [lia|]. split; [lia|]. split; [intros j Hj; lia|]. lia.
  - destruct (Z.leb_spec (Z.of_nat i) k) as [Hle|Hgt]; cbn [andb].
    + destruct (String.eqb_spec (nth (Z.to_nat k) segments "") "") as [E|E].
      * destruct (IH (k - 1)%Z ltac:(lia) ltac:(lia)) as [Hr [Hi [Hj Hs]]].
        cbv zeta in *. split; [lia|]. split; [lia|]. split; [|exact Hs].
        intros j Hjk. destruct (decide (Z.of_nat j = k)) as [<-|].
        -- rewrite Nat2Z.id in E. exact E.
        -- apply Hj. lia.
      * cbv zeta. split; [lia|]. split; [lia|].
        split; [intros j Hj; lia|]. right. exact E.
    + cbv zeta. split; [lia|]. split; [lia|].
      split; [intros j Hj; lia|]. left. lia.
Qed.

Lemma copy_content_spec (segments : list string) (useFixedPath : bool) :
  forall count m filtered,
    (m + count <= length segments)%nat ->
    copy_content count segments m useFixedPath filtered
    = filtered
      ++ (if useFixedPath
          then List.filter nonempty (take count (drop m segments))
          else take count (drop m segments)).
Proof.
  induction count as [|n IH]; intros m filtered Hm; cbn [copy_content].
  - cbn [take]. destruct useFixedPath; cbn [List.filter];
      rewrite app_nil_r; reflexivity.
  - rewrite IH by lia.
    rewrite (drop_nth segments m "") by lia. cbn [take].
    replace (m + 1)%nat with (S m) by lia.
    destruct useFixedPath; cbn [negb orb List.filter].
    + rewrite orb_false_r. unfold nonempty at 2.
      destruct (negb (String.eqb (nth m segments "") ""));
        [rewrite <- app_assoc|]; reflexivity.
    + rewrite orb_true_r, <- app_assoc. reflexivity.
Qed.

Lemma drop_all_empty (segments : list string) : forall n,
  (forall j, (n <= j < length segments)%nat -> nth j segments "" = "") ->
  drop n segments = replicate (length segments - n) "".
Proof.
  induction segments as [|s l IH]; intros n H.
  - rewrite drop_nil. reflexivity.
  - destruct n as [|n].
    + rewrite drop_0. cbn [length]. rewrite Nat.sub_0_r. cbn [replicate].
      pose proof (H 0%nat ltac:(simpl; lia)) as H0. cbn [nth] in H0. subst s.
      f_equal. rewrite <- (drop_0 l) at 1.
      rewrite (IH 0%nat), Nat.sub_0_r; [reflexivity|].
      intros j Hj. apply (H (S j)). simpl. lia.
    + cbn [drop length Nat.sub]. apply IH.
      intros j Hj. apply (H (S j)). simpl. lia.
Qed.

Lemma take_all_empty (segments : list string) : forall n,
  (forall j, (j < n)%nat -> nth j segments "" = "") ->
  List.filter nonempty (take n segments) = [].
Proof.
  induction segments as [|s l IH]; intros n H; [rewrite take_nil; reflexivity|].
  destruct n as [|n]; [reflexivity|]. cbn [take List.filter].
  rewrite (H 0%nat ltac:(lia) : s = ""). cbn [nonempty String.eqb negb].
  apply IH. intros j Hj. apply (H (S j)). lia.
Qed.

Lemma filter_replicate_empty n :
  List.filter nonempty (replicate n "") = [].
Proof. induction n as [|n IH]; [reflexivity|exact IH]. Qed.

(** The two index loops of [_matchPath] on the pieces of a path. *)
Lemma content_bounds (segments : list string) :
  let i := skip_leading (length segments) segments 0 in
  let k := skip_trailing (length segments) segments i
             (Z.of_nat (length segments) - 1) in
  let contentEnd := Z.to_nat (k + 1) in
  (i <= contentEnd <= length segments)%nat
  /\ drop i segments = drop_empty segments
  /\ (forall j, (j < i)%nat -> nth j segments "" = "")
  /\ (forall j, (contentEnd <= j < length segments)%nat -> nth j segments "" = "").
Proof.
  intros i k contentEnd.
  destruct (skip_leading_spec segments (length segments) 0%nat
              ltac:(lia) ltac:(lia)) as [Hi [Hd Hj]].
  fold i in Hi, Hd, Hj. rewrite drop_0 in Hd.
  destruct (skip_trailing_spec segments i (length segments)
              (Z.of_nat (length segments) - 1)%Z ltac:(lia) ltac:(lia))
    as [Hk [Hik [Hkj _]]].
  fold k in Hk, Hik, Hkj.
  split; [subst contentEnd; lia|]. split; [exact Hd|].
  split; [intros j H; apply Hj; lia|].
  intros j H. apply Hkj. subst contentEnd. lia.
Qed.

(** X4.  The first variant hands to [_match] the pieces of the path, folded,
    without the empty ones at the start: the empty pieces inside and at
    the end stay. *)
Theorem exact_variant_segments (o : Options) (path : string) :
  filtered_segments o path false false
  = drop_empty (JsString.split "/" (fold_case o path)).
Proof.
  unfold filtered_segments. cbv zeta.
  change (if ignoreCase o then JsString.toLowerCase path else path)
    with (fold_case o path).
  set (segments := JsString.split "/" (fold_case o path)).
  destruct (content_bounds segments) as [Hb [Hd [_ Hend]]]. cbv zeta in *.
  set (i := skip_leading (length segments) segments 0) in *.
  set (k := skip_trailing (length segments) segments i
              (Z.of_nat (length segments) - 1)) in *.
  set (contentEnd := Z.to_nat (k + 1)) in *.
  rewrite copy_content_spec by lia. cbn [app negb andb].
  assert (E : drop i segments
              = take (contentEnd - i) (drop i segments)
                ++ replicate (length segments - contentEnd) "").
  { rewrite <- (drop_all_empty segments contentEnd Hend).
    replace (drop contentEnd segments)
      with (drop (contentEnd - i) (drop i segments))
      by (rewrite drop_drop; f_equal; lia).
    symmetry. apply take_drop. }
  rewrite <- Hd. etransitivity; [|symmetry; exact E].
  destruct (Nat.ltb_spec 0 (length segments - contentEnd)) as [|Hz];
    [reflexivity|].
  replace (length segments - contentEnd)%nat with 0%nat by lia.
  cbn [replicate]. rewrite ?app_nil_r. reflexivity.
Qed.

(** X5.  The variant that collapses the separators and trims the trailing
    ones hands to [_match] the segments that [addRoute] walks for the
    same string. *)
Theorem lenient_variant_segments (o : Options) (path : string) :
  filtered_segments o path true true = route_segments o path.
Proof.
  rewrite route_segments_split.
  unfold filtered_segments. cbv zeta.
  rewrite replace_all_slashes, replace_trailing_slashes.
  change (if ignoreCase o
          then JsString.toLowerCase
                 (without_trailing_slashes (collapse_slashes path))
          else without_trailing_slashes (collapse_slashes path))
    with (fold_case o (without_trailing_slashes (collapse_slashes path))).
  set (segments := JsString.split "/" (fold_case o _)).
  destruct (content_bounds segments) as [Hb [Hd [Hstart Hend]]]. cbv zeta in *.
  set (i := skip_leading (length segments) segments 0) in *.
  set (k := skip_trailing (length segments) segments i
              (Z.of_nat (length segments) - 1)) in *.
  set (contentEnd := Z.to_nat (k + 1)) in *.
  rewrite copy_content_spec by lia. cbn [app negb andb].
  transitivity (List.filter nonempty segments).
  - assert (E : segments
                = take i segments
                  ++ take (contentEnd - i) (drop i segments)
                  ++ replicate (length segments - contentEnd) "").
    { rewrite <- (drop_all_empty segments contentEnd Hend).
      replace (drop contentEnd segments)
        with (drop (contentEnd - i) (drop i segments))
        by (rewrite drop_drop; f_equal; lia).
      rewrite take_drop, take_drop. reflexivity. }
    etransitivity; [|symmetry; exact (f_equal (List.filter nonempty) E)].
    rewrite !List.filter_app.
    rewrite (take_all_empty segments i Hstart), filter_replicate_empty.
    rewrite app_nil_r. reflexivity.
  - subst segments. rewrite split_fold_case.
    rewrite (same_pieces_filter _ _ (split_without_trailing _)).
    rewrite (same_pieces_filter _ _ (split_collapse _)). reflexivity.
Qed.

End Loops.

(** ** The order of the normalization variants *)

Section Tokens.

Abbreviation pieces := (JsString.split "/").

Lemma drop_empty_end_cons segment rest :
  drop_empty_end (segment :: rest)
  = if bool_decide (drop_empty_end rest = []) && String.eqb segment ""
    then [] else segment :: drop_empty_end rest.
Proof.
  cbn [drop_empty_end]. destruct (drop_empty_end rest); [|reflexivity].
  rewrite bool_decide_eq_true_2 by reflexivity. cbn [andb].
  destruct (String.eqb segment ""); reflexivity.
Qed.

Lemma drop_empty_end_replicate n : drop_empty_end (replicate n "") = [].
Proof. induction n as [|n IH]; [reflexivity|]. cbn [replicate drop_empty_end]. rewrite IH. reflexivity. Qed.

Lemma drop_empty_end_app_replicate l n :
  drop_empty_end (l ++ replicate n "") = drop_empty_end l.
Proof.
  induction l as [|s l IH]; [apply drop_empty_end_replicate|].
  cbn [app]. rewrite !drop_empty_end_cons, IH. reflexivity.
Qed.

Lemma drop_empty_end_snoc l s :
  s <> "" -> drop_empty_end (l ++ [s]) = l ++ [s].
Proof.
  intros Hs. induction l as [|a l IH].
  - cbn [app drop_empty_end]. destruct (String.eqb_spec s ""); [contradiction|reflexivity].
  - cbn [app]. rewrite drop_empty_end_cons, IH.
    rewrite bool_decide_eq_false_2; [reflexivity|]. destruct l; discriminate.
Qed.

Lemma drop_empty_end_length l : (length (drop_empty_end l) <= length l)%nat.
Proof.
  induction l as [|s l IH]; [reflexivity|]. rewrite drop_empty_end_cons.
  destruct (_ && _); simpl; lia.
Qed.

Lemma drop_empty_end_drop_empty l :
  drop_empty_end (drop_empty l) = drop_empty (drop_empty_end l).
Proof.
  induction l as [|s l IH]; [reflexivity|]. cbn [drop_empty].
  rewrite drop_empty_end_cons.
  destruct (String.eqb s "") eqn:Es.
  - rewrite IH, andb_true_r.
    destruct (bool_decide (drop_empty_end l = [])) eqn:E.
    + apply bool_decide_eq_true_1 in E. rewrite E. reflexivity.
    + cbn [drop_empty]. rewrite Es. reflexivity.
  - rewrite andb_false_r, drop_empty_end_cons, Es, andb_false_r.
    cbn [drop_empty]. rewrite Es. reflexivity.
Qed.

Lemma filter_drop_empty_end l :
  List.filter nonempty (drop_empty_end l) = List.filter nonempty l.
Proof.
  induction l as [|s l IH]; [reflexivity|]. rewrite drop_empty_end_cons.
  cbn [List.filter]. rewrite <- IH. unfold nonempty at 2.
  destruct (bool_decide (drop_empty_end l = [])) eqn:E; cbn [andb].
  - apply bool_decide_eq_true_1 in E. rewrite E.
    destruct (String.eqb s "") eqn:Es; cbn [negb List.filter]; [reflexivity|].
    unfold nonempty. rewrite Es. reflexivity.
  - cbn [List.filter]. unfold nonempty at 1. reflexivity.
Qed.

Lemma filter_drop_empty l :
  List.filter nonempty (drop_empty l) = List.filter nonempty l.
Proof.
  induction l as [|s l IH]; [reflexivity|]. cbn [drop_empty].
  unfold nonempty in *.
  destruct (String.eqb s "") eqn:Es; cbn [List.filter]; rewrite Es; cbn [negb].
  - exact IH.
  - reflexivity.
Qed.

(** There are trailing empty tokens when the last token is empty and
    some token is not. *)
Lemma trailing_ends_empty l :
  (0 <? length l - length (drop_empty_end l))%nat = ends_empty l.
Proof.
  induction l as [|s l IH]; [reflexivity|].
  pose proof (drop_empty_end_length l) as Hle.
  rewrite drop_empty_end_cons. cbn [ends_empty].
  destruct (bool_decide (drop_empty_end l = [])) eqn:E; cbn [andb].
  - apply bool_decide_eq_true_1 in E. rewrite E in IH |- *.
    destruct l as [|a l].
    + destruct (String.eqb s ""); reflexivity.
    + rewrite <- IH. destruct (String.eqb s ""); reflexivity.
  - destruct l as [|a l]; [rewrite bool_decide_eq_true_2 in E by reflexivity;
                            discriminate|].
    rewrite <- IH. cbn [length]. 
    replace (S (S (length l)) - S (length (drop_empty_end (a :: l))))%nat
      with (S (length l) - length (drop_empty_end (a :: l)))%nat by lia.
    reflexivity.
Qed.

Lemma ends_empty_drop_empty l :
  ends_empty (drop_empty l) = ends_empty l && existsb nonempty l.
Proof.
  induction l as [|s l IH]; [reflexivity|]. cbn [drop_empty existsb].
  change (nonempty s) with (negb (String.eqb s "")).
  destruct (String.eqb s "") eqn:Es; cbn [negb orb].
  - destruct l as [|a l]; [cbn [existsb]; rewrite andb_false_r; reflexivity|].
    rewrite IH. reflexivity.
  - rewrite andb_true_r. reflexivity.
Qed.

Lemma existsb_filter_nonempty l :
  existsb nonempty l = (0 <? length (List.filter nonempty l))%nat.
Proof.
  induction l as [|s l IH]; [reflexivity|]. cbn [existsb List.filter].
  destruct (nonempty s); [reflexivity|exact IH].
Qed.


(** The last token that the loop [while (k >= i && ...) k--] leaves is
    not empty. *)
Lemma content_last (segments : list string) :
  let i := skip_leading (length segments) segments 0 in
  let k := skip_trailing (length segments) segments i
             (Z.of_nat (length segments) - 1) in
  let contentEnd := Z.to_nat (k + 1) in
  contentEnd = i
  \/ (i < contentEnd)%nat /\ nth (contentEnd - 1) segments "" <> "".
Proof.
  intros i k contentEnd.
  destruct (content_bounds segments) as [Hb _]. cbv zeta in Hb.
  fold i in Hb. fold k in Hb. fold contentEnd in Hb.
  destruct (skip_trailing_spec segments i (length segments)
              (Z.of_nat (length segments) - 1)%Z ltac:(lia) ltac:(lia))
    as [_ [_ [_ Hlast]]].
  fold k in Hlast. destruct Hlast as [Hlt|Hne].
  - left. subst contentEnd. lia.
  - destruct (decide (contentEnd = i)) as [|Hd]; [left; assumption|right].
    split; [lia|]. subst contentEnd.
    replace (Z.to_nat (k + 1) - 1)%nat with (Z.to_nat k) by lia. exact Hne.
Qed.

(** The loops of [_matchPath] on a list of tokens. *)
Lemma loops_copied (segments : list string) (useFixedPath useTrailingSlash : bool) :
  (let i := skip_leading (length segments) segments 0 in
   let k := skip_trailing (length segments) segments i
              (Z.of_nat (length segments) - 1) in
   let contentEnd := Z.to_nat (k + 1) in
   let trailingEmptiesCount := (length segments - contentEnd)%nat in
   let filtered := copy_content (contentEnd - i) segments i useFixedPath [] in
   let addTrailing :=
     negb useTrailingSlash && (0 <? trailingEmptiesCount)%nat in
   if addTrailing then
     let numToAdd := if useFixedPath then 1%nat else trailingEmptiesCount in
     filtered ++ replicate numToAdd ""
   else filtered)
  = copied_tokens segments useFixedPath useTrailingSlash.
Proof.
  cbv zeta.
  destruct (content_bounds segments) as [Hb [Hd [_ Hend]]].
  pose proof (content_last segments) as Hlast. cbv zeta in *.
  set (i := skip_leading (length segments) segments 0) in *.
  set (k := skip_trailing (length segments) segments i
              (Z.of_nat (length segments) - 1)) in *.
  set (contentEnd := Z.to_nat (k + 1)) in *.
  rewrite copy_content_spec by lia. cbn [app].
  set (content := take (contentEnd - i) (drop i segments)).
  assert (E : drop_empty segments
              = content ++ replicate (length segments - contentEnd) "").
  { rewrite <- Hd, <- (drop_all_empty segments contentEnd Hend).
    replace (drop contentEnd segments)
      with (drop (contentEnd - i) (drop i segments))
      by (rewrite drop_drop; f_equal; lia).
    symmetry. apply take_drop. }
  assert (Hc : drop_empty_end content = content).
  { destruct Hlast as [He|[Hlt Hne]].
    - subst content. rewrite He, Nat.sub_diag. reflexivity.
    - subst content.
      replace (contentEnd - i)%nat with (S (contentEnd - 1 - i)) by lia.
      assert (Hl : drop i segments !! (contentEnd - 1 - i)%nat
                   = Some (nth (contentEnd - 1) segments "")).
      { rewrite lookup_drop.
        replace (i + (contentEnd - 1 - i))%nat with (contentEnd - 1)%nat by lia.
        destruct (nth_lookup_or_length segments (contentEnd - 1) "") as [Hn|Hn];
          [exact Hn|lia]. }
      rewrite (take_S_r _ _ _ Hl). apply drop_empty_end_snoc. exact Hne. }
  unfold copied_tokens.
  rewrite E, drop_empty_end_app_replicate, Hc.
  rewrite length_app, length_replicate.
  replace (length content + (length segments - contentEnd) - length content)%nat
    with (length segments - contentEnd)%nat by lia.
  destruct (negb useTrailingSlash && (0 <? length segments - contentEnd)%nat);
    [reflexivity|].
  rewrite app_nil_r. reflexivity.
Qed.


(** The replacements of [_matchPath] and the case folding can change
    places. *)
Lemma all_slashes_toLowerCase s :
  all_slashes (JsString.toLowerCase s) = all_slashes s.
Proof.
  induction s as [|c s IH]; [reflexivity|].
  cbn [JsString.toLowerCase all_slashes]. rewrite lower_char_slash, IH.
  reflexivity.
Qed.

Lemma without_trailing_toLowerCase s :
  without_trailing_slashes (JsString.toLowerCase s)
  = JsString.toLowerCase (without_trailing_slashes s).
Proof.
  induction s as [|c s IH]; [reflexivity|].
  cbn [JsString.toLowerCase without_trailing_slashes].
  change (String (JsString.lower_char c) (JsString.toLowerCase s))
    with (JsString.toLowerCase (String c s)) at 1.
  rewrite all_slashes_toLowerCase.
  destruct (all_slashes (String c s)); [reflexivity|].
  cbn [JsString.toLowerCase]. rewrite IH. reflexivity.
Qed.

Lemma first_is_toLowerCase s :
  JsString.first_is (JsString.toLowerCase s) "/" = JsString.first_is s "/".
Proof. destruct s as [|c s]; [reflexivity|]. apply lower_char_slash. Qed.

Lemma collapse_toLowerCase s :
  collapse_slashes (JsString.toLowerCase s)
  = JsString.toLowerCase (collapse_slashes s).
Proof.
  induction s as [|c s IH]; [reflexivity|].
  cbn [JsString.toLowerCase collapse_slashes].
  rewrite lower_char_slash, first_is_toLowerCase, IH.
  destruct (Ascii.eqb c "/" && JsString.first_is s "/"); reflexivity.
Qed.

(** The tokens of a string without its trailing slashes. *)
Lemma drop_empty_end_all_slashes s :
  all_slashes s = true -> drop_empty_end (pieces s) = [].
Proof.
  induction s as [|c s IH]; [reflexivity|]. cbn [all_slashes].
  intros H. apply andb_prop in H as [Hc Hs].
  apply Ascii.eqb_eq in Hc as ->. rewrite split_slash.
  rewrite drop_empty_end_cons, (IH Hs). reflexivity.
Qed.

Lemma split_without_trailing_end s :
  exists tok toks toks',
    pieces s = tok :: toks /\ pieces (without_trailing_slashes s) = tok :: toks'
    /\ drop_empty_end toks' = drop_empty_end toks.
Proof.
  induction s as [|c s IH].
  - exists "", [], []. auto.
  - cbn [without_trailing_slashes].
    destruct (all_slashes (String c s)) eqn:E.
    + cbn [all_slashes] in E. apply andb_prop in E as [Hc Hs].
      apply Ascii.eqb_eq in Hc as ->.
      exists "", (pieces s), []. rewrite split_slash.
      rewrite (drop_empty_end_all_slashes s Hs). auto.
    + destruct IH as [tok [toks [toks' [H [H' Hd]]]]].
      destruct (Ascii.eqb_spec c "/") as [->|Hc].
      * exists "", (tok :: toks), (tok :: toks').
        rewrite !split_slash, H, H'. repeat split.
        rewrite !drop_empty_end_cons, Hd. reflexivity.
      * apply Ascii.eqb_neq in Hc.
        exists (String c tok), toks, toks'.
        rewrite (split_other _ _ _ _ Hc H), (split_other _ _ _ _ Hc H'). auto.
Qed.

Lemma drop_empty_end_without_trailing s :
  drop_empty_end (pieces (without_trailing_slashes s))
  = drop_empty_end (pieces s).
Proof.
  destruct (split_without_trailing_end s) as [tok [toks [toks' [-> [-> Hd]]]]].
  rewrite !drop_empty_end_cons, Hd. reflexivity.
Qed.

(** The tokens of a string in which the runs of slashes are collapsed. *)
Lemma split_collapse_end s :
  exists tok toks toks',
    pieces s = tok :: toks /\ pieces (collapse_slashes s) = tok :: toks'
    /\ ends_empty toks' = ends_empty toks
    /\ (toks' = [] <-> toks = []).
Proof.
  induction s as [|c s IH].
  - exists "", [], []. auto.
  - cbn [collapse_slashes].
    destruct IH as [tok [toks [toks' [H [H' [He Hn]]]]]].
    destruct (Ascii.eqb c "/" && JsString.first_is s "/") eqn:E.
    + apply andb_prop in E as [Hc Hs]. apply Ascii.eqb_eq in Hc as ->.
      destruct s as [|d u]; [discriminate|]. cbn [JsString.first_is] in Hs.
      apply Ascii.eqb_eq in Hs as ->.
      rewrite split_slash in H. inversion H; subst tok toks.
      exists "", ("" :: pieces u), toks'. rewrite !split_slash.
      split; [reflexivity|]. split; [exact H'|].
      destruct (split_cons u) as [a [l Hu]]. rewrite Hu in *.
      split.
      * rewrite He. reflexivity.
      * split; [|discriminate]. intros ->.
        destruct Hn as [Hn _]. specialize (Hn eq_refl). discriminate.
    + destruct (Ascii.eqb_spec c "/") as [->|Hc].
      * exists "", (tok :: toks), (tok :: toks').
        rewrite !split_slash, H, H'. split; [reflexivity|].
        split; [reflexivity|]. split; [|split; discriminate].
        cbn [ends_empty]. destruct toks as [|a l], toks' as [|a' l'];
          try reflexivity; try exact He.
        -- destruct Hn as [_ Hn]. specialize (Hn eq_refl). discriminate.
        -- destruct Hn as [Hn _]. specialize (Hn eq_refl). discriminate.
      * apply Ascii.eqb_neq in Hc.
        exists (String c tok), toks, toks'.
        rewrite (split_other _ _ _ _ Hc H), (split_other _ _ _ _ Hc H'). auto.
Qed.

Lemma ends_empty_collapse s :
  ends_empty (pieces (collapse_slashes s)) = ends_empty (pieces s).
Proof.
  destruct (split_collapse_end s) as [tok [toks [toks' [-> [-> [He Hn]]]]]].
  cbn [ends_empty]. destruct toks as [|a l], toks' as [|a' l'];
    try reflexivity; try exact He.
  - destruct Hn as [_ Hn]. specialize (Hn eq_refl). discriminate.
  - destruct Hn as [Hn _]. specialize (Hn eq_refl). discriminate.
Qed.

(** With [useFixedPath] set, the tokens copied are the ones that are not
    empty, and an empty one when the last token is empty and another one
    is not. *)
Lemma copied_tokens_fixed tokens useTrailingSlash :
  copied_tokens tokens true useTrailingSlash
  = List.filter nonempty tokens
    ++ (if negb useTrailingSlash
           && (ends_empty tokens
               && (0 <? length (List.filter nonempty tokens))%nat)
        then [""] else []).
Proof.
  unfold copied_tokens.
  rewrite filter_drop_empty_end, filter_drop_empty.
  rewrite trailing_ends_empty, ends_empty_drop_empty, existsb_filter_nonempty.
  reflexivity.
Qed.

(** The replacements of [_matchPath] remove nothing that its loops would
    copy. *)
Lemma copied_tokens_replaced s (useFixedPath useTrailingSlash : bool) :
  let collapsed := if useFixedPath then collapse_slashes s else s in
  let trimmed :=
    if useTrailingSlash then without_trailing_slashes collapsed else collapsed in
  copied_tokens (pieces trimmed) useFixedPath useTrailingSlash
  = copied_tokens (pieces s) useFixedPath useTrailingSlash.
Proof.
  cbv zeta. destruct useFixedPath.
  - rewrite !copied_tokens_fixed. destruct useTrailingSlash; cbn [negb andb].
    + rewrite (same_pieces_filter _ _ (split_without_trailing _)).
      rewrite (same_pieces_filter _ _ (split_collapse _)). reflexivity.
    + rewrite (same_pieces_filter _ _ (split_collapse _)).
      rewrite ends_empty_collapse. reflexivity.
  - destruct useTrailingSlash; [|reflexivity].
    unfold copied_tokens. cbn [negb andb].
    rewrite !drop_empty_end_drop_empty, drop_empty_end_without_trailing.
    reflexivity.
Qed.

(** The segments that [_matchPath] hands to [_match] are the tokens of
    [normalizeForMatch]. *)
Lemma filtered_segments_normalized (o : Options) (path : string)
    (useFixedPath useTrailingSlash : bool) :
  filtered_segments o path useFixedPath useTrailingSlash
  = normalizeForMatch path (ignoreCase o) useFixedPath useTrailingSlash.
Proof.
  unfold filtered_segments, normalizeForMatch. cbv zeta.
  etransitivity; [apply loops_copied|].
  rewrite <- (copied_tokens_replaced
                (if ignoreCase o then JsString.toLowerCase path else path)
                useFixedPath useTrailingSlash).
  cbv zeta. f_equal. f_equal.
  destruct useFixedPath, useTrailingSlash, (ignoreCase o);
    rewrite ?replace_all_slashes, ?replace_trailing_slashes,
            ?collapse_toLowerCase, ?without_trailing_toLowerCase;
    reflexivity.
Qed.

End Tokens.

Section Fallback.
Context {host : RegExpHost} {Handler : Type}.

(** C3.  [match] tries the variants in a fixed order and returns the
    results of the first one that yields a result, and the empty list
    when none does: the exact variant, with neither flag; the fixed-path
    variant, tried when [fixedPath] is set; the variant that trims the
    trailing separators, tried when [trailingSlash] is set, in which the
    separators are collapsed as [fixedPath] says.  The results of a
    variant are those of the matcher on the tokens of [normalizeForMatch]
    for the two flags, which are the segments that [_matchPath]
    computes: the leading empty tokens are left out in every variant,
    and the exact variant keeps the empty tokens inside and at the end.
    With the three options set, [/API//Foo/] matches the route
    [/api/foo]. *)
Theorem fallback_order :
  (forall (t : RouteTrie (Handler := Handler)) (path : string),
      let tokens := normalizeForMatch path (ignoreCase (options t)) in
      outcome (match_ path) t =
        Normal (first_nonempty
                  (List.map (fun v => _match (root t) (tokens (fst v) (snd v)) 0 ∅)
                     ([(false, false)]
                      ++ (if fixedPath (options t) then [(true, false)] else [])
                      ++ (if trailingSlash (options t)
                          then [(fixedPath (options t), true)] else [])))))
  /\ (forall (o : Options) (path : string) (useFixedPath useTrailingSlash : bool),
        filtered_segments o path useFixedPath useTrailingSlash
        = normalizeForMatch path (ignoreCase o) useFixedPath useTrailingSlash)
  /\ (forall h : Handler,
        outcome (match_ "/API//Foo/")
                (state_after (addRoute "/api/foo" h)
                             (new_RouteTrie (given_options true true true)))
        = Normal [mkMatchResult ∅ [h]]).
Proof.
  split; [|split].
  - intros t path tokens. unfold outcome. rewrite match_unfold.
    unfold variants, attempt, tokens. cbn [fst].
    destruct (fixedPath (options t)), (trailingSlash (options t));
      cbn [app List.map fst snd];
      rewrite ?filtered_segments_normalized; reflexivity.
  - apply filtered_segments_normalized.
  - intros h. vm_compute. reflexivity.
Qed.

End Fallback.

(** Without [fixedPath] the variant that trims collapses nothing:
    [/api//foo/] keeps its empty segment and matches nothing. *)
Lemma trimming_variant_follows_fixedPath :
  let t : RouteTrie (host := MiniRegExpHost) (Handler := nat) :=
    state_after (addRoute "/api/foo" 7%nat)
                (new_RouteTrie (given_options false false true)) in
  normalizeForMatch "/api//foo/" false false true = ["api"; ""; "foo"]
  /\ outcome (match_ "/api//foo/") t = Normal []
  /\ outcome (match_ "/api/foo/") t = Normal [mkMatchResult ∅ [7%nat]].
Proof. vm_compute. repeat split; reflexivity. Qed.

(** The separators at the start of a path are left out in the exact
    variant too: with the three options off, [//api/foo] matches the
    route [/api/foo], and [/api//foo] does not. *)
Lemma exact_variant_skips_leading_separators :
  let t : RouteTrie (host := MiniRegExpHost) (Handler := nat) :=
    state_after (addRoute "/api/foo" 7%nat) (new_RouteTrie strict_options) in
  normalizeForMatch "//api/foo" false false false = ["api"; "foo"]
  /\ outcome (match_ "//api/foo") t = Normal [mkMatchResult ∅ [7%nat]]
  /\ outcome (match_ "/api//foo") t = Normal [].
Proof. vm_compute. repeat split; reflexivity. Qed.

(** ** Suffixes and the rest of the path *)

Section Strings.

Lemma length_append (s t : string) :
  String.length (s +:+ t) = (String.length s + String.length t)%nat.
Proof.
  induction s as [|c s IH]; [reflexivity|].
  rewrite append_cons. cbn [String.length]. rewrite IH. reflexivity.
Qed.

Lemma substring_append_stem (s t : string) :
  substring 0 (String.length s) (s +:+ t) = s.
Proof.
  induction s as [|c s IH]; [rewrite append_nil; apply substring_0_0|].
  rewrite append_cons. cbn [String.length substring]. rewrite IH. reflexivity.
Qed.

Lemma substring_append_rest (s t : string) :
  substring (String.length s) (String.length t) (s +:+ t) = t.
Proof.
  induction s as [|c s IH].
  - rewrite append_nil. cbn [String.length].
    pose proof (string_from_0 t) as H. unfold string_from in H.
    rewrite Nat.sub_0_r in H. exact H.
  - rewrite append_cons. cbn [String.length substring]. exact IH.
Qed.

Lemma substring_split (s : string) : forall n,
  (n <= String.length s)%nat ->
  substring 0 n s +:+ substring n (String.length s - n) s = s.
Proof.
  induction s as [|c s IH]; intros n Hn.
  - destruct n; [reflexivity|simpl in Hn; lia].
  - destruct n as [|n].
    + rewrite substring_0_0, append_nil. exact (string_from_0 (String c s)).
    + cbn [String.length substring Nat.sub]. rewrite append_cons.
      rewrite IH by (simpl in Hn; lia). reflexivity.
Qed.

(** [(stem + suffix).endsWith(suffix)] *)
Lemma endsWith_append (stem suffix : string) :
  JsString.endsWith (stem +:+ suffix) suffix = true.
Proof.
  unfold JsString.endsWith. rewrite length_append.
  replace (String.length stem + String.length suffix - String.length suffix)%nat
    with (String.length stem) by lia.
  rewrite substring_append_rest, String.eqb_refl.
  rewrite andb_true_r. apply Nat.leb_le. lia.
Qed.

(** [s.slice(0, -suffix.length)] for a suffix that is not empty and not
    longer than [s]. *)
Lemma slice_without_suffix (s suffix : string) :
  suffix <> "" ->
  (String.length suffix <= String.length s)%nat ->
  JsString.slice s 0 (- Z.of_nat (String.length suffix))
  = substring 0 (String.length s - String.length suffix) s.
Proof.
  intros Hne Hle. unfold JsString.slice, JsString.clamp.
  assert (0 < String.length suffix)%nat by (destruct suffix; [congruence|simpl; lia]).
  destruct (Z.ltb_spec 0 0); [lia|].
  destruct (Z.ltb_spec (- Z.of_nat (String.length suffix)) 0); [|lia].
  cbn [Z.to_nat Nat.min]. rewrite Nat.sub_0_r. f_equal. lia.
Qed.

End Strings.

Section Binding.
Context {host : RegExpHost} {Handler : Type}.
Abbreviation Node := (TrieNode RegExp Handler).

(** X6.  A suffix parameter binds the segments that end with its suffix, to
    what stands before the suffix, and no other segment. *)
Theorem suffix_parameter_binds_stem (p : ParamChild RegExp Node)
    (suffix segment value : string) :
  p_type p = named_suffix ->
  p_suffix p = Some suffix ->
  suffix <> "" ->
  bind_param p segment = Some value <-> segment = value +:+ suffix.
Proof.
  intros Hty Hsf Hne. unfold bind_param. rewrite Hty, Hsf.
  change (unwrap (Some suffix)) with suffix. cbn [truthy].
  destruct (String.eqb_spec suffix "") as [|_]; [contradiction|].
  cbn [negb andb]. split.
  - destruct (JsString.endsWith segment suffix) eqn:E; [|discriminate].
    intros H. inversion H as [Hv]. clear H.
    unfold JsString.endsWith in E. apply andb_prop in E as [Hle Heq].
    apply Nat.leb_le in Hle. apply String.eqb_eq in Heq.
    rewrite slice_without_suffix by assumption.
    set (n := (String.length segment - String.length suffix)%nat) in *.
    transitivity (substring 0 n segment
                  +:+ substring n (String.length segment - n) segment).
    + symmetry. apply substring_split. lia.
    + f_equal. replace (String.length segment - n)%nat
        with (String.length suffix) by lia. exact Heq.
  - intros ->. rewrite endsWith_append.
    rewrite slice_without_suffix
      by (try assumption; rewrite length_append; lia).
    rewrite length_append.
    replace (String.length value + String.length suffix - String.length suffix)%nat
      with (String.length value) by lia.
    rewrite substring_append_stem. reflexivity.
Qed.

Lemma join_cons (tok : string) (toks : list string) :
  JsString.join "/" (tok :: toks)
  = match toks with [] => tok | _ :: _ => tok +:+ "/" +:+ JsString.join "/" toks end.
Proof. reflexivity. Qed.

Lemma join_split (s : string) :
  JsString.join "/" (JsString.split "/" s) = s.
Proof.
  induction s as [|c s IH]; [reflexivity|].
  destruct (split_cons s) as [tok [toks Hs]].
  destruct (Ascii.eqb_spec c "/") as [->|Hc].
  - rewrite split_slash, join_cons, Hs, <- Hs, IH. reflexivity.
  - apply Ascii.eqb_neq in Hc. rewrite (split_other _ _ _ _ Hc Hs).
    rewrite Hs in IH. rewrite join_cons in *.
    destruct toks; rewrite <- IH; reflexivity.
Qed.

Lemma join_drop_empty (s : string) :
  JsString.join "/" (drop_empty (JsString.split "/" s))
  = without_leading_slashes s.
Proof.
  induction s as [|c s IH]; [reflexivity|].
  cbn [without_leading_slashes].
  destruct (Ascii.eqb_spec c "/") as [->|Hc].
  - rewrite split_slash. cbn [drop_empty String.eqb]. exact IH.
  - apply Ascii.eqb_neq in Hc. destruct (split_cons s) as [tok [toks Hs]].
    rewrite <- (join_split (String c s)) at 2.
    rewrite (split_other _ _ _ _ Hc Hs). reflexivity.
Qed.

(** X7.  A catch-all child of the root that has handlers answers every path:
    the one result binds its name to the path, folded, without the
    slashes at its start. *)
Theorem root_catch_all_binds_path (t : RouteTrie (Handler := Handler))
    (name : string) (child : Node) (path : string) :
  root t = mkTrieNode [] [] (Some (name, child)) None [] ->
  handlers child <> [] ->
  outcome (match_ path) t
  = Normal [mkMatchResult
              {[name := without_leading_slashes (fold_case (options t) path)]}
              (handlers child)].
Proof.
  intros Hroot Hh. unfold outcome. rewrite match_unfold. cbn [fst]. f_equal.
  unfold variants. cbn [app List.map fst snd]. unfold attempt at 1.
  rewrite Hroot, _match_only_catch_all by assumption.
  rewrite first_nonempty_head by congruence.
  rewrite exact_variant_segments, join_drop_empty. reflexivity.
Qed.

End Binding.
(** ** The variants and the registry *)

Section Frame.
Context {host : RegExpHost} {Handler : Type}.

Lemma filter_nonempty_idem (l : list string) :
  List.filter nonempty (List.filter nonempty l) = List.filter nonempty l.
Proof.
  induction l as [|s l IH]; [reflexivity|]. cbn [List.filter].
  destruct (nonempty s) eqn:E; [|exact IH].
  cbn [List.filter]. rewrite E, IH. reflexivity.
Qed.

(** X8.  Whatever the variant, the segments handed to [_match] that are not
    empty are the segments that [addRoute] walks for the same string: the
    variants differ in the empty segments they keep. *)
Theorem variants_differ_in_empty_segments (o : Options) (path : string)
    (useFixedPath useTrailingSlash : bool) :
  List.filter nonempty (filtered_segments o path useFixedPath useTrailingSlash)
  = route_segments o path.
Proof.
  rewrite route_segments_split.
  unfold filtered_segments. cbv zeta.
  set (normalized :=
         if useTrailingSlash
         then Regex.replace trailing_slashes
                (if useFixedPath then Regex.replace_all slashes path "/" else path) ""
         else if useFixedPath then Regex.replace_all slashes path "/" else path).
  change (if ignoreCase o then JsString.toLowerCase normalized else normalized)
    with (fold_case o normalized).
  set (segments := JsString.split "/" (fold_case o normalized)).
  destruct (content_bounds segments) as [Hb [Hd [Hstart Hend]]]. cbv zeta in *.
  set (i := skip_leading (length segments) segments 0) in *.
  set (k := skip_trailing (length segments) segments i
              (Z.of_nat (length segments) - 1)) in *.
  set (contentEnd := Z.to_nat (k + 1)) in *.
  rewrite copy_content_spec by lia. cbn [app].
  transitivity (List.filter nonempty segments).
  - assert (E : segments
                = take i segments
                  ++ take (contentEnd - i) (drop i segments)
                  ++ replicate (length segments - contentEnd) "").
    { rewrite <- (drop_all_empty segments contentEnd Hend).
      replace (drop contentEnd segments)
        with (drop (contentEnd - i) (drop i segments))
        by (rewrite drop_drop; f_equal; lia).
      rewrite take_drop, take_drop. reflexivity. }
    etransitivity; [|symmetry; exact (f_equal (List.filter nonempty) E)].
    rewrite !List.filter_app.
    rewrite (take_all_empty segments i Hstart), filter_replicate_empty.
    rewrite app_nil_r. cbn [app].
    assert (Hcontent :
      List.filter nonempty
        (if useFixedPath
         then List.filter nonempty (take (contentEnd - i) (drop i segments))
         else take (contentEnd - i) (drop i segments))
      = List.filter nonempty (take (contentEnd - i) (drop i segments))).
    { destruct useFixedPath; [apply filter_nonempty_idem|reflexivity]. }
    destruct (negb useTrailingSlash && (0 <? length segments - contentEnd)%nat).
    + rewrite List.filter_app, filter_replicate_empty, app_nil_r. exact Hcontent.
    + exact Hcontent.
  - subst segments normalized. rewrite split_fold_case. f_equal.
    assert (Hc : forall s,
               List.filter nonempty
                 (JsString.split "/"
                    (if useFixedPath then Regex.replace_all slashes s "/" else s))
               = List.filter nonempty (JsString.split "/" s)).
    { intros s. destruct useFixedPath; [|reflexivity].
      rewrite replace_all_slashes. apply same_pieces_filter, split_collapse. }
    destruct useTrailingSlash; [|apply Hc].
    rewrite replace_trailing_slashes.
    rewrite (same_pieces_filter _ _ (split_without_trailing _)). apply Hc.
Qed.

(** X9.  The registry [routes] takes no part in routing: two tries with the
    same root and options answer every path alike, and a registration
    leaves them with the same root and ends the same way. *)
Theorem routes_take_no_part (t t' : RouteTrie (Handler := Handler))
    (path pattern : string) (h : Handler) :
  root t' = root t ->
  options t' = options t ->
  outcome (match_ path) t' = outcome (match_ path) t
  /\ root (state_after (addRoute pattern h) t')
     = root (state_after (addRoute pattern h) t)
  /\ outcome (addRoute pattern h) t' = outcome (addRoute pattern h) t.
Proof.
  intros Hr Ho. split; [|split].
  - apply match_same_root; [exact Ho|]. intros segs index params.
    rewrite Hr. reflexivity.
  - rewrite !addRoute_root, Hr, Ho. reflexivity.
  - rewrite !addRoute_outcome, Hr, Ho. reflexivity.
Qed.

End Frame.
(** ** A registered pattern is found *)

Section RoundTrip.
Context {host : RegExpHost} {Handler : Type}.
Abbreviation Node := (TrieNode RegExp Handler).
Abbreviation Result := (MatchResult Handler).

Lemma scan_params_reuse_same parsed (l : list (ParamChild RegExp Node)) start i n :
  scan_params parsed l start = Reuse i n ->
  exists p, l !! (i - start)%nat = Some p /\ p_node p = n
            /\ p_type p = ps_type parsed /\ Some (p_name p) = ps_name parsed
            /\ p_suffix p = ps_suffix parsed.
Proof.
  revert start. induction l as [|p l IH]; intros start; simpl; [discriminate|].
  intros H.
  assert (Hle : forall j m, scan_params parsed l j = Reuse i m -> (j <= i)%nat).
  { intros j m Hj. destruct (scan_params_reuse _ _ _ _ _ Hj) as [? [_ [_ ?]]]. lia. }
  assert (Hrest : scan_params parsed l (S start) = Reuse i n ->
            exists p0, (p :: l) !! (i - start)%nat = Some p0 /\ p_node p0 = n
              /\ p_type p0 = ps_type parsed /\ Some (p_name p0) = ps_name parsed
              /\ p_suffix p0 = ps_suffix parsed).
  { intros H'. pose proof (Hle _ _ H'). destruct (IH _ H') as [p0 [Hl Hp]].
    exists p0. replace (i - start)%nat with (S (i - S start)) by lia.
    split; [exact Hl|exact Hp]. }
  destruct (bool_decide (Some (p_name p) = ps_name parsed)) eqn:E1; [|auto].
  destruct (bool_decide (p_type p = ps_type parsed)) eqn:E2; [|auto].
  cbn [andb] in H.
  destruct (scanned_source parsed); [|discriminate].
  destruct (bool_decide (_ = a)) eqn:E3; [|auto].
  destruct (bool_decide (p_suffix p = ps_suffix parsed)) eqn:E4; [|auto].
  cbn [andb] in H. inversion H; subst.
  exists p. rewrite Nat.sub_diag.
  apply bool_decide_eq_true_1 in E1, E2, E4. auto.
Qed.

Lemma scanned_source_plain parsed :
  truthy (ps_regex parsed) = false -> scanned_source parsed = Normal None.
Proof. intros H. unfold scanned_source. rewrite H. reflexivity. Qed.

Lemma compile_regex_plain o parsed :
  truthy (ps_regex parsed) = false -> compile_regex o parsed = Normal None.
Proof. intros H. unfold compile_regex. rewrite H. reflexivity. Qed.

Lemma In_flat_map_alter {A B : Type} (g : A -> list B) (f : A -> A) (l : list A)
    (i : nat) (p : A) (r : B) :
  l !! i = Some p -> In r (g (f p)) -> In r (flat_map g (alter f i l)).
Proof.
  intros Hl Hr. apply in_flat_map. exists (f p). split; [|exact Hr].
  apply list_elem_of_In. apply list_elem_of_lookup. exists i.
  rewrite list_lookup_alter_eq, Hl. reflexivity.
Qed.


Lemma drop_cons_inv {A : Type} (l : list A) (index : nat) (v d : A) (r : list A) :
  drop index l = v :: r ->
  (index < length l)%nat /\ nth index l d = v /\ drop (S index) l = r.
Proof.
  revert index. induction l as [|x l IH]; intros [|index] H; simpl in *;
    try discriminate.
  - inversion H; subst. split; [lia|]. split; reflexivity.
  - destruct (IH _ H) as [H1 [H2 H3]]. split; [lia|]. split; assumption.
Qed.

Lemma _match_own_first (node : Node) (h : Handler) values index params :
  (length values <= index)%nat ->
  In (mkMatchResult params (handlers node ++ [h]))
     (_match (addHandler node h) values index params).
Proof.
  intros H. rewrite _match_unfold.
  destruct (Nat.leb_spec (length values) index); [|lia].
  cbn [addHandler handlers]. rewrite nonempty_length; [left; reflexivity|].
  destruct (handlers node); discriminate.
Qed.

Lemma In_match_static (node : Node) values index params child (r : Result) :
  (index < length values)%nat ->
  Map_get (nth index values "") (staticChildren node) = Some child ->
  In r (_match child values (index + 1) params) ->
  In r (_match node values index params).
Proof.
  intros Hi Hg Hr. rewrite _match_unfold.
  destruct (Nat.leb_spec (length values) index); [lia|].
  rewrite Hg. apply in_or_app. left. exact Hr.
Qed.

Lemma In_match_param (node : Node) values index params (r : Result) :
  (index < length values)%nat ->
  In r (flat_map (param_results (fun n q => _match n values (index + 1) q)
                                (nth index values "") params)
                 (paramChildren node)) ->
  In r (_match node values index params).
Proof.
  intros Hi Hr. rewrite _match_unfold.
  destruct (Nat.leb_spec (length values) index); [lia|].
  apply in_or_app. right. apply in_or_app. left. exact Hr.
Qed.

Lemma In_match_wildcard (node : Node) values index params w (r : Result) :
  (index < length values)%nat ->
  wildcardChild node = Some w ->
  In r (_match w values (length values) params) ->
  In r (_match node values index params).
Proof.
  intros Hi Hw Hr. rewrite _match_unfold.
  destruct (Nat.leb_spec (length values) index); [lia|].
  rewrite Hw. destruct (Nat.ltb_spec index (length values)); [|lia].
  apply in_or_app. right. apply in_or_app. right. apply in_or_app. right.
  exact Hr.
Qed.

(** The parameter branch, for a kind without a pattern: when the child
    binds the value, what a registration below the child makes findable
    is findable from the node. *)
Lemma param_branch_matches o (node : Node) pattern index (h : Handler) parsed
    values params value bound (P : Result -> Prop) :
  (index < length values)%nat ->
  nth index values "" = value ->
  truthy (ps_regex parsed) = false ->
  (forall p : ParamChild RegExp Node,
      p_type p = ps_type parsed -> p_suffix p = ps_suffix parsed ->
      bind_param p value = Some bound) ->
  (forall child : Node,
      snd (_addRoute o child pattern (index + 1) h) = Normal tt
      /\ exists r, P r
           /\ In r (_match (fst (_addRoute o child pattern (index + 1) h))
                      values (index + 1)
                      (<[unwrap (ps_name parsed) := bound]> params))) ->
  let result :=
    match scan_params parsed (paramChildren node) 0 with
    | ScanThrow e => (node, Throw e)
    | Reuse i paramNode =>
        let '(paramNode', c) :=
          _addRoute o paramNode pattern (index + 1) h in
        (set_paramChildren node
           (alter (fun param => set_p_node param paramNode') i
                  (paramChildren node)), c)
    | Absent =>
        match compile_regex o parsed with
        | Throw e => (node, Throw e)
        | Normal regexObj =>
            let '(paramNode', c) :=
              _addRoute o newTrieNode pattern (index + 1) h in
            (set_paramChildren node
               (paramChildren node
                ++ [mkParamChild (ps_type parsed) (unwrap (ps_name parsed))
                                 regexObj (ps_suffix parsed) paramNode']),
             c)
        end
    end in
  snd result = Normal tt
  /\ exists r, P r /\ In r (_match (fst result) values index params).
Proof.
  intros Hi Hv Hre Hbind Hrec result. subst result.
  destruct (scan_params parsed (paramChildren node) 0) as [i paramNode| |e] eqn:Hscan.
  - destruct (scan_params_reuse_same _ _ _ _ _ Hscan)
      as [p [Hl [Hn [Hty [Hnm Hsf]]]]].
    rewrite Nat.sub_0_r in Hl.
    destruct (Hrec paramNode) as [Hc [r [HP Hr]]].
    rewrite snd_let_pair, fst_let_pair. split; [exact Hc|].
    exists r. split; [exact HP|].
    apply In_match_param; [exact Hi|]. cbn [set_paramChildren paramChildren].
    eapply In_flat_map_alter; [exact Hl|].
    unfold param_results.
    change (bind_param (set_p_node p _) (nth index values ""))
      with (bind_param p (nth index values "")).
    rewrite Hv, (Hbind p Hty Hsf). cbn [set_p_node p_name p_node].
    rewrite <- Hnm in Hr. exact Hr.
  - rewrite compile_regex_plain by assumption.
    destruct (Hrec newTrieNode) as [Hc [r [HP Hr]]].
    rewrite snd_let_pair, fst_let_pair. split; [exact Hc|].
    exists r. split; [exact HP|].
    apply In_match_param; [exact Hi|]. cbn [set_paramChildren paramChildren].
    rewrite flat_map_app. apply in_or_app. right. cbn [flat_map].
    rewrite app_nil_r. unfold param_results.
    rewrite Hv. rewrite Hbind by reflexivity. cbn [p_name p_node].
    exact Hr.
  - exfalso. eapply scan_params_no_throw; [|exact Hscan].
    apply scanned_source_plain. exact Hre.
Qed.

Lemma plain_kinds_without_pattern segment :
  ps_type (parseSegment segment) = named
  \/ ps_type (parseSegment segment) = named_suffix ->
  truthy (ps_regex (parseSegment segment)) = false.
Proof.
  unfold parseSegment.
  repeat (match goal with
          | |- context [if ?b then _ else _] => destruct b eqn:?
          | |- context [match ?x with _ => _ end] => destruct x eqn:?
          end; cbn [ps_type ps_regex truthy];
          try (intros [?|?]; discriminate); try (intros; reflexivity);
          try (intros; assumption)).
Qed.

Lemma registered_pattern_matches_from o pattern values (h : Handler) bound :
  forall n index (node : Node) params,
    (length pattern - index = n)%nat ->
    path_bindings (drop index pattern) (drop index values) params = Some bound ->
    snd (_addRoute o node pattern index h) = Normal tt
    /\ exists earlier,
         In (mkMatchResult bound (earlier ++ [h]))
            (_match (fst (_addRoute o node pattern index h)) values index params).
Proof.
  induction n as [|n IH]; intros index node params Hn Hb.
  - rewrite drop_ge in Hb by lia. cbn [path_bindings] in Hb.
    destruct (drop index values) eqn:Hd; [|discriminate].
    inversion Hb; subst bound.
    assert (length values <= index)%nat.
    { apply (f_equal length) in Hd. rewrite length_drop in Hd. simpl in Hd. lia. }
    rewrite _addRoute_done by lia. split; [reflexivity|].
    exists (handlers node). apply _match_own_first. assumption.
  - assert (Hlt : (index < length pattern)%nat) by lia.
    rewrite (drop_nth _ _ "" Hlt) in Hb. cbn [path_bindings] in Hb.
    rewrite _addRoute_step by assumption. cbv zeta.
    set (segment := nth index pattern "") in *.
    destruct (decide (ps_type (parseSegment segment) = wildcard)) as [Hw|Hw].
    + rewrite bool_decide_eq_true_2 in Hb by assumption.
      destruct (drop index values) as [|value rest] eqn:Hd; [discriminate|].
      inversion Hb; subst bound.
      destruct (drop_cons_inv _ _ _ "" _ Hd) as [Hi _].
      rewrite Hw. rewrite _addRoute_done by lia. cbn [fst snd].
      split; [reflexivity|].
      eexists. eapply In_match_wildcard; [exact Hi|reflexivity|].
      apply _match_own_first. lia.
    + rewrite bool_decide_eq_false_2 in Hb by assumption.
      destruct (drop index values) as [|value rest] eqn:Hd; [discriminate|].
      destruct (drop_cons_inv _ _ _ "" _ Hd) as [Hi [Hv Hrest]].
      replace (S index) with (index + 1)%nat in * by lia.
      rewrite <- Hrest in Hb.
      unfold segment_binding in Hb. cbv zeta in Hb.
      destruct (ps_type (parseSegment segment)) eqn:Hty; try discriminate.
      * (* static *)
        destruct (String.eqb_spec (unwrap (ps_value (parseSegment segment))) value)
          as [Hk|]; [|discriminate].
        pose proof (Map_get_ensured (unwrap (ps_value (parseSegment segment)))
                      newTrieNode (staticChildren node)) as Hg.
        destruct (Map_get _ _) as [child|] eqn:Hget; [|congruence].
        destruct (IH (index + 1)%nat child params ltac:(lia) Hb) as [Hc [earlier Hr]].
        rewrite snd_let_pair, fst_let_pair. split; [exact Hc|].
        exists earlier. eapply In_match_static; [exact Hi| |exact Hr].
        cbn [set_staticChildren staticChildren]. rewrite Hv, <- Hk.
        apply Map_get_set.
      * (* named *)
        pose proof (param_branch_matches o node pattern index h
                  (parseSegment segment) values params value value
                  (fun r => exists earlier, r = mkMatchResult bound (earlier ++ [h]))
                  Hi Hv) as H.
        rewrite Hty in H. cbv zeta in H.
        destruct H as [Hc [r [[earlier ->] Hr]]].
        { apply plain_kinds_without_pattern. left. exact Hty. }
        { intros p Hp _. unfold bind_param. rewrite Hp. reflexivity. }
        { intros child.
          destruct (IH (index + 1)%nat child _ ltac:(lia) Hb) as [Hc [earlier Hr]].
          split; [exact Hc|]. eexists. split; [exists earlier; reflexivity|exact Hr]. }
        split; [exact Hc|]. exists earlier. exact Hr.
      * (* named-suffix *)
        destruct (truthy (ps_suffix (parseSegment segment))
                  && JsString.endsWith value
                       (unwrap (ps_suffix (parseSegment segment)))) eqn:Hs;
          [|discriminate].
        pose proof (param_branch_matches o node pattern index h
                  (parseSegment segment) values params value
                  (JsString.slice value 0
                     (- Z.of_nat (String.length
                                    (unwrap (ps_suffix (parseSegment segment))))))
                  (fun r => exists earlier, r = mkMatchResult bound (earlier ++ [h]))
                  Hi Hv) as H.
        rewrite Hty in H. cbv zeta in H.
        destruct H as [Hc [r [[earlier ->] Hr]]].
        { apply plain_kinds_without_pattern. right. exact Hty. }
        { intros p Hp Hsf. unfold bind_param. rewrite Hp, Hsf, Hs.
          reflexivity. }
        { intros child.
          destruct (IH (index + 1)%nat child _ ltac:(lia) Hb) as [Hc [earlier Hr]].
          split; [exact Hc|]. eexists. split; [exists earlier; reflexivity|exact Hr]. }
        split; [exact Hc|]. exists earlier. exact Hr.
Qed.

(** A pattern of static, named, suffix and wildcard segments, registered at
    any node, is found again: a list of values that the pattern accepts
    yields a result with the bindings of the pattern and the handler last,
    and the registration returns. *)
Lemma registered_pattern_matches o (node : Node) pattern values (h : Handler)
    params bound :
  path_bindings pattern values params = Some bound ->
  snd (_addRoute o node pattern 0 h) = Normal tt
  /\ exists earlier,
       In (mkMatchResult bound (earlier ++ [h]))
          (_match (fst (_addRoute o node pattern 0 h)) values 0 params).
Proof.
  intros H. apply registered_pattern_matches_from with (n := length pattern);
    [lia|exact H].
Qed.

(** X10.  A pattern of static, named, suffix and wildcard segments that is
    registered is found: [addRoute] returns, and for a path whose
    segments the pattern accepts, [match] returns a result with the
    bindings of the pattern whose last handler is the handler
    registered. *)
Theorem registered_route_matches (t : RouteTrie (Handler := Handler))
    (pattern path : string) (h : Handler) bound :
  path_bindings (route_segments (options t) pattern)
                (filtered_segments (options t) path false false) ∅ = Some bound ->
  outcome (addRoute pattern h) t = Normal tt
  /\ exists results earlier,
       outcome (match_ path) (state_after (addRoute pattern h) t) = Normal results
       /\ In (mkMatchResult bound (earlier ++ [h])) results.
Proof.
  intros H.
  destruct (registered_pattern_matches (options t) (root t) _ _ h _ _ H)
    as [Hc [earlier Hr]].
  split; [rewrite addRoute_outcome; exact Hc|].
  eexists. exists earlier. unfold outcome. rewrite match_unfold. cbn [fst].
  split; [reflexivity|].
  unfold variants. cbn [app List.map fst snd]. unfold attempt at 1.
  rewrite addRoute_root, addRoute_options.
  rewrite first_nonempty_head; [exact Hr|].
  intros E. rewrite E in Hr. exact Hr.
Qed.
End RoundTrip.
(** ** A trie with one route *)

Section SingleRoute.
Context {host : RegExpHost} {Handler : Type}.
Abbreviation Node := (TrieNode RegExp Handler).
Abbreviation Result := (MatchResult Handler).

Lemma _match_leaf_inside (hs : list Handler) values index params :
  (index < length values)%nat ->
  _match (mkTrieNode [] [] None None hs : Node) values index params = [].
Proof.
  intros H. rewrite _match_unfold.
  cbn [staticChildren paramChildren catchAllChild wildcardChild handlers
       catchAll_result Map_get flat_map app].
  destruct (Nat.leb_spec (length values) index); [lia|]. reflexivity.
Qed.

Lemma _match_inner_at_end (statics : list (string * Node))
    (ps : list (ParamChild RegExp Node)) (w : option Node) values index params :
  (length values <= index)%nat ->
  _match (mkTrieNode statics ps None w []) values index params = [].
Proof.
  intros H. rewrite _match_unfold.
  cbn [staticChildren paramChildren catchAllChild wildcardChild handlers
       catchAll_result length app].
  destruct (Nat.leb_spec (length values) index); [|lia]. reflexivity.
Qed.

Lemma drop_at_end {A : Type} (l : list A) index :
  (length l <= index)%nat -> drop index l = [].
Proof. intros H. apply drop_ge. exact H. Qed.

Lemma single_route_from o pattern (h : Handler) values :
  forallb plain_segment pattern = true ->
  forall n index j params,
    (length pattern - index = n)%nat ->
    _match (fst (_addRoute o newTrieNode pattern index h)) values j params
    = single_answer (drop index pattern) (drop j values) params h.
Proof.
  intros Hplain. induction n as [n IH] using lt_wf_ind.
  intros index j params Hn. unfold single_answer.
  destruct (le_lt_dec (length pattern) index) as [Hle|Hlt].
  - rewrite _addRoute_done by assumption. cbn [fst].
    unfold addHandler, newTrieNode.
    cbn [staticChildren paramChildren catchAllChild wildcardChild handlers app].
    rewrite (drop_at_end pattern) by assumption. cbn [path_bindings].
    destruct (le_lt_dec (length values) j) as [Hj|Hj].
    + rewrite (drop_at_end values) by assumption.
      rewrite _match_leaf by assumption. reflexivity.
    + rewrite (drop_nth values j "") by assumption.
      apply _match_leaf_inside. exact Hj.
  - assert (Hseg : plain_segment (nth index pattern "") = true).
    { rewrite forallb_forall in Hplain. apply Hplain. apply nth_In. exact Hlt. }
    assert (Hrec : forall j' params',
               _match (fst (_addRoute o newTrieNode pattern (index + 1) h))
                      values j' params'
               = single_answer (drop (index + 1) pattern) (drop j' values)
                               params' h).
    { intros j' params'.
      apply (IH (length pattern - (index + 1))%nat); [lia|reflexivity]. }
    unfold single_answer in Hrec.
    rewrite (drop_nth pattern index "") by assumption. cbn [path_bindings].
    rewrite _addRoute_step by assumption. cbv zeta.
    set (segment := nth index pattern "") in *.
    unfold plain_segment in Hseg. unfold newTrieNode in *.
    replace (S index) with (index + 1)%nat by lia.
    destruct (decide (ps_type (parseSegment segment) = wildcard)) as [Hw|Hw].
    + rewrite bool_decide_eq_true_2 by assumption. rewrite Hw.
      rewrite _addRoute_done by lia.
      unfold set_wildcardChild, addHandler.
      cbn [fst wildcardChild staticChildren paramChildren catchAllChild
           handlers app].
      destruct (le_lt_dec (length values) j) as [Hj|Hj].
      * rewrite (drop_at_end values) by assumption.
        apply _match_inner_at_end. exact Hj.
      * rewrite (drop_nth values j "") by assumption.
        rewrite _match_unfold.
        cbn [staticChildren paramChildren catchAllChild wildcardChild handlers
             catchAll_result Map_get flat_map app].
        destruct (Nat.leb_spec (length values) j); [lia|].
        destruct (Nat.ltb_spec j (length values)); [|lia].
        rewrite _match_leaf by lia. reflexivity.
    + rewrite bool_decide_eq_false_2 by assumption.
      destruct (le_lt_dec (length values) j) as [Hj|Hj].
      * rewrite (drop_at_end values) by assumption.
        destruct (ps_type (parseSegment segment)) eqn:Hty;
          try discriminate; try congruence.
        -- cbn [staticChildren Map_has existsb negb Map_set Map_get].
           rewrite String.eqb_refl, fst_let_pair.
           apply _match_inner_at_end. exact Hj.
        -- cbn [paramChildren scan_params].
           rewrite compile_regex_plain
             by (apply plain_kinds_without_pattern; left; exact Hty).
           rewrite fst_let_pair. apply _match_inner_at_end. exact Hj.
        -- cbn [paramChildren scan_params].
           rewrite compile_regex_plain
             by (apply plain_kinds_without_pattern; right; exact Hty).
           rewrite fst_let_pair. apply _match_inner_at_end. exact Hj.
      * rewrite (drop_nth values j "") by assumption.
        replace (S j) with (j + 1)%nat by lia.
        unfold segment_binding. cbv zeta. fold segment.
        destruct (ps_type (parseSegment segment)) eqn:Hty;
          try discriminate; try congruence.
        -- (* static *)
           cbn [staticChildren Map_has existsb negb Map_set Map_get].
           rewrite String.eqb_refl, fst_let_pair. rewrite _match_unfold.
           cbn [set_staticChildren staticChildren paramChildren catchAllChild
                wildcardChild handlers catchAll_result Map_set Map_get
                flat_map app].
           destruct (Nat.leb_spec (length values) j); [lia|].
           destruct (String.eqb (unwrap (ps_value (parseSegment segment)))
                                (nth j values "")).
           ++ rewrite app_nil_r. apply Hrec.
           ++ reflexivity.
        -- (* named *)
           cbn [paramChildren scan_params].
           rewrite compile_regex_plain
             by (apply plain_kinds_without_pattern; left; exact Hty).
           rewrite fst_let_pair. rewrite _match_unfold.
           cbn [set_paramChildren staticChildren paramChildren catchAllChild
                wildcardChild handlers catchAll_result Map_get flat_map app].
           destruct (Nat.leb_spec (length values) j); [lia|].
           unfold param_results, bind_param. cbn [p_type p_name p_node].
           rewrite !app_nil_r. apply Hrec.
        -- (* named-suffix *)
           cbn [paramChildren scan_params].
           rewrite compile_regex_plain
             by (apply plain_kinds_without_pattern; right; exact Hty).
           rewrite fst_let_pair. rewrite _match_unfold.
           cbn [set_paramChildren staticChildren paramChildren catchAllChild
                wildcardChild handlers catchAll_result Map_get flat_map app].
           destruct (Nat.leb_spec (length values) j); [lia|].
           unfold param_results, bind_param. cbn [p_type p_name p_node p_suffix].
           destruct (truthy (ps_suffix (parseSegment segment))
                     && JsString.endsWith (nth j values "")
                          (unwrap (ps_suffix (parseSegment segment)))).
           ++ rewrite !app_nil_r. apply Hrec.
           ++ reflexivity.
Qed.

(** X11.  A trie with one route, of static, named, suffix and wildcard
    segments, answers in every normalization variant exactly the paths
    that the pattern accepts, each with one result: the bindings of the
    pattern and the handler. *)
Theorem single_route_exact (given : RouteTrieOptions) (pattern : string)
    (h : Handler) (path : string) (useFixedPath useTrailingSlash : bool) :
  let t := new_RouteTrie given in
  forallb plain_segment (route_segments (options t) pattern) = true ->
  attempt (state_after (addRoute pattern h) t) path useFixedPath useTrailingSlash
  = single_answer
      (route_segments (options t) pattern)
      (filtered_segments (options t) path useFixedPath useTrailingSlash) ∅ h.
Proof.
  intros t Hplain. unfold attempt. rewrite addRoute_root, addRoute_options.
  change (root t) with (newTrieNode : Node).
  rewrite (single_route_from (options t) _ h _ Hplain
             (length (route_segments (options t) pattern) - 0)%nat 0%nat 0%nat ∅
             eq_refl).
  rewrite !drop_0. reflexivity.
Qed.

End SingleRoute.
(** ** What a registration leaves *)

Section Registrations.
Context {host : RegExpHost} {Handler : Type}.
Abbreviation Node := (TrieNode RegExp Handler).
Abbreviation Result := (MatchResult Handler).

(** *** What follows a wildcard *)

Lemma reached_segments_nil segments :
  reached_segments segments = [] -> segments = [].
Proof.
  destruct segments as [|s l]; [reflexivity|]. simpl.
  destruct (_ === _); discriminate.
Qed.

Lemma reached_segments_idem segments :
  reached_segments (reached_segments segments) = reached_segments segments.
Proof.
  induction segments as [|s l IH]; [reflexivity|]. simpl.
  destruct (ps_type (parseSegment s) === wildcard) eqn:E; simpl; rewrite E;
    [reflexivity|]. rewrite IH. reflexivity.
Qed.

Lemma _addRoute_reached_from o (h : Handler) :
  forall reached segments index segments' index' (node : Node),
    reached_segments (drop index segments) = reached ->
    reached_segments (drop index' segments') = reached ->
    _addRoute o node segments index h = _addRoute o node segments' index' h.
Proof.
  induction reached as [|s reached IH];
    intros segments index segments' index' node H H'.
  - apply reached_segments_nil in H, H'.
    assert (length (drop index segments) = 0)%nat by (rewrite H; reflexivity).
    assert (length (drop index' segments') = 0)%nat by (rewrite H'; reflexivity).
    rewrite length_drop in *.
    rewrite !_addRoute_done by lia. reflexivity.
  - assert (Hlt : (index < length segments)%nat).
    { destruct (le_lt_dec (length segments) index); [|assumption].
      rewrite drop_ge in H by lia. discriminate. }
    assert (Hlt' : (index' < length segments')%nat).
    { destruct (le_lt_dec (length segments') index'); [|assumption].
      rewrite drop_ge in H' by lia. discriminate. }
    rewrite (drop_nth _ _ "" Hlt) in H. rewrite (drop_nth _ _ "" Hlt') in H'.
    cbn [reached_segments] in H, H'.
    rewrite (_addRoute_step o node segments index h Hlt),
            (_addRoute_step o node segments' index' h Hlt'). cbv zeta.
    assert (Hs : nth index segments "" = s).
    { destruct (_ === _) in H; inversion H; reflexivity. }
    assert (Hs' : nth index' segments' "" = s).
    { destruct (_ === _) in H'; inversion H'; reflexivity. }
    rewrite Hs, Hs' in *.
    destruct (decide (ps_type (parseSegment s) = wildcard)) as [Hw|Hw].
    + rewrite Hw. rewrite !_addRoute_done by lia. reflexivity.
    + rewrite bool_decide_eq_false_2 in H, H' by assumption.
      injection H as Hr. injection H' as Hr'.
      replace (S index) with (index + 1)%nat in Hr by lia.
      replace (S index') with (index' + 1)%nat in Hr' by lia.
      assert (Hrec : forall child : Node,
                 _addRoute o child segments (index + 1) h
                 = _addRoute o child segments' (index' + 1) h).
      { intros child. apply IH; [exact Hr|exact Hr']. }
      destruct (ps_type (parseSegment s)); try congruence;
        rewrite ?Hrec; try reflexivity.
      all: repeat (match goal with
                   | |- context [match scan_params ?a ?b ?c with _ => _ end] =>
                       destruct (scan_params a b c)
                   | |- context [match compile_regex ?a ?b with _ => _ end] =>
                       destruct (compile_regex a b)
                   end; rewrite ?Hrec; try reflexivity).
      destruct (Map_get _ _); [rewrite Hrec|]; reflexivity.
Qed.

Lemma _addRoute_reached o (node : Node) segments (h : Handler) :
  _addRoute o node segments 0 h = _addRoute o node (reached_segments segments) 0 h.
Proof.
  apply (_addRoute_reached_from o h (reached_segments segments)).
  - reflexivity.
  - cbn [drop]. apply reached_segments_idem.
Qed.

(** X12.  Two patterns with the same segments up to the first wildcard leave the
    same trie and end the same way: [addRoute] reads nothing of what
    follows a wildcard. *)
Theorem addRoute_reads_up_to_wildcard (t : RouteTrie (Handler := Handler))
    (pattern pattern' : string) (h : Handler) :
  reached_segments (route_segments (options t) pattern)
  = reached_segments (route_segments (options t) pattern') ->
  root (state_after (addRoute pattern h) t)
  = root (state_after (addRoute pattern' h) t)
  /\ outcome (addRoute pattern h) t = outcome (addRoute pattern' h) t.
Proof.
  intros E. rewrite !addRoute_root, !addRoute_outcome.
  rewrite (_addRoute_reached _ _ (route_segments (options t) pattern)).
  rewrite (_addRoute_reached _ _ (route_segments (options t) pattern')).
  rewrite E. split; reflexivity.
Qed.

(** *** Results carry handlers *)

Lemma catchAll_result_matched (ca : option (string * Node)) params value r :
  In r (catchAll_result ca params value) -> matched r <> [].
Proof.
  unfold catchAll_result. destruct ca as [[name child]|]; [|intros []].
  destruct (handlers child) as [|x l] eqn:E; simpl; [intros []|].
  intros [<-|[]]. simpl. discriminate.
Qed.

Lemma In_param_results (rec : Node -> gmap string string -> list Result)
    cur params (l : list (ParamChild RegExp Node)) r :
  In r (flat_map (param_results rec cur params) l) ->
  exists p v, In p l /\ bind_param p cur = Some v
              /\ In r (rec (p_node p) (<[p_name p := v]> params)).
Proof.
  intros H. apply in_flat_map in H as [p [Hp Hr]]. unfold param_results in Hr.
  destruct (bind_param p cur) as [v|] eqn:E; [|destruct Hr].
  exists p, v. auto.
Qed.

Lemma _match_results_have_handlers_from :
  forall n (node : Node) values index params r,
    (length values - index = n)%nat ->
    In r (_match node values index params) ->
    matched r <> [].
Proof.
  induction n as [n IH] using lt_wf_ind.
  intros node values index params r Hn H.
  rewrite _match_unfold in H.
  destruct (Nat.leb_spec (length values) index) as [Hle|Hlt].
  - apply in_app_or in H as [H|H].
    + destruct (handlers node) as [|x l] eqn:E; simpl in H; [destruct H|].
      destruct H as [<-|[]]. simpl. discriminate.
    + eapply catchAll_result_matched; exact H.
  - apply in_app_or in H as [H|H].
    { destruct (Map_get _ _) as [child|]; [|destruct H].
      eapply (IH (length values - (index + 1))%nat); [lia|reflexivity|exact H]. }
    apply in_app_or in H as [H|H].
    { apply In_param_results in H as [p [v [_ [_ H]]]].
      eapply (IH (length values - (index + 1))%nat); [lia|reflexivity|exact H]. }
    apply in_app_or in H as [H|H].
    { eapply catchAll_result_matched; exact H. }
    destruct (wildcardChild node) as [w|]; [|destruct H].
    destruct (index <? length values)%nat; [|destruct H].
    eapply (IH (length values - length values)%nat); [lia|reflexivity|exact H].
Qed.

Lemma first_nonempty_In {A : Type} (ls : list (list A)) (x : A) :
  In x (first_nonempty ls) -> exists l, In l ls /\ In x l.
Proof.
  induction ls as [|l ls IH]; simpl; [intros []|].
  destruct (0 <? length l)%nat.
  - intros H. exists l. auto.
  - intros H. destruct (IH H) as [l' [? ?]]. exists l'. auto.
Qed.

(** X13.  No result of [match] is without handlers, whatever the trie. *)
Theorem match_results_have_handlers (t : RouteTrie (Handler := Handler))
    (path : string) results r :
  outcome (match_ path) t = Normal results ->
  In r results ->
  matched r <> [].
Proof.
  unfold outcome. rewrite match_unfold. cbn [fst]. intros E Hr.
  replace results
    with (first_nonempty
            (List.map (fun v => attempt t path (fst v) (snd v))
                      (variants (options t)))) in Hr by congruence.
  apply first_nonempty_In in Hr as [l [Hl Hr]].
  apply in_map_iff in Hl as [v [<- _]]. unfold attempt in Hr.
  eapply _match_results_have_handlers_from; [reflexivity|exact Hr].
Qed.

(** *** The registry [routes] *)

Lemma Map_get_set_other {V : Type} (k k' : string) (v : V) (m : list (string * V)) :
  Map_get k' (Map_set k v m) = if String.eqb k k' then Some v else Map_get k' m.
Proof.
  destruct (String.eqb_spec k k') as [<-|Hne].
  - apply Map_get_set.
  - apply Map_get_set_ne. exact Hne.
Qed.

Lemma addRoute_routes (t : RouteTrie (Handler := Handler)) path h :
  routes (state_after (addRoute path h) t)
  = let key := route_key (options t) path in
    let known :=
      if negb (Map_has key (routes t)) then Map_set key [] (routes t)
      else routes t in
    Map_set key (default [] (Map_get key known) ++ [h]) known.
Proof.
  unfold state_after, addRoute, normalizeRoutePath, route_key.
  unfold mbind, M_bind, mret, M_ret, read, write_routes, write_root, complete.
  cbn [fst snd root options routes].
  destruct (negb _); cbn [fst snd root options routes];
  destruct (_addRoute _ _ _ _ _); reflexivity.
Qed.

(** X14.  [addRoute] files the handler under the normalized pattern, after the
    handlers filed there before, and leaves the other keys alone; it does
    so before it walks the trie, hence also when it throws. *)
Theorem addRoute_files_handler (t : RouteTrie (Handler := Handler))
    (path : string) (h : Handler) (key : string) :
  Map_get key (routes (state_after (addRoute path h) t))
  = if String.eqb (route_key (options t) path) key
    then Some (default [] (Map_get key (routes t)) ++ [h])
    else Map_get key (routes t).
Proof.
  rewrite addRoute_routes. cbv zeta. rewrite Map_get_set_other.
  destruct (String.eqb_spec (route_key (options t) path) key) as [<-|Hne].
  - destruct (Map_has _ (routes t)) eqn:E; cbn [negb]; [reflexivity|].
    rewrite Map_get_set, (Map_has_false_get _ _ E). reflexivity.
  - destruct (Map_has _ (routes t)); cbn [negb]; [reflexivity|].
    apply Map_get_set_ne. exact Hne.
Qed.

(** *** Registrations keep the matches *)

Lemma extends_refl (r : Result) : extends r r.
Proof. split; [reflexivity|]. exists []. rewrite app_nil_r. reflexivity. Qed.

Lemma keeps_refl (node : Node) : keeps node node.
Proof. intros values index params r H. exists r. split; [exact H|apply extends_refl]. Qed.

Lemma catchAll_result_keeps name (child child' : Node) more params value r :
  handlers child' = handlers child ++ more ->
  In r (catchAll_result (Some (name, child)) params value) ->
  exists r', In r' (catchAll_result (Some (name, child')) params value)
             /\ extends r r'.
Proof.
  intros E. unfold catchAll_result. rewrite E.
  destruct (handlers child) as [|x l]; simpl; [intros []|].
  intros [<-|[]]. eexists. split; [left; reflexivity|].
  split; [reflexivity|]. exists more. reflexivity.
Qed.

Lemma keeps_addHandler (node : Node) (h : Handler) : keeps node (addHandler node h).
Proof.
  intros values index params r. rewrite !_match_unfold.
  cbn [addHandler staticChildren paramChildren catchAllChild wildcardChild handlers].
  destruct (length values <=? index)%nat.
  - intros H. apply in_app_or in H as [H|H].
    + destruct (handlers node) as [|x l]; simpl in H; [destruct H|].
      destruct H as [<-|[]]. eexists. split; [left; reflexivity|].
      split; [reflexivity|]. exists [h]. reflexivity.
    + exists r. split; [|apply extends_refl]. apply in_or_app. right. exact H.
  - intros H. exists r. split; [exact H|apply extends_refl].
Qed.

(** Replacing one part of the results by a part that keeps them. *)
Lemma In_app_keeps {A : Type} (P : A -> A -> Prop) (a a' b b' : list A) :
  (forall r, In r a -> exists r', In r' a' /\ P r r') ->
  (forall r, In r b -> exists r', In r' b' /\ P r r') ->
  forall r, In r (a ++ b) -> exists r', In r' (a' ++ b') /\ P r r'.
Proof.
  intros Ha Hb r H. apply in_app_or in H as [H|H].
  - destruct (Ha _ H) as [r' [? ?]]. exists r'. split; [apply in_or_app; auto|auto].
  - destruct (Hb _ H) as [r' [? ?]]. exists r'. split; [apply in_or_app; auto|auto].
Qed.

Lemma In_same_keeps (a : list Result) r :
  In r a -> exists r', In r' a /\ extends r r'.
Proof. intros H. exists r. split; [exact H|apply extends_refl]. Qed.

Lemma keeps_static (node : Node) k child' :
  (forall child, Map_get k (staticChildren node) = Some child -> keeps child child') ->
  keeps node
    (set_staticChildren node
       (Map_set k child'
          (if negb (Map_has k (staticChildren node))
           then Map_set k newTrieNode (staticChildren node)
           else staticChildren node))).
Proof.
  intros Hsome values index params r. rewrite !_match_unfold.
  cbn [set_staticChildren staticChildren paramChildren catchAllChild
       wildcardChild handlers].
  destruct (length values <=? index)%nat; [apply In_same_keeps|].
  apply In_app_keeps; [|apply In_same_keeps].
  intros r0.
  destruct (String.eqb_spec k (nth index values "")) as [<-|Hne].
  - rewrite Map_get_set.
    destruct (Map_get k (staticChildren node)) as [child|] eqn:E; [|intros []].
    apply (Hsome child eq_refl).
  - rewrite Map_get_set_ne by assumption.
    destruct (Map_has k (staticChildren node)); cbn [negb];
      [apply In_same_keeps|].
    rewrite Map_get_set_ne by assumption. apply In_same_keeps.
Qed.

Lemma flat_map_alter_keeps {A B : Type} (P : B -> B -> Prop)
    (f : A -> list B) (g : A -> A) (l : list A) (i : nat) :
  (forall r, P r r) ->
  (forall x r, l !! i = Some x -> In r (f x) -> exists r', In r' (f (g x)) /\ P r r') ->
  forall r, In r (flat_map f l) ->
            exists r', In r' (flat_map f (alter g i l)) /\ P r r'.
Proof.
  intros Hrefl. revert i.
  induction l as [|x l IH]; intros [|i] H r; try (intros []).
  - cbn [alter list_alter flat_map].
    apply In_app_keeps; [intros r0; apply H; reflexivity|].
    intros r0 H0. exists r0. auto.
  - cbn [alter list_alter flat_map].
    apply In_app_keeps; [intros r0 H0; exists r0; auto|].
    apply IH. intros y r0 Hy. apply (H y r0). exact Hy.
Qed.

Lemma keeps_param o (node : Node) segments index (h : Handler) parsed
    ty name suffix :
  (forall child : Node,
      keeps child (fst (_addRoute o child segments (index + 1) h))) ->
  keeps node
    (fst (match scan_params parsed (paramChildren node) 0 with
          | ScanThrow e => (node, Throw e)
          | Reuse i paramNode =>
              let '(paramNode', c) :=
                _addRoute o paramNode segments (index + 1) h in
              (set_paramChildren node
                 (alter (fun param => set_p_node param paramNode') i
                        (paramChildren node)), c)
          | Absent =>
              match compile_regex o parsed with
              | Throw e => (node, Throw e)
              | Normal regexObj =>
                  let '(paramNode', c) :=
                    _addRoute o newTrieNode segments (index + 1) h in
                  (set_paramChildren node
                     (paramChildren node
                      ++ [mkParamChild ty name regexObj suffix paramNode']),
                   c)
              end
          end)).
Proof.
  intros Hrec.
  destruct (scan_params _ _ _) as [i paramNode| |e] eqn:Hscan.
  - rewrite fst_let_pair. intros values j params r. rewrite !_match_unfold.
    cbn [set_paramChildren staticChildren paramChildren catchAllChild
         wildcardChild handlers].
    destruct (length values <=? j)%nat; [apply In_same_keeps|].
    apply In_app_keeps; [apply In_same_keeps|].
    apply In_app_keeps; [|apply In_same_keeps].
    apply flat_map_alter_keeps; [apply extends_refl|].
    intros p r0 Hp. unfold param_results.
    change (bind_param (set_p_node p _) (nth j values ""))
      with (bind_param p (nth j values "")).
    destruct (bind_param p (nth j values "")); [|intros []].
    cbn [set_p_node p_name p_node].
    destruct (scan_params_reuse _ _ _ _ _ Hscan) as [p0 [Hl [Hn _]]].
    rewrite Nat.sub_0_r in Hl. rewrite Hp in Hl. inversion Hl; subst.
    apply Hrec.
  - destruct (compile_regex o parsed) as [regexObj|e]; [|apply keeps_refl].
    rewrite fst_let_pair. intros values j params r. rewrite !_match_unfold.
    cbn [set_paramChildren staticChildren paramChildren catchAllChild
         wildcardChild handlers].
    destruct (length values <=? j)%nat; [apply In_same_keeps|].
    apply In_app_keeps; [apply In_same_keeps|].
    apply In_app_keeps; [|apply In_same_keeps].
    intros r0 H0. exists r0. split; [|apply extends_refl].
    rewrite flat_map_app. apply in_or_app. left. exact H0.
  - apply keeps_refl.
Qed.

Lemma _addRoute_handlers_grow o (node : Node) segments index (h : Handler) :
  exists more,
    handlers (fst (_addRoute o node segments index h)) = handlers node ++ more.
Proof.
  destruct (le_lt_dec (length segments) index).
  - rewrite _addRoute_done by assumption. exists [h]. reflexivity.
  - exists []. rewrite _addRoute_handlers by assumption.
    rewrite app_nil_r. reflexivity.
Qed.

Lemma _addRoute_keeps_from o segments (h : Handler) :
  forall n index (node : Node),
    (length segments - index = n)%nat ->
    keeps node (fst (_addRoute o node segments index h)).
Proof.
  induction n as [n IH] using lt_wf_ind. intros index node Hn.
  destruct (le_lt_dec (length segments) index) as [Hle|Hlt].
  { rewrite _addRoute_done by assumption. apply keeps_addHandler. }
  assert (Hrec : forall child : Node,
             keeps child (fst (_addRoute o child segments (index + 1) h))).
  { intros child. apply (IH (length segments - (index + 1))%nat); [lia|reflexivity]. }
  rewrite _addRoute_step by assumption; cbv zeta.
  set (segment := nth index segments "") in *.
  destruct (ps_type (parseSegment segment)) eqn:Hty.
  - (* static *)
    destruct (Map_get _ _) as [child|] eqn:Hget.
    2: { exfalso. revert Hget. apply Map_get_ensured. }
    rewrite fst_let_pair.
    apply keeps_static.
    intros child0 H0. destruct (Map_has _ (staticChildren node)) eqn:Hhas;
      cbn [negb] in Hget.
    + rewrite H0 in Hget. inversion Hget; subst. apply Hrec.
    + rewrite Map_has_false_get in H0 by assumption. discriminate.
  - exact (keeps_param o node segments index h (parseSegment segment) _ _ _ Hrec).
  - exact (keeps_param o node segments index h (parseSegment segment) _ _ _ Hrec).
  - exact (keeps_param o node segments index h (parseSegment segment) _ _ _ Hrec).
  - exact (keeps_param o node segments index h (parseSegment segment) _ _ _ Hrec).
  - (* catch-all *)
    rewrite fst_let_pair.
    intros values j params r. rewrite !_match_unfold.
    cbn [set_catchAllChild staticChildren paramChildren catchAllChild
         wildcardChild handlers].
    assert (Hca : forall value r,
      In r (catchAll_result (catchAllChild node) params value) ->
      exists r',
        In r' (catchAll_result
                 (Some
                    ((match catchAllChild node with
                      | Some existing => existing
                      | None => (unwrap (ps_name (parseSegment segment)), newTrieNode)
                      end).1,
                     (_addRoute o
                        (match catchAllChild node with
                         | Some existing => existing
                         | None => (unwrap (ps_name (parseSegment segment)), newTrieNode)
                         end).2 segments (index + 1) h).1)) params value)
        /\ extends r r').
    { intros value r0. destruct (catchAllChild node) as [[name child]|];
        [|intros []]. cbn [fst snd].
      destruct (_addRoute_handlers_grow o child segments (index + 1) h) as [more E].
      apply catchAll_result_keeps with (more := more). exact E. }
    destruct (length values <=? j)%nat.
    + apply In_app_keeps; [apply In_same_keeps|apply Hca].
    + apply In_app_keeps; [apply In_same_keeps|].
      apply In_app_keeps; [apply In_same_keeps|].
      apply In_app_keeps; [apply Hca|apply In_same_keeps].
  - (* literal-colon *) apply keeps_refl.
  - (* wildcard *)
    rewrite fst_let_pair.
    intros values j params r. rewrite !_match_unfold.
    cbn [set_wildcardChild staticChildren paramChildren catchAllChild
         wildcardChild handlers].
    destruct (length values <=? j)%nat; [apply In_same_keeps|].
    apply In_app_keeps; [apply In_same_keeps|].
    apply In_app_keeps; [apply In_same_keeps|].
    apply In_app_keeps; [apply In_same_keeps|].
    intros r0. destruct (wildcardChild node) as [w|]; [|intros []].
    destruct (j <? length values)%nat; [|intros []].
    apply (IH (length segments - length segments)%nat); [lia|reflexivity].
Qed.

(** X15.  A registration takes no match away: every result of a normalization
    variant has, after [addRoute], a result of the same variant with the
    same bindings whose handlers start with the handlers it had; this
    holds also when [addRoute] throws. *)
Theorem addRoute_keeps_matches (t : RouteTrie (Handler := Handler))
    (pattern : string) (h : Handler) (path : string)
    (useFixedPath useTrailingSlash : bool) (r : Result) :
  In r (attempt t path useFixedPath useTrailingSlash) ->
  exists r',
    In r' (attempt (state_after (addRoute pattern h) t) path
                   useFixedPath useTrailingSlash)
    /\ extends r r'.
Proof.
  unfold attempt. rewrite addRoute_root, addRoute_options.
  apply (_addRoute_keeps_from (options t) _ h
           (length (route_segments (options t) pattern) - 0)%nat).
  reflexivity.
Qed.

End Registrations.
(** ** The chain and the server *)

Section AsyncLaws.
Context {W E : Type}.

Lemma Async_bind_unfold {A B : Type} (f : A -> Async W E B) (m : Async W E A) w :
  (m ≫= f) w
  = match m w with
    | Some (Fulfilled a, w') => f a w'
    | Some (Rejected e, w') => Some (Rejected e, w')
    | None => None
    end.
Proof. reflexivity. Qed.

End AsyncLaws.

Section ChainV1Laws.
Context {W E V T : Type}.
Import ChainV1.

Lemma v1_run_loop_app (l1 l2 : list (AsyncFn W E V T)) args : forall acc w,
  run_loop (l1 ++ l2) acc args w
  = (acc' ← run_loop l1 acc args; run_loop l2 acc' args) w.
Proof.
  induction l1 as [|fn l1 IH]; intros acc w; [reflexivity|].
  cbn [app run_loop]. rewrite !Async_bind_unfold.
  destruct (fn acc args w) as [[[result|e] w']|]; try reflexivity.
  apply IH.
Qed.

(** X16.  The function added last runs last: it receives what the run of the
    chain before it returns, in the state that run leaves, and its
    result is spread over that accumulator. *)
Theorem chain_v1_run_add (c : Chain W E V T) (fn : AsyncFn W E V T) args w :
  run (add c fn) args w
  = (acc ← run c args;
     result ← fn acc args;
     mret ((result : gmap string V) ∪ acc)) w.
Proof.
  unfold run, add. cbn [fns]. rewrite v1_run_loop_app.
  rewrite !Async_bind_unfold.
  destruct (run_loop (fns c) ∅ args w) as [[[acc|e] w']|]; reflexivity.
Qed.

End ChainV1Laws.

Section ChainLaws.
Context {W E V T : Type}.
Import Chain.

Lemma run_loop_stops (l1 l2 : list (AsyncFn W E V T)) args : forall acc w,
  (forall w', run_loop l1 acc args w <> Some (Fulfilled true, w')) ->
  run_loop (l1 ++ l2) acc args w = run_loop l1 acc args w.
Proof.
  induction l1 as [|fn l1 IH]; intros acc w H.
  - exfalso. apply (H w). reflexivity.
  - cbn [app run_loop] in *. rewrite !Async_bind_unfold in *.
    destruct (fn acc args w) as [[[[result|]|e] w']|]; try reflexivity.
    apply IH. exact H.
Qed.

Lemma run_loop_goes_on (l1 : list (AsyncFn W E V T)) args : forall acc w w',
  run_loop l1 acc args w = Some (Fulfilled true, w') ->
  exists acc', forall l2,
    run_loop (l1 ++ l2) acc args w = run_loop l2 acc' args w'.
Proof.
  induction l1 as [|fn l1 IH]; intros acc w w' H.
  - inversion H; subst. exists acc. reflexivity.
  - cbn [app run_loop] in *. rewrite Async_bind_unfold in H.
    destruct (fn acc args w) as [[[[result|]|e] w1]|] eqn:Hfn; try discriminate.
    destruct (IH _ _ _ H) as [acc' Hacc]. exists acc'. intros l2.
    rewrite Async_bind_unfold, Hfn. apply Hacc.
Qed.

(** X17.  Unless the run of a chain is fulfilled with [true], the functions
    added after it change nothing: the run ends as it did, in the same
    state, and none of them is called. *)
Theorem chain_run_stops (pre post : list (AsyncFn W E V T)) args w :
  (forall w', run (createChain pre) args w <> Some (Fulfilled true, w')) ->
  run (createChain (pre ++ post)) args w = run (createChain pre) args w.
Proof. unfold run. cbn [fns]. apply run_loop_stops. Qed.

(** X18.  When the run of a chain is fulfilled with [true], the function added
    next is called in the state that run leaves, and what it returns
    decides the answer. *)
Theorem chain_run_add (c : Chain W E V T) (fn : AsyncFn W E V T) args w w' :
  run c args w = Some (Fulfilled true, w') ->
  exists acc,
    run (add c fn) args w
    = (result ← fn acc args;
       mret (match result with Some _ => true | None => false end)) w'.
Proof.
  unfold run, add. cbn [fns]. intros H.
  destruct (run_loop_goes_on _ _ _ _ _ H) as [acc Hacc].
  exists acc. rewrite Hacc. cbn [run_loop]. rewrite !Async_bind_unfold.
  destruct (fn acc args w') as [[[[result|]|e] w1]|]; reflexivity.
Qed.

End ChainLaws.

Section ServerLaws.
Context {host : RegExpHost} {W E V : Type}.
Context (toUpperCase : string -> string) (thrown : Error -> E).
Import Server.

Abbreviation Store' := (Store (W := W) (E := E) (V := V)).

Lemma linked_nil : linked ([] : Store').
Proof. intros this self next H. discriminate. Qed.

Lemma lookup_snoc_last {A : Type} (l : list A) (x : A) :
  (l ++ [x]) !! length l = Some x.
Proof. rewrite lookup_app_r by lia. rewrite Nat.sub_diag. reflexivity. Qed.

Lemma lookup_snoc_Some {A : Type} (l : list A) (x y : A) i :
  (l ++ [x]) !! i = Some y ->
  (i < length l /\ l !! i = Some y)%nat \/ (i = length l /\ y = x).
Proof.
  intros H. destruct (decide (i < length l)%nat) as [Hlt|Hge].
  - rewrite lookup_app_l in H by assumption. auto.
  - apply lookup_lt_Some in H as Hi. rewrite length_app in Hi. simpl in Hi.
    assert (i = length l) by lia. subst i.
    rewrite lookup_snoc_last in H. inversion H. auto.
Qed.

(** A new object without a reference keeps the store linked. *)
Lemma linked_new (store : Store') given :
  linked store -> linked (fst (new_HttpRouteConstructor given store)).
Proof.
  intros HL this self next H Hn. cbn [new_HttpRouteConstructor fst] in H.
  apply lookup_snoc_Some in H as [[Hi H]|[_ ->]]; [|discriminate].
  destruct (HL _ _ _ H Hn) as [Hlt [successor [fn [Hs Hf]]]].
  split; [exact Hlt|]. exists successor, fn. split; [|exact Hf].
  cbn [new_HttpRouteConstructor fst]. apply lookup_app_l_Some. exact Hs.
Qed.

Lemma ends_at_exists (store : Store') :
  linked store ->
  forall n this, (length store - this = n)%nat -> (this < length store)%nat ->
                 exists last, ends_at store this last.
Proof.
  intros HL. induction n as [n IH] using lt_wf_ind. intros this Hn Hlt.
  destruct (lookup_lt_is_Some_2 store this Hlt) as [self Hs].
  destruct (newConstructor self) as [next|] eqn:Hnext.
  - destruct (HL _ _ _ Hs Hnext) as [Hlt' [successor [fn [Hs' _]]]].
    apply lookup_lt_Some in Hs' as Hb.
    destruct (IH (length store - next)%nat ltac:(lia) next eq_refl Hb) as [last Hl].
    exists last. eapply ends_next; eassumption.
  - exists this. eapply ends_here; eassumption.
Qed.

Lemma ends_at_self (store : Store') this last :
  ends_at store this last ->
  exists self, store !! last = Some self /\ newConstructor self = None.
Proof.
  induction 1 as [this self Hs Hn|this next last self Hs Hn _ IH];
    [exists self; auto|exact IH].
Qed.

Lemma ends_at_le (store : Store') this last :
  linked store -> ends_at store this last -> (this <= last < length store)%nat.
Proof.
  intros HL. induction 1 as [this self Hs Hn|this next last self Hs Hn _ IH].
  - apply lookup_lt_Some in Hs. lia.
  - destruct (HL _ _ _ Hs Hn) as [Hlt _]. lia.
Qed.

(** With fuel for the whole store, the three recursions reach the last
    object. *)
Lemma ends_at_computes (store : Store') (handler : RouteHandler) this last self :
  linked store ->
  ends_at store this last ->
  store !! last = Some self ->
  forall fuel, (length store - this <= fuel)%nat ->
    functions_of fuel this store = Some (Chain.fns (chain self))
    /\ run fuel this store = Chain.run (chain self) tt
    /\ add fuel this handler store
       = Some (store_after_add store last self handler, length store).
Proof.
  intros HL H. revert self.
  induction H as [this self0 Hs Hn|this next last self0 Hs Hn Hend IH];
    intros self Hlast fuel Hfuel.
  - rewrite Hs in Hlast. inversion Hlast; subst self0.
    apply lookup_lt_Some in Hs as Hlt.
    destruct fuel as [|fuel]; [lia|].
    cbn [functions_of run add]. rewrite Hs, Hn. auto.
  - destruct (HL _ _ _ Hs Hn) as [Hlt _].
    apply lookup_lt_Some in Hs as Hb.
    destruct fuel as [|fuel]; [lia|].
    cbn [functions_of run add]. rewrite Hs, Hn.
    apply IH; [exact Hlast|lia].
Qed.

Lemma store_after_add_lookup (store : Store') last self (handler : RouteHandler) i :
  store !! last = Some self ->
  store_after_add store last self handler !! i
  = if decide (i = last)
    then Some (mkHttpRouteConstructor (chain self) (Some (length store)))
    else if decide (i = length store)
         then Some (mkHttpRouteConstructor
                      (Chain.add (chain self) (wrapper handler)) None)
         else store !! i.
Proof.
  intros Hs. apply lookup_lt_Some in Hs as Hlt. unfold store_after_add.
  destruct (decide (i = last)) as [->|Hne].
  - apply list_lookup_insert_eq. rewrite length_app. simpl. lia.
  - etransitivity; [apply list_lookup_insert_ne; congruence|].
    destruct (decide (i = length store)) as [->|Hne'].
    + apply lookup_snoc_last.
    + destruct (decide (i < length store)%nat).
      * apply lookup_app_l. assumption.
      * etransitivity; [apply lookup_ge_None_2; rewrite length_app; simpl; lia|].
        symmetry. apply lookup_ge_None_2. lia.
Qed.

Lemma store_after_add_linked (store : Store') last self (handler : RouteHandler) :
  linked store ->
  store !! last = Some self ->
  newConstructor self = None ->
  linked (store_after_add store last self handler).
Proof.
  intros HL Hs Hn this obj next H Hnext.
  apply lookup_lt_Some in Hs as Hlt.
  rewrite (store_after_add_lookup _ _ _ _ _ Hs) in H.
  destruct (decide (this = last)) as [->|Hne].
  - inversion H; subst obj. cbn [newConstructor] in Hnext.
    inversion Hnext; subst next. split; [exact Hlt|].
    eexists _, (wrapper handler).
    rewrite (store_after_add_lookup _ _ _ _ _ Hs).
    destruct (decide (length store = last)); [lia|].
    destruct (decide (length store = length store)); [|congruence].
    split; reflexivity.
  - destruct (decide (this = length store)) as [->|Hne'].
    { inversion H; subst obj. discriminate. }
    destruct (HL _ _ _ H Hnext) as [Hlt' [successor [fn [Hs' Hf]]]].
    split; [exact Hlt'|].
    apply lookup_lt_Some in Hs' as Hb.
    rewrite (store_after_add_lookup _ _ _ _ _ Hs).
    destruct (decide (next = last)) as [->|Hnl].
    + rewrite Hs in Hs'. inversion Hs'; subst successor.
      eexists _, fn. split; [reflexivity|exact Hf].
    + destruct (decide (next = length store)); [lia|].
      exists successor, fn. auto.
Qed.

Lemma store_after_add_ends (store : Store') last self (handler : RouteHandler) this :
  store !! last = Some self ->
  newConstructor self = None ->
  ends_at store this last ->
  ends_at (store_after_add store last self handler) this (length store).
Proof.
  intros Hs Hn H. apply lookup_lt_Some in Hs as Hlt.
  induction H as [this self0 Hs0 Hn0|this next last self0 Hs0 Hn0 Hend IH].
  - eapply ends_next.
    + rewrite (store_after_add_lookup _ _ _ _ _ Hs).
      destruct (decide (this = this)); [reflexivity|congruence].
    + reflexivity.
    + eapply ends_here.
      * rewrite (store_after_add_lookup _ _ _ _ _ Hs).
        destruct (decide (length store = this)); [lia|].
        destruct (decide (length store = length store)); [reflexivity|congruence].
      * reflexivity.
  - specialize (IH Hs Hlt).
    assert (this <> last).
    { intros ->. rewrite Hs in Hs0. inversion Hs0; subst. congruence. }
    apply lookup_lt_Some in Hs0 as Hb.
    eapply ends_next; [|exact Hn0|exact IH].
    rewrite (store_after_add_lookup _ _ _ _ _ Hs).
    destruct (decide (this = last)); [congruence|].
    destruct (decide (this = length store)); [lia|]. exact Hs0.
Qed.

(** X19.  In a linked store, [add] through a handle of a route returns, keeps
    the store linked, and appends the handler to the functions that [run]
    goes through from every handle of the route, whichever handle was
    used: the handle that [http] returned runs what was added through the
    handles that [add] returned. *)
Theorem add_through_any_handle (store : Store') (handler : RouteHandler)
    (this other last : nat) :
  linked store ->
  ends_at store this last ->
  ends_at store other last ->
  exists functions store' new,
    functions_of (length store) other store = Some functions
    /\ add (length store) this handler store = Some (store', new)
    /\ linked store'
    /\ functions_of (length store') other store'
       = Some (functions ++ [wrapper handler])
    /\ run (length store') other store'
       = Chain.run (Chain.createChain (functions ++ [wrapper handler])) tt.
Proof.
  intros HL Hthis Hother.
  destruct (ends_at_self _ _ _ Hthis) as [self [Hs Hn]].
  destruct (ends_at_computes store handler _ _ _ HL Hthis Hs (length store)
              ltac:(lia)) as [_ [_ Hadd]].
  destruct (ends_at_computes store handler _ _ _ HL Hother Hs (length store)
              ltac:(lia)) as [Hf _].
  pose proof (store_after_add_linked _ _ _ handler HL Hs Hn) as HL'.
  pose proof (store_after_add_ends _ _ _ handler _ Hs Hn Hother) as Hends.
  assert (Hnew : store_after_add store last self handler !! length store
                 = Some (mkHttpRouteConstructor
                           (Chain.add (chain self) (wrapper handler)) None)).
  { rewrite (store_after_add_lookup _ _ _ _ _ Hs).
    apply lookup_lt_Some in Hs.
    destruct (decide (length store = last)); [lia|].
    destruct (decide (length store = length store)); [reflexivity|congruence]. }
  destruct (ends_at_computes _ handler _ _ _ HL' Hends Hnew
              (length (store_after_add store last self handler)) ltac:(lia))
    as [Hf' [Hr' _]].
  exists (Chain.fns (chain self)), (store_after_add store last self handler),
         (length store).
  split; [exact Hf|]. split; [exact Hadd|]. split; [exact HL'|].
  split; [exact Hf'|exact Hr'].
Qed.

(** X20.  In a linked store [run] and [add] return on every handle: the
    references from the handle end at an object, whose chain [run] runs
    and to which [add] links the new object. *)
Theorem run_and_add_return (store : Store') (handler : RouteHandler)
    (this : nat) :
  linked store -> (this < length store)%nat ->
  exists last self,
    ends_at store this last
    /\ store !! last = Some self
    /\ run (length store) this store = Chain.run (chain self) tt
    /\ add (length store) this handler store
       = Some (store_after_add store last self handler, length store).
Proof.
  intros HL Hlt.
  destruct (ends_at_exists store HL _ this eq_refl Hlt) as [last Hend].
  destruct (ends_at_self _ _ _ Hend) as [self [Hs Hn]].
  destruct (ends_at_computes store handler _ _ _ HL Hend Hs (length store)
              ltac:(lia)) as [_ [Hr Ha]].
  exists last, self. auto.
Qed.

(** X21.  [http] puts a new object with an empty chain and no reference at
    the end of the store and registers the route with a closure over its
    handle.  It returns the handle when [addRoute] returns and throws what
    [addRoute] throws; either way the object is in the store, a linked
    store stays linked, the handle ends at itself with no function yet,
    and the trie is as [addRoute] leaves it. *)
Theorem http_new_handle (this : AnyServer (W := W) (E := E) (V := V))
    (route : string) (method : option string) :
  linked (constructors this) ->
  let handle := length (constructors this) in
  let registration := addRoute route (mkTrieHandler method handle) in
  let after := snd (http route method this) in
  fst (http route method this)
  = match outcome registration (trie this) with
    | Normal _ => Normal handle
    | Throw e => Throw e
    end
  /\ constructors after
     = constructors this ++ [mkHttpRouteConstructor (Chain.createChain []) None]
  /\ linked (constructors after)
  /\ ends_at (constructors after) handle handle
  /\ functions_of (length (constructors after)) handle (constructors after)
     = Some []
  /\ trie after = state_after registration (trie this).
Proof.
  intros HL. unfold http, outcome, state_after.
  cbn [new_HttpRouteConstructor].
  destruct (addRoute route _ (trie this)) as [c trie'] eqn:Ha.
  cbn [fst snd constructors trie].
  assert (Hl : linked (constructors this
                       ++ [mkHttpRouteConstructor (Chain.createChain []) None])).
  { exact (linked_new _ None HL). }
  assert (He : ends_at (constructors this
                        ++ [mkHttpRouteConstructor (Chain.createChain []) None])
                       (length (constructors this)) (length (constructors this))).
  { eapply ends_here; [apply lookup_snoc_last|reflexivity]. }
  split; [reflexivity|]. split; [reflexivity|].
  split; [exact Hl|]. split; [exact He|]. split; [|reflexivity].
  destruct (ends_at_computes _ (fun _ => mret None) _ _ _ Hl He
              (lookup_snoc_last _ _)
              (length (constructors this
                       ++ [mkHttpRouteConstructor (Chain.createChain []) None]))
              ltac:(lia)) as [Hf _].
  exact Hf.
Qed.

(** *** The listener *)

Lemma each_match_first_decides (store : Store') ps h hs ms next st st' :
  handle toUpperCase store h ps st = Some (Fulfilled next, st') ->
  default false next = false ->
  each_match toUpperCase store (mkMatchResult ps (h :: hs) :: ms) st
  = Some (Fulfilled tt, st').
Proof.
  intros Hh Hn. cbn [each_match each_handler matched params].
  rewrite !Async_bind_unfold, Hh, Hn. reflexivity.
Qed.

(** X22.  When the first handler of the first result does not answer [true],
    the listener returns: no other handler of the result and no other
    result is tried. *)
Theorem listener_first_decides (this : AnyServer (W := W) (E := E) (V := V))
    ps h hs ms next st st' :
  outcome (match_ (default "/" (r_url (fst st)))) (trie this)
  = Normal (mkMatchResult ps (h :: hs) :: ms) ->
  handle toUpperCase (constructors this) h ps st = Some (Fulfilled next, st') ->
  default false next = false ->
  listener toUpperCase thrown this st = Some (Fulfilled tt, st').
Proof.
  intros Hm Hh Hn. unfold listener. cbv zeta. rewrite Hm.
  eapply each_match_first_decides; eassumption.
Qed.

(** X23.  A request whose method is not the method of the first handler of the
    first result is dropped: the listener returns and leaves the request
    and the response as they were, whatever else matches. *)
Theorem listener_other_method (this : AnyServer (W := W) (E := E) (V := V))
    ps h hs ms request w :
  outcome (match_ (default "/" (r_url request))) (trie this)
  = Normal (mkMatchResult ps (h :: hs) :: ms) ->
  truthy (h_method h) = true ->
  toUpperCase <$> r_method request <> Some (toUpperCase (unwrap (h_method h))) ->
  listener toUpperCase thrown this (request, w) = Some (Fulfilled tt, (request, w)).
Proof.
  intros Hm Ht Hne. unfold listener. cbv zeta. cbn [fst]. rewrite Hm.
  eapply each_match_first_decides with (next := None); [|reflexivity].
  unfold handle. rewrite Ht, bool_decide_eq_false_2 by exact Hne. reflexivity.
Qed.

Lemma run_functions (store : Store') functions : forall fuel this,
  functions_of fuel this store = Some functions ->
  run fuel this store = Chain.run (Chain.createChain functions) tt.
Proof.
  induction fuel as [|fuel IH]; intros this; [discriminate|].
  cbn [functions_of run]. destruct (store !! this) as [self|]; [|discriminate].
  destruct (newConstructor self); [apply IH|].
  intros H. inversion H. destruct (chain self). reflexivity.
Qed.

Lemma gate_open (h : TrieHandler) (request : Request) :
  (truthy (h_method h) = false
   \/ toUpperCase <$> r_method request = Some (toUpperCase (unwrap (h_method h)))) ->
  truthy (h_method h)
  && negb ((toUpperCase <$> r_method request)
           === Some (toUpperCase (unwrap (h_method h)))) = false.
Proof.
  intros [->| ->]; [reflexivity|].
  rewrite bool_decide_eq_true_2 by reflexivity. apply andb_false_r.
Qed.

(** X24.  A handler whose method is the method of the request, or that has no
    method, stores the bindings in the request and runs the functions of
    its route, up to the last that was added. *)
Theorem handle_runs_route (store : Store') (h : TrieHandler) ps request w
    functions :
  (truthy (h_method h) = false
   \/ toUpperCase <$> r_method request = Some (toUpperCase (unwrap (h_method h)))) ->
  functions_of (length store) (h_routeConstructor h) store = Some functions ->
  handle toUpperCase store h ps (request, w)
  = (next ← Chain.run (Chain.createChain functions) tt; mret (Some next))
      (mkRequest (r_method request) (r_url request) (Some ps), w).
Proof.
  intros Hgate Hf. unfold handle.
  rewrite (gate_open h request Hgate), (run_functions _ _ _ _ Hf). reflexivity.
Qed.

End ServerLaws.

(** ** The two versions of the chain *)

Section Versions.
Context {W E V T : Type}.

Lemma returning_unfold (fn : ChainV1.AsyncFn W E V T) acc args w :
  returning fn acc args w
  = match fn acc args w with
    | Some (Fulfilled result, w') => Some (Fulfilled (Some result), w')
    | Some (Rejected e, w') => Some (Rejected e, w')
    | None => None
    end.
Proof.
  unfold returning. rewrite Async_bind_unfold.
  destruct (fn acc args w) as [[[result|e] w']|]; reflexivity.
Qed.

Lemma run_loops_agree (l : list (ChainV1.AsyncFn W E V T)) args : forall acc w,
  Chain.run_loop (List.map returning l) acc args w
  = (_ ← ChainV1.run_loop l acc args; mret true) w.
Proof.
  induction l as [|fn l IH]; intros acc w; [reflexivity|].
  cbn [List.map Chain.run_loop ChainV1.run_loop].
  rewrite !Async_bind_unfold, returning_unfold.
  destruct (fn acc args w) as [[[result|e] w']|]; try reflexivity.
  rewrite IH, Async_bind_unfold. reflexivity.
Qed.

(** X25.  On functions that always return an object the two versions of the
    chain go the same way: the second calls the same functions with the
    same accumulators and leaves the same state, and it answers [true]
    where the first returns the accumulator. *)
Theorem chain_versions_agree (l : list (ChainV1.AsyncFn W E V T)) args w :
  Chain.run (Chain.createChain (List.map returning l)) args w
  = (_ ← ChainV1.run (ChainV1.createChain l) args; mret true) w.
Proof.
  unfold Chain.run, ChainV1.run. cbn [Chain.fns ChainV1.fns].
  apply run_loops_agree.
Qed.

End Versions.

(** ** A server with one route *)

Section Served.
Context {host : RegExpHost} {W E V : Type}.
Context (toUpperCase : string -> string) (thrown : Error -> E).
Import Server.

Lemma http_trie (this : AnyServer (W := W) (E := E) (V := V)) route method :
  trie (snd (http route method this))
  = state_after (addRoute route (mkTrieHandler method (length (constructors this))))
                (trie this).
Proof.
  unfold http, state_after. cbn [new_HttpRouteConstructor].
  destruct (addRoute route _ (trie this)) as [c trie']. reflexivity.
Qed.

(** X26.  A server with one route, of static, named, suffix and wildcard
    segments: a request whose path the pattern accepts as it stands, and
    whose method is the method of the route when the route has one, gets
    the bindings as [params] and is handed to the functions added to the
    route, in the order of their addition; then the listener returns. *)
Theorem single_route_served (routeTrie : option RouteTrieOptions)
    (pattern : string) (method : option string)
    (store : Store (W := W) (E := E) (V := V))
    (functions : list (Chain.AsyncFn St E V unit))
    (request : Request) (w : W) (bound : gmap string string) :
  let registered : AnyServer (W := W) (E := E) (V := V) :=
    snd (http pattern method (new_AnyServer routeTrie)) in
  let server := mkAnyServer (trie registered) store in
  let o := options (trie registered) in
  forallb plain_segment (route_segments o pattern) = true ->
  functions_of (length store) 0 store = Some functions ->
  (truthy method = false
   \/ toUpperCase <$> r_method request = Some (toUpperCase (unwrap method))) ->
  path_bindings (route_segments o pattern)
                (filtered_segments o (default "/" (r_url request)) false false)
                ∅ = Some bound ->
  listener toUpperCase thrown server (request, w)
  = (_ ← Chain.run (Chain.createChain functions) tt; mret tt)
      (mkRequest (r_method request) (r_url request) (Some bound), w).
Proof.
  intros registered server o Hplain Hf Hgate Hb.
  unfold listener. cbv zeta. cbn [fst]. unfold outcome.
  rewrite match_unfold. cbn [fst].
  unfold variants. cbn [app List.map fst snd]. unfold attempt at 1.
  subst server. cbn [trie constructors].
  set (t0 := new_RouteTrie (Handler := TrieHandler)
               (default (mkRouteTrieOptions None None None) routeTrie)).
  assert (Ht : trie registered
               = state_after (addRoute pattern (mkTrieHandler method 0)) t0).
  { subst registered. rewrite http_trie. reflexivity. }
  assert (Ho : options (trie registered) = options t0).
  { rewrite Ht. apply addRoute_options. }
  subst o. rewrite Ho in Hplain, Hb.
  rewrite Ht at 1. rewrite addRoute_root, Ho.
  change (root t0) with (newTrieNode : TrieNode RegExp TrieHandler).
  rewrite (single_route_from _ _ (mkTrieHandler method 0) _ Hplain
             (length (route_segments (options t0) pattern) - 0)%nat
             0%nat 0%nat ∅ eq_refl).
  rewrite !drop_0. unfold single_answer. rewrite Hb.
  rewrite first_nonempty_head by discriminate.
  cbn [each_match each_handler matched params].
  rewrite !Async_bind_unfold. unfold handle.
  rewrite (gate_open toUpperCase (mkTrieHandler method 0) request Hgate).
  cbn [h_routeConstructor].
  rewrite (run_functions _ _ _ _ Hf). rewrite !Async_bind_unfold.
  destruct (Chain.run (Chain.createChain functions) tt _)
    as [[[[]|e] st']|]; reflexivity.
Qed.

End Served.
(** ** The further properties at concrete inputs *)

Lemma parseSegment_plain_witness :
  parseSegment "users" = mkParsedSegment static None (Some "users") None None.
Proof. apply parseSegment_plain; [reflexivity|discriminate]. Defined.

Lemma parseSegment_named_witness :
  parseSegment ":id" = mkParsedSegment named (Some "id") None None None.
Proof. apply (parseSegment_named "id"); reflexivity. Defined.

Lemma suffix_parameter_binds_stem_witness :
  bind_param (host := MiniRegExpHost)
             (mkParamChild named_suffix "name" None (Some ".txt")
                           (newTrieNode (Handler := nat)))
             "notes.txt"
  = Some "notes"
  <-> "notes.txt" = "notes" +:+ ".txt".
Proof.
  apply (suffix_parameter_binds_stem (host := MiniRegExpHost));
    [reflexivity|reflexivity|discriminate].
Defined.

Lemma root_catch_all_binds_path_witness :
  let t : RouteTrie (host := MiniRegExpHost) (Handler := nat) :=
    state_after (addRoute "/:rest*" 7%nat)
                (new_RouteTrie (given_options true true true)) in
  outcome (match_ "//Docs//a/") t
  = Normal [mkMatchResult
              {["rest" := without_leading_slashes
                            (fold_case (options t) "//Docs//a/")]}
              [7%nat]].
Proof.
  intros t.
  apply (root_catch_all_binds_path (host := MiniRegExpHost) t "rest"
           (mkTrieNode [] [] None None [7%nat]) "//Docs//a/").
  - vm_compute. reflexivity.
  - discriminate.
Defined.

Lemma registered_route_matches_witness :
  let t : RouteTrie (host := MiniRegExpHost) (Handler := nat) :=
    state_after (addRoute "/users/:id" 1%nat)
                (new_RouteTrie (given_options true true true)) in
  outcome (addRoute "/Users/:id/files/:name+.txt" 2%nat) t = Normal tt
  /\ exists results earlier,
       outcome (match_ "/users/42/files/notes.txt")
               (state_after (addRoute "/Users/:id/files/:name+.txt" 2%nat) t)
       = Normal results
       /\ In (mkMatchResult {["id" := "42"; "name" := "notes"]} (earlier ++ [2%nat]))
             results.
Proof.
  intros t.
  apply (registered_route_matches (host := MiniRegExpHost) t
           "/Users/:id/files/:name+.txt" "/users/42/files/notes.txt" 2%nat).
  vm_compute. reflexivity.
Defined.

Lemma addRoute_reads_up_to_wildcard_witness :
  let t : RouteTrie (host := MiniRegExpHost) (Handler := nat) :=
    new_RouteTrie (given_options true true true) in
  root (state_after (addRoute "/files/*/:id(" 1%nat) t)
  = root (state_after (addRoute "/files/*" 1%nat) t)
  /\ outcome (addRoute "/files/*/:id(" 1%nat) t
     = outcome (addRoute "/files/*" 1%nat) t.
Proof.
  intros t.
  apply (addRoute_reads_up_to_wildcard (host := MiniRegExpHost) t).
  vm_compute. reflexivity.
Defined.

Lemma match_results_have_handlers_witness :
  matched (mkMatchResult (∅ : gmap string string) [1%nat]) <> [].
Proof.
  apply (match_results_have_handlers (host := MiniRegExpHost)
           (state_after (addRoute "/a" 1%nat)
                        (new_RouteTrie (given_options true true true)))
           "/a" [mkMatchResult ∅ [1%nat]]).
  - vm_compute. reflexivity.
  - left. reflexivity.
Defined.

Lemma addRoute_keeps_matches_witness :
  let t : RouteTrie (host := MiniRegExpHost) (Handler := nat) :=
    state_after (addRoute "/a" 1%nat)
                (new_RouteTrie (given_options true true true)) in
  exists r',
    In r' (attempt (state_after (addRoute "/a" 2%nat) t) "/a" false false)
    /\ extends (mkMatchResult ∅ [1%nat]) r'.
Proof.
  intros t.
  apply (addRoute_keeps_matches (host := MiniRegExpHost) t "/a" 2%nat "/a"
           false false (mkMatchResult ∅ [1%nat])).
  vm_compute. left. reflexivity.
Defined.

(** A chain of a function that returns [undefined] and counts its call,
    and a function that would count ten more. *)
Lemma chain_run_stops_witness :
  let stop : Chain.AsyncFn nat unit unit unit :=
    fun _ _ w => Some (Fulfilled None, S w) in
  let more : Chain.AsyncFn nat unit unit unit :=
    fun _ _ w => Some (Fulfilled (Some ∅), (w + 10)%nat) in
  Chain.run (Chain.createChain ([stop] ++ [more])) tt 0%nat
  = Chain.run (Chain.createChain [stop]) tt 0%nat.
Proof.
  intros stop more. apply (chain_run_stops [stop] [more] tt 0%nat).
  intros w'. vm_compute. discriminate.
Defined.

Lemma chain_run_add_witness :
  let first : Chain.AsyncFn nat unit unit unit :=
    fun _ _ w => Some (Fulfilled (Some ∅), S w) in
  let last : Chain.AsyncFn nat unit unit unit :=
    fun _ _ w => Some (Fulfilled None, (w + 10)%nat) in
  exists acc,
    Chain.run (Chain.add (Chain.createChain [first]) last) tt 0%nat
    = (result ← last acc tt;
       mret (match result with Some _ => true | None => false end)) 1%nat.
Proof.
  intros first last.
  apply (chain_run_add (Chain.createChain [first]) last tt 0%nat 1%nat).
  reflexivity.
Defined.

(** The store after [http] and one [add]: the first handle refers to the
    second, whose chain holds one function. *)
Lemma add_through_any_handle_witness :
  let h : Server.RouteHandler (W := nat) (E := unit) (V := unit) :=
    fun _ => mret None in
  let store : Server.Store :=
    [Server.mkHttpRouteConstructor (Chain.createChain []) (Some 1%nat);
     Server.mkHttpRouteConstructor (Chain.createChain [Server.wrapper h]) None] in
  exists functions store' new,
    Server.functions_of (length store) 0 store = Some functions
    /\ Server.add (length store) 0 h store = Some (store', new)
    /\ Server.linked store'
    /\ Server.functions_of (length store') 0 store'
       = Some (functions ++ [Server.wrapper h])
    /\ Server.run (length store') 0 store'
       = Chain.run (Chain.createChain (functions ++ [Server.wrapper h])) tt.
Proof.
  intros h store.
  apply (add_through_any_handle store h 0%nat 0%nat 1%nat).
  - intros [|[|this]] self next H Hn; inversion H; subst self;
      inversion Hn; subst next.
    split; [lia|]. eexists _, _. split; reflexivity.
  - eapply Server.ends_next; [reflexivity|reflexivity|].
    eapply Server.ends_here; reflexivity.
  - eapply Server.ends_next; [reflexivity|reflexivity|].
    eapply Server.ends_here; reflexivity.
Defined.

(** The store after [http] and one [add]: the handle [http] returned
    refers to the object that [add] made.  From the first handle [run]
    and [add] go on to the second object. *)
Lemma run_and_add_return_witness :
  let h : Server.RouteHandler (W := nat) (E := unit) (V := unit) :=
    fun _ => mret None in
  let store : Server.Store :=
    [Server.mkHttpRouteConstructor (Chain.createChain []) (Some 1%nat);
     Server.mkHttpRouteConstructor (Chain.createChain [Server.wrapper h]) None] in
  exists last self,
    Server.ends_at store 0 last
    /\ store !! last = Some self
    /\ Server.run (length store) 0 store = Chain.run (Server.chain self) tt
    /\ Server.add (length store) 0 h store
       = Some (Server.store_after_add store last self h, length store).
Proof.
  intros h store. apply (run_and_add_return store h 0%nat).
  - intros [|[|this]] self next H Hn; inversion H; subst self;
      inversion Hn; subst next.
    split; [lia|]. eexists _, _. split; reflexivity.
  - simpl. lia.
Defined.

(** The server of [index.ts] after [http("/test/:id", "GET").add(h)]: the
    store holds the object of the route, which refers to the object that
    [add] made.  The call [http("/*")] returns the next handle, and the
    call [http("/:id([)")] throws. *)
Lemma http_new_handle_witness :
  let h : Server.RouteHandler (W := nat) (E := unit) (V := unit) :=
    fun _ => mret None in
  let this : Server.AnyServer (host := MiniRegExpHost)
               (W := nat) (E := unit) (V := unit) :=
    Server.mkAnyServer
      (Server.trie
         (snd (Server.http "/test/:id" (Some "GET")
                 (Server.new_AnyServer (W := nat) (E := unit) (V := unit) None))))
      [Server.mkHttpRouteConstructor (Chain.createChain []) (Some 1%nat);
       Server.mkHttpRouteConstructor (Chain.createChain [Server.wrapper h]) None] in
  let after := snd (Server.http "/*" None this) in
  (fst (Server.http "/*" None this) = Normal 2%nat
   /\ Server.constructors after
      = Server.constructors this
        ++ [Server.mkHttpRouteConstructor (Chain.createChain []) None]
   /\ Server.linked (Server.constructors after)
   /\ Server.ends_at (Server.constructors after) 2 2
   /\ Server.functions_of (length (Server.constructors after)) 2
        (Server.constructors after)
      = Some []
   /\ Server.trie after
      = state_after (addRoute "/*" (Server.mkTrieHandler None 2))
                    (Server.trie this))
  /\ fst (Server.http "/:id([)" None this)
     = Throw (InvalidRegexInRoute "Invalid regex in route: [").
Proof.
  intros h this after.
  assert (HL : Server.linked (Server.constructors this)).
  { intros [|[|i]] self next H Hn; inversion H; subst self;
      inversion Hn; subst next.
    split; [lia|]. eexists _, _. split; reflexivity. }
  split.
  - exact (http_new_handle (host := MiniRegExpHost) this "/*" None HL).
  - exact (proj1 (http_new_handle (host := MiniRegExpHost) this "/:id([)" None HL)).
Defined.

(** The server of [index.ts]: a route for [GET /test/:id] and a route for
    every path, and a [POST] request. *)
Lemma listener_other_method_witness :
  let app : Server.AnyServer (host := MiniRegExpHost)
              (W := nat) (E := Error) (V := unit) :=
    snd (Server.http "/*" None
           (snd (Server.http "/test/:id" (Some "GET") (Server.new_AnyServer None)))) in
  let request := Server.mkRequest (Some "POST") (Some "/test/5") None in
  Server.listener ascii_toUpperCase (fun e => e) app (request, 0%nat)
  = Some (Fulfilled tt, (request, 0%nat)).
Proof.
  intros app request.
  apply (listener_other_method (host := MiniRegExpHost) ascii_toUpperCase
           (fun e => e) app {["id" := "5"]}
           (Server.mkTrieHandler (Some "GET") 0) []
           [mkMatchResult ∅ [Server.mkTrieHandler None 1]] request 0%nat).
  - vm_compute. reflexivity.
  - reflexivity.
  - vm_compute. discriminate.
Defined.

(** The same server after [add] of a handler that counts its call and
    returns nothing, and a [GET] request: the handler runs, and the
    route for every path is not tried. *)
Lemma listener_first_decides_witness :
  let h : Server.RouteHandler (W := nat) (E := Error) (V := unit) :=
    fun _ st => Some (Fulfilled None, (fst st, S (snd st))) in
  let registered : Server.AnyServer (host := MiniRegExpHost) :=
    snd (Server.http "/*" None
           (snd (Server.http "/test/:id" (Some "GET") (Server.new_AnyServer None)))) in
  let app :=
    Server.mkAnyServer
      (Server.trie registered)
      (default [] (fst <$> Server.add 2 0 h (Server.constructors registered))) in
  let request := Server.mkRequest (Some "GET") (Some "/test/5") None in
  Server.listener ascii_toUpperCase (fun e => e) app (request, 0%nat)
  = Some (Fulfilled tt,
          (Server.mkRequest (Some "GET") (Some "/test/5") (Some {["id" := "5"]}),
           1%nat)).
Proof.
  intros h registered app request.
  apply (listener_first_decides (host := MiniRegExpHost) ascii_toUpperCase
           (fun e => e) app {["id" := "5"]}
           (Server.mkTrieHandler (Some "GET") 0) []
           [mkMatchResult ∅ [Server.mkTrieHandler None 1]] (Some false)
           (request, 0%nat)).
  - vm_compute. reflexivity.
  - vm_compute. reflexivity.
  - reflexivity.
Defined.

Lemma handle_runs_route_witness :
  let store : Server.Store (W := nat) (E := unit) (V := unit) :=
    [Server.mkHttpRouteConstructor (Chain.createChain []) None] in
  let request := Server.mkRequest (Some "get") (Some "/test/5") None in
  Server.handle ascii_toUpperCase store (Server.mkTrieHandler (Some "GET") 0)
                {["id" := "5"]} (request, 0%nat)
  = (next ← Chain.run (V := unit) (Chain.createChain []) tt; mret (Some next))
      (Server.mkRequest (Some "get") (Some "/test/5") (Some {["id" := "5"]}),
       0%nat).
Proof.
  intros store request.
  apply (handle_runs_route ascii_toUpperCase store
           (Server.mkTrieHandler (Some "GET") 0) {["id" := "5"]} request 0%nat []).
  - right. reflexivity.
  - reflexivity.
Defined.

Lemma routes_take_no_part_witness :
  let t : RouteTrie (host := MiniRegExpHost) (Handler := nat) :=
    state_after (addRoute "/a" 1%nat)
                (new_RouteTrie (given_options true true true)) in
  let t' := mkRouteTrie (root t) (options t) [] in
  outcome (match_ "/a") t' = outcome (match_ "/a") t
  /\ root (state_after (addRoute "/a/:id" 2%nat) t')
     = root (state_after (addRoute "/a/:id" 2%nat) t)
  /\ outcome (addRoute "/a/:id" 2%nat) t' = outcome (addRoute "/a/:id" 2%nat) t.
Proof.
  intros t t'.
  apply (routes_take_no_part (host := MiniRegExpHost) t t' "/a" "/a/:id" 2%nat);
    reflexivity.
Defined.

Lemma single_route_exact_witness :
  let t : RouteTrie (host := MiniRegExpHost) (Handler := nat) :=
    new_RouteTrie (given_options true true true) in
  attempt (state_after (addRoute "/users/:id/*" 1%nat) t) "/Users/42/a/b"
          false false
  = single_answer
      (route_segments (options t) "/users/:id/*")
      (filtered_segments (options t) "/Users/42/a/b" false false) ∅ 1%nat.
Proof.
  intros t.
  apply (single_route_exact (host := MiniRegExpHost)
           (given_options true true true) "/users/:id/*" 1%nat "/Users/42/a/b"
           false false).
  vm_compute. reflexivity.
Defined.

(** The route [GET /test/:id] with a handler that counts its call, and
    the request [get /Test/5]. *)
Lemma single_route_served_witness :
  let h : Server.RouteHandler (W := nat) (E := Error) (V := unit) :=
    fun _ st => Some (Fulfilled None, (fst st, S (snd st))) in
  let registered : Server.AnyServer (host := MiniRegExpHost) :=
    snd (Server.http "/test/:id" (Some "GET") (Server.new_AnyServer None)) in
  let store := default [] (fst <$> Server.add 1 0 h (Server.constructors registered)) in
  let app := Server.mkAnyServer (Server.trie registered) store in
  let request := Server.mkRequest (Some "get") (Some "/Test/5") None in
  Server.listener ascii_toUpperCase (fun e => e) app (request, 0%nat)
  = (_ ← Chain.run (Chain.createChain [Server.wrapper h]) tt; mret tt)
      (Server.mkRequest (Some "get") (Some "/Test/5") (Some {["id" := "5"]}),
       0%nat).
Proof.
  intros h registered store app request.
  apply (single_route_served (host := MiniRegExpHost) ascii_toUpperCase
           (fun e => e) None "/test/:id" (Some "GET") store [Server.wrapper h]
           request 0%nat {["id" := "5"]}).
  - vm_compute. reflexivity.
  - reflexivity.
  - right. reflexivity.
  - vm_compute. reflexivity.
Defined.
